(** * Hyperedge Inclusion Forest: a shallow embedding of [hif.c]

    The development follows the C source function by function.

    Modelling conventions
    - a C [int] vertex identifier is a [Z]; where the source does arithmetic
      on it (the comparator [cmp_int]) the 32-bit wrap-around is written out;
    - a C [double] weight is an exact rational [Q]: rounding, infinities and
      NaN are outside the model, and [EPSILON] is the rational 1/10^9;
    - an array with its length field ([verts]/[nverts], [children]/[nchildren],
      [roots]/[nroots]) is a [list]; capacities are not modelled;
    - a [Node*] that owns its subtree is a rose tree; the functions that
      mutate their arguments in place return the new values of those
      arguments (explicit state passing);
    - [qsort] is modelled by a stable insertion sort driven by the comparator
      that the source passes to it; C leaves the order of elements that
      compare equal open;
    - where the source reads memory through a cast ([forest_build_bulk]) the
      model takes the LP64 little-endian layout of the structs. *)

From Stdlib Require Import List ZArith QArith Bool Lia Lqa Permutation.
From Stdlib Require Import Sorting.Sorted Strings.Byte.
Import ListNotations.

Set Warnings "-register-all".
Local Open Scope Z_scope.

(** ** Data model ([hif.h]) *)

Record Hyperedge : Type := mkHyperedge {
  verts : list Z;
  weight : Q
}.

Definition nverts (h : Hyperedge) : Z := Z.of_nat (length (verts h)).

Inductive Node : Type :=
  mkNode { he : Hyperedge; children : list Node }.

Definition nchildren (nd : Node) : Z := Z.of_nat (length (children nd)).

Definition Forest : Type := list Node.

Definition nroots (f : Forest) : Z := Z.of_nat (length f).

(** Induction principle that reaches the children of a node. *)
Section NodeInduction.
Variable P : Node -> Prop.
Hypothesis Hnode : forall h cs, Forall P cs -> P (mkNode h cs).

Fixpoint Node_ind' (nd : Node) : P nd :=
  match nd with
  | mkNode h cs =>
      Hnode h cs
        ((fix all (l : list Node) : Forall P l :=
            match l with
            | [] => Forall_nil P
            | c :: l' => Forall_cons c (Node_ind' c) (all l')
            end) cs)
  end.
End NodeInduction.

(** ** Floating-point comparisons on the rational model *)

Definition Qgtb (a b : Q) : bool :=
  match Qcompare a b with Gt => true | _ => false end.

Definition Qltb (a b : Q) : bool :=
  match Qcompare a b with Lt => true | _ => false end.

Definition EPSILON : Q := 1 # 1000000000.

(** ** Internal helpers *)

(** [is_subset A nA B nB]: the two-index merge walk over sorted arrays. *)
Fixpoint is_subset (A B : list Z) {struct B} : bool :=
  match A, B with
  | [], _ => true
  | _ :: _, [] => false
  | a :: A', b :: B' =>
      if a =? b then is_subset A' B'
      else if a >? b then is_subset A B'
      else false
  end.

(** [weighted_cmp]: -1 when [A] should be the parent, 1 when [B] should. *)
Definition weighted_cmp (A B : Hyperedge) : Z :=
  if Qgtb (weight A) (weight B + EPSILON) then -1
  else if Qgtb (weight B) (weight A + EPSILON) then 1
  else
    let A_in_B := is_subset (verts A) (verts B) in
    let B_in_A := is_subset (verts B) (verts A) in
    if B_in_A && negb A_in_B then -1
    else if A_in_B && negb B_in_A then 1
    else if nverts A >? nverts B then -1
    else if nverts B >? nverts A then 1
    else 0.

Definition node_create (vs : list Z) (w : Q) : Node :=
  mkNode (mkHyperedge vs w) [].

Definition node_add_child (parent child : Node) : Node :=
  mkNode (he parent) (children parent ++ [child]).

Fixpoint node_depth (nd : Node) : Z :=
  match nd with
  | mkNode _ cs =>
      1 + (fix max_child (l : list Node) (m : Z) : Z :=
             match l with
             | [] => m
             | c :: l' =>
                 let d := node_depth c in
                 max_child l' (if d >? m then d else m)
             end) cs 0
  end.

Definition forest_add_root (f : Forest) (r : Node) : Forest := f ++ [r].

(** ** Insertion engine *)

(** The [while (i < root->nchildren)] loop of [insert_into_node]; [ins] is
    the recursive call [insert_into_node(root->children[i], newn, depth + 1)],
    [h] is the hyperedge of [root], [before] holds [children[0..i)] and
    [rest] holds [children[i..)].  A return code comes with the new states of
    [root] and [newn]. *)
Fixpoint scan_children (ins : Node -> Node -> Z * Node * Node)
    (h : Hyperedge) (before rest : list Node) (newn : Node) {struct rest}
  : Z * Node * Node :=
  match rest with
  | [] =>
      (* node_add_child(root, newn); return -1 *)
      (-1, mkNode h (before ++ [newn]), newn)
  | c :: rest' =>
      let '(res, c', newn') := ins c newn in
      if res =? 1 then
        (* steal the child; the index does not advance *)
        scan_children ins h before rest' (node_add_child newn' c')
      else if res =? -1 then
        (-1, mkNode h (before ++ c' :: rest'), newn')
      else
        scan_children ins h (before ++ [c']) rest' newn'
  end.

Fixpoint insert_into_node (root newn : Node) (depth : Z) {struct root}
  : Z * Node * Node :=
  match root with
  | mkNode h cs =>
      let cmp := weighted_cmp h (he newn) in
      if cmp =? 1 then (1, root, newn)
      else if cmp =? -1 then
        let newn_in_root := is_subset (verts (he newn)) (verts h) in
        if negb newn_in_root then (0, root, newn)
        else
          scan_children (fun c n => insert_into_node c n (depth + 1))
                        h [] cs newn
      else (0, root, newn)
  end.

(** The [while (i < f->nroots)] loop of [forest_insert_node]. *)
Fixpoint forest_insert_scan (before rest : list Node) (newn : Node)
  : Forest :=
  match rest with
  | [] => forest_add_root before newn
  | r :: rest' =>
      let cmp := weighted_cmp (he r) (he newn) in
      if cmp =? 1 then
        forest_insert_scan before rest' (node_add_child newn r)
      else if cmp =? -1 then
        let '(res, r', newn') := insert_into_node r newn 1 in
        if res =? 1 then
          forest_insert_scan before rest' (node_add_child newn' r')
        else if res =? -1 then
          before ++ r' :: rest'
        else
          forest_insert_scan (before ++ [r']) rest' newn'
      else
        forest_insert_scan (before ++ [r]) rest' newn
  end.

Definition forest_insert_node (f : Forest) (newn : Node) : Forest :=
  forest_insert_scan [] f newn.

(** ** Vertex-set normalizer *)

Definition wrap32 (x : Z) : Z := (x + 2 ^ 31) mod 2 ^ 32 - 2 ^ 31.

Definition cmp_int (a b : Z) : Z := wrap32 (a - b).

Section Qsort.
Context {A : Type}.
Variable cmp : A -> A -> Z.

Fixpoint qsort_insert (x : A) (l : list A) : list A :=
  match l with
  | [] => [x]
  | y :: l' => if cmp x y <=? 0 then x :: l else y :: qsort_insert x l'
  end.

Definition qsort (l : list A) : list A := fold_right qsort_insert [] l.
End Qsort.

(** The compaction loop [if (a[i] != a[w-1]) a[w++] = a[i]]; [last] is
    [a[w-1]]. *)
Fixpoint dedup_from (last : Z) (rest : list Z) : list Z :=
  match rest with
  | [] => []
  | x :: rest' =>
      if x =? last then dedup_from last rest'
      else x :: dedup_from x rest'
  end.

Definition normalize_vertices (vs : list Z) : list Z :=
  match vs with
  | [] => []
  | _ :: _ =>
      match qsort cmp_int vs with
      | [] => []
      | x :: rest => x :: dedup_from x rest
      end
  end.

(** ** Public API *)

Definition forest_create : Forest := [].

Definition insert_hyperedge (f : Forest) (vs : list Z) (w : Q) : Forest :=
  let norm := normalize_vertices vs in
  if Z.of_nat (length norm) =? 0 then f
  else forest_insert_node f (node_create norm w).

Definition forest_insert_batch (f : Forest) (edges : list Hyperedge) : Forest :=
  fold_left (fun f e => insert_hyperedge f (verts e) (weight e)) edges f.


(** ** Queries and statistics *)

Fixpoint count_by_threshold_recursive (nd : Node) (threshold : Q) : Z :=
  match nd with
  | mkNode h cs =>
      if Qltb (weight h) threshold then 0
      else
        fold_left (fun count c => count + count_by_threshold_recursive c threshold)
                  cs 1
  end.

Definition find_by_weight_threshold (f : Forest) (threshold : Q) : Z :=
  fold_left (fun count r => count + count_by_threshold_recursive r threshold) f 0.

Fixpoint count_nodes_recursive (nd : Node) : Z :=
  match nd with
  | mkNode _ cs =>
      fold_left (fun count c => count + count_nodes_recursive c) cs 1
  end.

Definition count_total_nodes (f : Forest) : Z :=
  fold_left (fun total r => total + count_nodes_recursive r) f 0.

Definition forest_max_depth (f : Forest) : Z :=
  fold_left (fun max r => let d := node_depth r in if d >? max then d else max)
            f 0.

Fixpoint verify_weight_monotonicity (nd : Node) : bool :=
  match nd with
  | mkNode h cs =>
      forallb (fun child =>
                 negb (Qgtb (weight (he child)) (weight h + EPSILON))
                 && verify_weight_monotonicity child) cs
  end.

Definition verify_forest (f : Forest) : bool :=
  forallb verify_weight_monotonicity f.

(** Pre-order collection of node pointers. *)
Fixpoint collect_all_nodes_recursive (nd : Node) (result : list Node)
  : list Node :=
  match nd with
  | mkNode _ cs =>
      fold_left (fun acc c => collect_all_nodes_recursive c acc) cs
                (result ++ [nd])
  end.

Definition collect_all_nodes (f : Forest) : list Node :=
  fold_left (fun acc r => collect_all_nodes_recursive r acc) f [].

(** ** Maintenance: rebalance *)

(** [cmp_by_weight_desc] receives pointers to two array elements and reads
    each one as [( *(Node** )a)->he.weight].  [read_weight] is what that read
    yields for the element type of the array being sorted. *)
Definition cmp_by_weight_desc {A : Type} (read_weight : A -> Q) (a b : A) : Z :=
  if Qgtb (read_weight a) (read_weight b) then -1
  else if Qltb (read_weight a) (read_weight b) then 1
  else 0.

(** For an array of [Node*] the read is the node's weight. *)
Definition node_weight (nd : Node) : Q := weight (he nd).

Definition forest_rebalance (f : Forest) : Forest :=
  let all_nodes := collect_all_nodes f in
  if Z.of_nat (length all_nodes) =? 0 then f
  else
    fold_left
      (fun f nd => forest_insert_node f (mkNode (he nd) []))
      (qsort (cmp_by_weight_desc node_weight) all_nodes)
      [].

(** ** Maintenance: merge duplicates *)

Definition vertices_equal (a b : list Z) : bool :=
  if negb (Z.of_nat (length a) =? Z.of_nat (length b)) then false
  else
    (fix loop (a b : list Z) : bool :=
       match a, b with
       | x :: a', y :: b' => if negb (x =? y) then false else loop a' b'
       | _, _ => true
       end) a b.

(** The inner [for (j = i + 1; ...)] loop.  [hs] and [processed] are the
    slices [all_nodes[j..)] and [processed[j..)]; the result carries the
    updated slice of [processed]. *)
Fixpoint merge_inner (keep_max : Z) (vi : list Z)
    (hs : list Hyperedge) (processed : list bool)
    (new_weight : Q) (dup_count merged_count : Z)
  : Q * Z * Z * list bool :=
  match hs, processed with
  | hj :: hs', pj :: ps' =>
      if pj then
        let '(nw, dc, mc, ps'') :=
          merge_inner keep_max vi hs' ps' new_weight dup_count merged_count in
        (nw, dc, mc, true :: ps'')
      else if vertices_equal vi (verts hj) then
        let new_weight' :=
          if negb (keep_max =? 0) then
            if Qgtb (weight hj) new_weight then weight hj else new_weight
          else (new_weight + weight hj)%Q in
        let '(nw, dc, mc, ps'') :=
          merge_inner keep_max vi hs' ps' new_weight'
                      (dup_count + 1) (merged_count + 1) in
        (nw, dc, mc, true :: ps'')
      else
        let '(nw, dc, mc, ps'') :=
          merge_inner keep_max vi hs' ps' new_weight dup_count merged_count in
        (nw, dc, mc, false :: ps'')
  | _, _ => (new_weight, dup_count, merged_count, [])
  end.

(** The outer [for (i = 0; ...)] loop; the result lists the hyperedges of
    [all_nodes] after the in-place weight updates. *)
Fixpoint merge_outer (keep_max : Z)
    (hs : list Hyperedge) (processed : list bool) (merged_count : Z)
  : list Hyperedge * Z :=
  match hs, processed with
  | hi :: hs', p :: ps' =>
      if p then
        let '(out, mc) := merge_outer keep_max hs' ps' merged_count in
        (hi :: out, mc)
      else
        let '(nw, dc, mc, ps'') :=
          merge_inner keep_max (verts hi) hs' ps' (weight hi) 1 merged_count in
        let nw' :=
          if (keep_max =? 0) && (dc >? 1) then (nw / inject_Z dc)%Q else nw in
        let '(out, mc') := merge_outer keep_max hs' ps'' mc in
        (mkHyperedge (verts hi) nw' :: out, mc')
  | _, _ => ([], merged_count)
  end.

(** [all_nodes] holds pointers into the forest, so the weight updates land
    in the tree: the nodes of the forest receive, in pre-order, the
    hyperedges of the updated array. *)
Fixpoint store_children (st : Node -> list Hyperedge -> Node * list Hyperedge)
    (cs : list Node) (hs : list Hyperedge) : list Node * list Hyperedge :=
  match cs with
  | [] => ([], hs)
  | c :: cs' =>
      let '(c', hs') := st c hs in
      let '(cs'', hs'') := store_children st cs' hs' in
      (c' :: cs'', hs'')
  end.

Fixpoint store_node (nd : Node) (hs : list Hyperedge) : Node * list Hyperedge :=
  match nd with
  | mkNode h cs =>
      match hs with
      | [] => (nd, [])
      | h' :: hs' =>
          let '(cs', rest) := store_children store_node cs hs' in
          (mkNode h' cs', rest)
      end
  end.

Definition store_forest (f : Forest) (hs : list Hyperedge) : Forest :=
  fst (store_children store_node f hs).

Definition forest_merge_duplicates (f : Forest) (keep_max : Z) : Forest * Z :=
  let all_nodes := collect_all_nodes f in
  let total := length all_nodes in
  if Z.of_nat total <=? 1 then (f, 0)
  else
    let '(hs', merged_count) :=
      merge_outer keep_max (map he all_nodes) (repeat false total) 0 in
    let f' := store_forest f hs' in
    (if merged_count >? 0 then forest_rebalance f' else f', merged_count).

(** ** Maintenance: prune *)

Definition should_prune (nd : Node) (threshold : Q) : bool :=
  Qltb (weight (he nd)) threshold.

(** The [while (i < nd->nchildren)] loop of [prune_node_children] and of
    [forest_prune_by_weight]; [rec] is the recursive call on a kept child. *)
Fixpoint prune_scan (rec : Node -> Z -> Node * Z) (threshold : Q)
    (rest : list Node) (removed_count : Z) : list Node * Z :=
  match rest with
  | [] => ([], removed_count)
  | c :: rest' =>
      if should_prune c threshold then
        prune_scan rec threshold rest' (removed_count + 1)
      else
        let '(c', rc) := rec c removed_count in
        let '(kept, rc') := prune_scan rec threshold rest' rc in
        (c' :: kept, rc')
  end.

Fixpoint prune_node_children (nd : Node) (threshold : Q) (removed_count : Z)
  : Node * Z :=
  match nd with
  | mkNode h cs =>
      let '(cs', rc) :=
        prune_scan (fun c rc => prune_node_children c threshold rc)
                   threshold cs removed_count in
      (mkNode h cs', rc)
  end.

Definition forest_prune_by_weight (f : Forest) (threshold : Q) : Forest * Z :=
  prune_scan (fun r rc => prune_node_children r threshold rc) threshold f 0.

(** ** IEEE-754 binary64 images of weights

    Needed where the source moves a [double] through raw memory: the
    serializer, and the comparator call of [forest_build_bulk].  Finite
    values only; a weight is the reduced fraction it denotes. *)

Definition scale2 (m x : Z) : Q :=
  if 0 <=? x then (m * 2 ^ x) # 1 else m # Z.to_pos (2 ^ (- x)).

Definition double_of_bits (b : Z) : option Q :=
  let s := Z.land (Z.shiftr b 63) 1 in
  let e := Z.land (Z.shiftr b 52) 2047 in
  let m := Z.land b (2 ^ 52 - 1) in
  if e =? 2047 then None
  else
    let mag := if e =? 0 then scale2 m (-1074)
               else scale2 (2 ^ 52 + m) (e - 1075) in
    Some (Qred (if s =? 1 then Qopp mag else mag)).

Definition bits_of_double (w : Q) : Z :=
  let n := Z.abs (Qnum w) in
  let k := Z.log2 (Zpos (Qden w)) in
  let s := if Qnum w <? 0 then 2 ^ 63 else 0 in
  if n =? 0 then 0
  else
    let L := Z.log2 n in
    let E := L - k + 1023 in
    if E <=? 0 then s + Z.shiftl n (1074 - k)
    else s + E * 2 ^ 52 + (Z.shiftl n (52 - L) - 2 ^ 52).

(** ** Batch operations *)

(** [forest_build_bulk] sorts an array of [Hyperedge] (not of [Node*]) with
    [cmp_by_weight_desc].  The comparator then takes the first word of each
    element, the [verts] pointer, for a [Node*], and reads the [double] at
    the offset of [he.weight] behind it.  On an LP64 little-endian target
    that offset is 16 bytes, so the value read is the binary64 whose low
    word is [verts[4]] and whose high word is [verts[5]] of the caller's
    array.  With fewer than six vertices the read leaves the array and the
    model has no value for it. *)
Definition word32 (x : Z) : Z := x mod 2 ^ 32.

Definition weight_through_cast (e : Hyperedge) : option Q :=
  match nth_error (verts e) 4, nth_error (verts e) 5 with
  | Some lo, Some hi => double_of_bits (word32 lo + 2 ^ 32 * word32 hi)
  | _, _ => None
  end.

Definition cast_weight (e : Hyperedge) : Q :=
  match weight_through_cast e with Some w => w | None => 0 end.

Definition cast_defined (e : Hyperedge) : bool :=
  match weight_through_cast e with Some _ => true | None => false end.

(** [None]: the comparator is called (two elements or more) and one of its
    reads has no value in the model. *)
Definition forest_build_bulk (edges : list Hyperedge) : option Forest :=
  if (Z.of_nat (length edges) <=? 1) || forallb cast_defined edges then
    Some (forest_insert_batch forest_create
            (qsort (cmp_by_weight_desc cast_weight) edges))
  else None.

(** ** Serialization *)

Definition byte_of_Z (z : Z) : Byte.byte :=
  match Byte.of_N (Z.to_N (z mod 256)) with
  | Some b => b
  | None => Byte.x00
  end.

Definition Z_of_byte (b : Byte.byte) : Z := Z.of_N (Byte.to_N b).

(** Little-endian image of the low [n] bytes of [x]. *)
Fixpoint le_bytes (n : nat) (x : Z) : list Byte.byte :=
  match n with
  | O => []
  | S n' => byte_of_Z x :: le_bytes n' (x / 256)
  end.

Fixpoint le_value (bs : list Byte.byte) : Z :=
  match bs with
  | [] => 0
  | b :: bs' => Z_of_byte b + 256 * le_value bs'
  end.

Definition int_bytes (x : Z) : list Byte.byte := le_bytes 4 x.
Definition double_bytes (w : Q) : list Byte.byte := le_bytes 8 (bits_of_double w).

Fixpoint write_node (nd : Node) : list Byte.byte :=
  match nd with
  | mkNode h cs =>
      int_bytes (nverts h)
      ++ flat_map int_bytes (verts h)
      ++ double_bytes (weight h)
      ++ int_bytes (Z.of_nat (length cs))
      ++ flat_map write_node cs
  end.

Definition forest_save (f : Forest) : list Byte.byte :=
  int_bytes (nroots f) ++ flat_map write_node f.

(** [fread] of [n] bytes: [None] on a short read. *)
Definition fread (n : nat) (bs : list Byte.byte)
  : option (list Byte.byte * list Byte.byte) :=
  if (n <=? length bs)%nat then Some (firstn n bs, skipn n bs) else None.

Definition read_int (bs : list Byte.byte) : option (Z * list Byte.byte) :=
  match fread 4 bs with
  | Some (b, rest) => Some (wrap32 (le_value b), rest)
  | None => None
  end.

Definition read_double (bs : list Byte.byte) : option (Q * list Byte.byte) :=
  match fread 8 bs with
  | Some (b, rest) =>
      match double_of_bits (le_value b) with
      | Some w => Some (w, rest)
      | None => None
      end
  | None => None
  end.

(** [fread(verts, sizeof(int), nverts, fp)] *)
Fixpoint read_ints (n : nat) (bs : list Byte.byte)
  : option (list Z * list Byte.byte) :=
  match n with
  | O => Some ([], bs)
  | S n' =>
      match read_int bs with
      | Some (x, rest) =>
          match read_ints n' rest with
          | Some (xs, rest') => Some (x :: xs, rest')
          | None => None
          end
      | None => None
      end
  end.

(** The [for (i = 0; i < n; ++i)] loops of [read_node] and [forest_load]. *)
Fixpoint read_nodes (rd : list Byte.byte -> option (Node * list Byte.byte))
    (n : nat) (acc : list Node) (bs : list Byte.byte)
  : option (list Node * list Byte.byte) :=
  match n with
  | O => Some (acc, bs)
  | S n' =>
      match rd bs with
      | Some (child, rest) => read_nodes rd n' (acc ++ [child]) rest
      | None => None
      end
  end.

(** [fuel] bounds the recursion depth; [forest_load] supplies the length of
    the stream, which a node at any depth has to fit into.  A negative
    [nverts] makes the allocation fail; a negative count runs a loop zero
    times. *)
Fixpoint read_node (fuel : nat) (bs : list Byte.byte)
  : option (Node * list Byte.byte) :=
  match fuel with
  | O => None
  | S fuel' =>
      match read_int bs with
      | None => None
      | Some (nv, bs1) =>
          if nv <? 0 then None
          else
            match read_ints (Z.to_nat nv) bs1 with
            | None => None
            | Some (vs, bs2) =>
                match read_double bs2 with
                | None => None
                | Some (w, bs3) =>
                    match read_int bs3 with
                    | None => None
                    | Some (nc, bs4) =>
                        match read_nodes (read_node fuel') (Z.to_nat nc) [] bs4 with
                        | None => None
                        | Some (cs, rest) =>
                            Some (mkNode (mkHyperedge vs w) cs, rest)
                        end
                    end
                end
            end
      end
  end.

Definition forest_load (bs : list Byte.byte) : option Forest :=
  match read_int bs with
  | None => None
  | Some (nr, bs1) =>
      match read_nodes (read_node (length bs)) (Z.to_nat nr) [] bs1 with
      | None => None
      | Some (roots, _) => Some roots
      end
  end.

(** ** Overlap *)

(** The two-index walk of [overlap_size]; the count is returned as one plus
    the count of the remaining walk. *)
Fixpoint overlap_size (A B : list Z) {struct A} : Z :=
  match A with
  | [] => 0
  | a :: A' =>
      (fix walk (B : list Z) : Z :=
         match B with
         | [] => 0
         | b :: B' =>
             if a =? b then 1 + overlap_size A' B'
             else if a <? b then overlap_size A' B
             else walk B'
         end) B
  end.

Definition overlap_ratio (A B : list Z) : Q :=
  let overlap := overlap_size A B in
  let nA := Z.of_nat (length A) in
  let nB := Z.of_nat (length B) in
  let min_size := if nA <? nB then nA else nB in
  if min_size >? 0 then (inject_Z overlap / inject_Z min_size)%Q else 0%Q.

Definition compute_overlap (a b : Node) : Q :=
  overlap_ratio (verts (he a)) (verts (he b)).

(** ** Superset, subset and range queries *)

(** The test [!best || nd->he.nverts < best->he.nverts]. *)
Definition smaller_than_best (nd : Node) (best : option Node) : bool :=
  match best with
  | None => true
  | Some b => nverts (he nd) <? nverts (he b)
  end.

Fixpoint find_minimal_superset_recursive (nd : Node) (query : list Z)
    (best : option Node) : option Node :=
  match nd with
  | mkNode h cs =>
      if is_subset query (verts h) then
        let best := if smaller_than_best nd best then Some nd else best in
        fold_left
          (fun best c =>
             match find_minimal_superset_recursive c query best with
             | Some child_best =>
                 if smaller_than_best child_best best then Some child_best
                 else best
             | None => best
             end)
          cs best
      else best
  end.

Definition find_minimal_superset (f : Forest) (query : list Z) : option Node :=
  fold_left
    (fun best r =>
       match find_minimal_superset_recursive r query best with
       | Some cand => if smaller_than_best cand best then Some cand else best
       | None => best
       end)
    f None.

(** The test [!best || nd->he.weight > best->he.weight]. *)
Definition heavier_than_best (nd : Node) (best : option Node) : bool :=
  match best with
  | None => true
  | Some b => Qgtb (weight (he nd)) (weight (he b))
  end.

Fixpoint find_heaviest_superset_recursive (nd : Node) (query : list Z)
    (best : option Node) : option Node :=
  match nd with
  | mkNode h cs =>
      if is_subset query (verts h) then
        let best := if heavier_than_best nd best then Some nd else best in
        fold_left
          (fun best c =>
             match find_heaviest_superset_recursive c query best with
             | Some child_best =>
                 if heavier_than_best child_best best then Some child_best
                 else best
             | None => best
             end)
          cs best
      else best
  end.

Definition find_heaviest_superset (f : Forest) (query : list Z) : option Node :=
  fold_left
    (fun best r =>
       match find_heaviest_superset_recursive r query best with
       | Some cand => if heavier_than_best cand best then Some cand else best
       | None => best
       end)
    f None.

Fixpoint collect_by_weight_recursive (nd : Node) (threshold : Q)
    (result : list Node) : list Node :=
  match nd with
  | mkNode h cs =>
      if Qle_bool threshold (weight h) then
        fold_left (fun acc c => collect_by_weight_recursive c threshold acc)
                  cs (result ++ [nd])
      else result
  end.

Definition get_clusters_by_weight (f : Forest) (threshold : Q) : list Node :=
  fold_left (fun acc r => collect_by_weight_recursive r threshold acc) f [].

Fixpoint collect_supersets_recursive (nd : Node) (query : list Z)
    (result : list Node) : list Node :=
  match nd with
  | mkNode h cs =>
      if is_subset query (verts h) then
        fold_left (fun acc c => collect_supersets_recursive c query acc)
                  cs (result ++ [nd])
      else result
  end.

Definition find_all_supersets (f : Forest) (query : list Z) : list Node :=
  fold_left (fun acc r => collect_supersets_recursive r query acc) f [].

Fixpoint collect_subsets_recursive (nd : Node) (query : list Z)
    (result : list Node) : list Node :=
  match nd with
  | mkNode h cs =>
      let result := if is_subset (verts h) query then result ++ [nd] else result in
      fold_left (fun acc c => collect_subsets_recursive c query acc) cs result
  end.

Definition find_all_subsets (f : Forest) (query : list Z) : list Node :=
  fold_left (fun acc r => collect_subsets_recursive r query acc) f [].

Fixpoint collect_by_weight_range_recursive (nd : Node) (min_w max_w : Q)
    (result : list Node) : list Node :=
  match nd with
  | mkNode h cs =>
      let result :=
        if Qle_bool min_w (weight h) && Qle_bool (weight h) max_w
        then result ++ [nd] else result in
      if Qle_bool min_w (weight h) then
        fold_left (fun acc c => collect_by_weight_range_recursive c min_w max_w acc)
                  cs result
      else result
  end.

Definition find_by_weight_range (f : Forest) (min_weight max_weight : Q)
  : list Node :=
  fold_left
    (fun acc r =>
       if Qle_bool min_weight (weight (he r)) then
         collect_by_weight_range_recursive r min_weight max_weight acc
       else acc)
    f [].

Definition contains_all_vertices (vs query : list Z) : bool :=
  is_subset query vs.

Fixpoint collect_containing_vertices_recursive (nd : Node) (vertices : list Z)
    (result : list Node) : list Node :=
  match nd with
  | mkNode h cs =>
      if contains_all_vertices (verts h) vertices then
        fold_left (fun acc c => collect_containing_vertices_recursive c vertices acc)
                  cs (result ++ [nd])
      else result
  end.

Definition find_containing_vertices (f : Forest) (vertices : list Z)
  : list Node :=
  fold_left (fun acc r => collect_containing_vertices_recursive r vertices acc) f [].

(** ** Weight extremes *)

Definition forest_max_weight (f : Forest) : Q :=
  match f with
  | [] => 0%Q
  | r0 :: _ =>
      fold_left
        (fun max r => if Qgtb (weight (he r)) max then weight (he r) else max)
        f (weight (he r0))
  end.

(** [find_weight_range_recursive] writes through two pointers.  The memory
    it writes to is a map from addresses to doubles, so that a caller can
    pass the same address twice. *)
Definition mem : Type := nat -> Q.

Definition load (m : mem) (a : nat) : Q := m a.

Definition store (m : mem) (a : nat) (v : Q) : mem :=
  fun b => if Nat.eqb b a then v else m b.

Fixpoint find_weight_range_recursive (nd : Node) (pmin pmax : nat) (m : mem)
  : mem :=
  match nd with
  | mkNode h cs =>
      let m := if Qltb (weight h) (load m pmin) then store m pmin (weight h)
               else m in
      let m := if Qgtb (weight h) (load m pmax) then store m pmax (weight h)
               else m in
      fold_left (fun m c => find_weight_range_recursive c pmin pmax m) cs m
  end.

(** The local [min] lives at address 0, and [&min] is passed for both
    pointers. *)
Definition forest_min_weight (f : Forest) : Q :=
  match f with
  | [] => 0%Q
  | r0 :: _ =>
      let m := store (fun _ => 0%Q) 0%nat (weight (he r0)) in
      load (fold_left (fun m r => find_weight_range_recursive r 0%nat 0%nat m) f m)
           0%nat
  end.

(** ** Optimize *)

Definition forest_optimize (f : Forest) : Forest :=
  forest_rebalance (fst (forest_merge_duplicates f 1)).

(** ** Top-k *)

(** The loop over the roots in [find_top_k]: every root taken goes into
    [result] and into the queue.  [count] is the length of [result]; [queue]
    holds the slots from [front] to [back]. *)
Fixpoint top_k_roots (k : Z) (roots result queue : list Node) (back : Z)
  : list Node * list Node * Z :=
  match roots with
  | [] => (result, queue, back)
  | r :: roots' =>
      if Z.of_nat (length result) <? k then
        top_k_roots k roots' (result ++ [r]) (queue ++ [r]) (back + 1)
      else (result, queue, back)
  end.

(** The loop over the children of the node taken from the queue; a child
    enters the queue only while [back < k * 10]. *)
Fixpoint top_k_push (k : Z) (cs result queue : list Node) (back : Z)
  : list Node * list Node * Z :=
  match cs with
  | [] => (result, queue, back)
  | c :: cs' =>
      if Z.of_nat (length result) <? k then
        if back <? k * 10 then
          top_k_push k cs' (result ++ [c]) (queue ++ [c]) (back + 1)
        else
          top_k_push k cs' (result ++ [c]) queue back
      else (result, queue, back)
  end.

(** The [while (front < back && count < k)] loop; [None] when [fuel] runs
    out before the loop ends. *)
Fixpoint top_k_loop (fuel : nat) (k : Z) (result queue : list Node) (back : Z)
  : option (list Node) :=
  match fuel with
  | O => None
  | S fuel' =>
      match queue with
      | [] => Some result
      | curr :: queue' =>
          if Z.of_nat (length result) <? k then
            let '(result', queue'', back') :=
              top_k_push k (children curr) result queue' back in
            top_k_loop fuel' k result' queue'' back'
          else Some result
      end
  end.

Definition find_top_k (f : Forest) (k : Z) : option (list Node) :=
  if (k <=? 0) || (nroots f =? 0) then Some []
  else
    let '(result, queue, back) := top_k_roots k f [] [] 0 in
    top_k_loop (S (length (collect_all_nodes f))) k result queue back.

(** ** Traversal *)

(** A visitor is called with a node and the user data; it returns its
    stop code and the user data as it leaves them. *)
Definition NodeVisitor (S : Type) : Type := Node -> S -> Z * S.

(** A [for] loop that calls the visitor on each element and breaks on the
    first non-zero code; the result says whether it broke. *)
Fixpoint visit_loop {S : Type} (visitor : NodeVisitor S) (l : list Node) (s : S)
  : bool * S :=
  match l with
  | [] => (false, s)
  | nd :: l' =>
      let '(code, s') := visitor nd s in
      if negb (code =? 0) then (true, s') else visit_loop visitor l' s'
  end.

(** The loop over the children in [dfs_helper], and over the roots in
    [forest_traverse_dfs]: stop as soon as a subtree reports a stop. *)
Fixpoint dfs_scan {S : Type} (rec : Node -> S -> Z * S) (cs : list Node) (s : S)
  : Z * S :=
  match cs with
  | [] => (0, s)
  | c :: cs' =>
      let '(code, s') := rec c s in
      if negb (code =? 0) then (1, s') else dfs_scan rec cs' s'
  end.

Fixpoint dfs_helper {S : Type} (visitor : NodeVisitor S) (nd : Node) (s : S)
  : Z * S :=
  match nd with
  | mkNode _ cs =>
      let '(code, s') := visitor nd s in
      if negb (code =? 0) then (1, s')
      else dfs_scan (dfs_helper visitor) cs s'
  end.

Definition forest_traverse_dfs {S : Type} (visitor : NodeVisitor S)
    (f : Forest) (s : S) : S :=
  snd (dfs_scan (dfs_helper visitor) f s).

Definition forest_traverse_by_weight {S : Type} (visitor : NodeVisitor S)
    (f : Forest) (s : S) : S :=
  let all_nodes := collect_all_nodes f in
  if Z.of_nat (length all_nodes) =? 0 then s
  else snd (visit_loop visitor (qsort (cmp_by_weight_desc node_weight) all_nodes) s).

(** The loop over the children in [forest_traverse_bfs]: a child enters the
    queue only while [back < total]. *)
Fixpoint bfs_push (total : Z) (cs queue : list Node) (back : Z)
  : list Node * Z :=
  match cs with
  | [] => (queue, back)
  | c :: cs' =>
      if back <? total then bfs_push total cs' (queue ++ [c]) (back + 1)
      else bfs_push total cs' queue back
  end.

(** The [while (front < back)] loop; [queue] holds the slots from [front]
    to [back].  [None] when [fuel] runs out before the loop ends. *)
Fixpoint bfs_loop {S : Type} (fuel : nat) (visitor : NodeVisitor S) (total : Z)
    (queue : list Node) (back : Z) (s : S) : option S :=
  match fuel with
  | O => None
  | S fuel' =>
      match queue with
      | [] => Some s
      | curr :: queue' =>
          let '(code, s') := visitor curr s in
          if negb (code =? 0) then Some s'
          else
            let '(queue'', back') := bfs_push total (children curr) queue' back in
            bfs_loop fuel' visitor total queue'' back' s'
      end
  end.

Definition forest_traverse_bfs {S : Type} (visitor : NodeVisitor S)
    (f : Forest) (s : S) : option S :=
  let total := count_total_nodes f in
  if total =? 0 then Some s
  else bfs_loop (Datatypes.S (length (collect_all_nodes f))) visitor total
                f (nroots f) s.

(** ** Specification-level definitions

    Predicates and reference functions that the properties below are
    stated with. *)

(** *** Weight monotonicity *)

(** [c] may hang below a node carrying [h]: the test of
    [verify_weight_monotonicity] for one child. *)
Definition ok_child (h : Hyperedge) (c : Node) : Prop :=
  Qgtb (weight (he c)) (weight h + EPSILON) = false
  /\ verify_weight_monotonicity c = true.

(** What a call of [insert_into_node] guarantees when both arguments are
    weight-monotone. *)
Definition insert_post (root newn : Node) (r : Z * Node * Node) : Prop :=
  let '(res, root', newn') := r in
  verify_weight_monotonicity root' = true
  /\ verify_weight_monotonicity newn' = true
  /\ he root' = he root
  /\ he newn' = he newn
  /\ (res = 1 -> weighted_cmp (he root) (he newn) = 1).

(** The nodes of a subtree in pre-order, the order in which
    [collect_all_nodes_recursive] lists them. *)
Fixpoint subnodes (nd : Node) : list Node :=
  match nd with
  | mkNode _ cs => nd :: flat_map subnodes cs
  end.

(** *** The comparator on canonical vertex sets *)

(** Canonical form: sorted ascending, no duplicates. *)
Fixpoint strictly_increasing (l : list Z) : bool :=
  match l with
  | [] => true
  | x :: l' =>
      match l' with
      | [] => true
      | y :: _ => (x <? y) && strictly_increasing l'
      end
  end.



(** *** Chains *)

(** The forest that is one chain through the given hyperedges, root first. *)
Fixpoint chain (hs : list Hyperedge) : Forest :=
  match hs with
  | [] => []
  | h :: t => [mkNode h (chain t)]
  end.

(** [x] wins against [h] and contains it: [h] goes below [x]. *)
Definition above (h x : Hyperedge) : Prop :=
  weighted_cmp x h = -1 /\ is_subset (verts h) (verts x) = true.

(** The first element of the lower part, if any, loses against [h]. *)
Definition below_head (h : Hyperedge) (l : list Hyperedge) : Prop :=
  match l with
  | [] => True
  | y :: _ => weighted_cmp y h = 1
  end.

(** Insertion into a list of keys kept in descending order. *)
Fixpoint desc_insert (k : nat) (ks : list nat) : list nat :=
  match ks with
  | [] => [k]
  | x :: t => if (x <? k)%nat then k :: ks else x :: desc_insert k t
  end.

(** The vertex set {1, ..., k}. *)
Definition prefix_set (k : nat) : list Z := map Z.of_nat (seq 1 k).

(** The keys of the five-element chain. *)
Definition in_range (k : nat) : Prop := (1 <= k <= 5)%nat.

(** The hyperedge {1..k} carrying the [k]-th of five weights. *)
Definition chain_edge (w1 w2 w3 w4 w5 : Q) (k : nat) : Hyperedge :=
  mkHyperedge (prefix_set k)
    (match k with
     | 1 => w1 | 2 => w2 | 3 => w3 | 4 => w4 | _ => w5
     end)%nat.

(** *** Counting *)

Definition Zsum (l : list Z) : Z := fold_right Z.add 0 l.

Definition count_if {A : Type} (p : A -> bool) (l : list A) : Z :=
  Z.of_nat (length (filter p l)).

(** [weight >= threshold] *)
Definition at_least (threshold : Q) (nd : Node) : bool :=
  Qle_bool threshold (weight (he nd)).


(** Monotonicity without tolerance: no child is heavier than its parent. *)
Fixpoint monotone_exact (nd : Node) : bool :=
  match nd with
  | mkNode h cs =>
      forallb (fun c => Qle_bool (weight (he c)) (weight h) && monotone_exact c) cs
  end.

(** *** Pruning *)

(** Every node of a subtree with the list of its proper ancestors, nearest
    first. *)
Fixpoint with_ancestors (anc : list Node) (nd : Node) : list (list Node * Node) :=
  match nd with
  | mkNode _ cs => (anc, nd) :: flat_map (with_ancestors (nd :: anc)) cs
  end.

(** A maximal pruned subtree root: a node below the threshold none of whose
    ancestors is below it, so that its parent (or its root slot) survives. *)
Definition is_pruned_root (threshold : Q) (p : list Node * Node) : bool :=
  should_prune (snd p) threshold
  && forallb (fun a => negb (should_prune a threshold)) (fst p).

(** The maximal pruned subtree roots among the subtrees [l], which hang
    below the ancestors [anc]. *)
Definition pruned_roots_from (threshold : Q) (anc : list Node) (l : list Node)
  : list Node :=
  map snd (filter (is_pruned_root threshold) (flat_map (with_ancestors anc) l)).

(** The maximal pruned subtree roots of a forest. *)
Definition pruned_roots (f : Forest) (threshold : Q) : list Node :=
  pruned_roots_from threshold [] f.

(** Total number of nodes in a list of subtrees. *)
Definition nodes_in (l : list Node) : Z := Zsum (map count_nodes_recursive l).

(** No ancestor in [anc] is below the threshold. *)
Definition survives (t : Q) (anc : list Node) : Prop :=
  forallb (fun a => negb (should_prune a t)) anc = true.

(** What one call on a kept node has to deliver, and what the loop then
    delivers. *)
Definition prune_post (t : Q) (anc : list Node) (c : Node) (rc : Z)
    (r : Node * Z) : Prop :=
  snd r = rc + Z.of_nat (length (pruned_roots_from t anc [c]))
  /\ count_nodes_recursive c
     = count_nodes_recursive (fst r) + nodes_in (pruned_roots_from t anc [c]).

(** *** Serialization *)

(** The range of a C [int]. *)
Definition int32 (x : Z) : Prop := - 2 ^ 31 <= x < 2 ^ 31.

(** The weight survives the trip through its eight bytes. *)
Definition representable (w : Q) : Prop :=
  double_of_bits (le_value (double_bytes w)) = Some w.

(** What the C types force on a node: counts and vertices are [int]s, the
    weight is a finite [double]. *)
Definition node_fits (nd : Node) : Prop :=
  int32 (nverts (he nd))
  /\ Forall int32 (verts (he nd))
  /\ representable (weight (he nd))
  /\ int32 (nchildren nd).

(** A forest that the C types can hold. *)
Definition serializable (f : Forest) : Prop :=
  int32 (nroots f) /\ Forall node_fits (collect_all_nodes f).

(** Recursion depth that reading a subtree back needs. *)
Fixpoint height (nd : Node) : nat :=
  match nd with
  | mkNode _ cs => S (fold_right Nat.max 0%nat (map height cs))
  end.

(** *** Node conservation and rebuilding *)

(** The hyperedges of a list of subtrees, in pre-order. *)
Definition hes (l : list Node) : list Hyperedge := map he (flat_map subnodes l).

(** A call either places [newn] (code -1) or changes nothing. *)
Definition insert_keeps (root newn : Node) (r : Z * Node * Node) : Prop :=
  let '(res, root', newn') := r in
  (res = -1 /\ Permutation (hes [root']) (hes [root] ++ hes [newn]))
  \/ (res <> -1 /\ root' = root /\ newn' = newn).

(** What [insert_hyperedge] turns an input pair into. *)
Definition norm_edge (e : Hyperedge) : Hyperedge :=
  mkHyperedge (normalize_vertices (verts e)) (weight e).

(** The test [n_norm == 0] of [insert_hyperedge], negated. *)
Definition nonempty_edge (h : Hyperedge) : bool :=
  negb (Z.of_nat (length (verts h)) =? 0).

(** The hyperedges that a batch of inputs creates nodes for. *)
Definition kept_edges (edges : list Hyperedge) : list Hyperedge :=
  filter nonempty_edge (map norm_edge edges).

(** Ordinary insertion of fresh nodes, one per hyperedge. *)
Definition insert_all (hs : list Hyperedge) (f : Forest) : Forest :=
  fold_left (fun f h => forest_insert_node f (mkNode h [])) hs f.

(** Strictly heavier. *)
Definition heavier (a b : Hyperedge) : Prop := (weight b < weight a)%Q.

(** *** Further properties *)

(** Vertices whose pairwise differences fit a C [int], so that the
    subtraction in [cmp_int] does not overflow. *)
Definition small_vertex (v : Z) : Prop := - 2 ^ 30 <= v < 2 ^ 30.

(** An input pair with at least one vertex. *)
Definition has_vertices (e : Hyperedge) : bool :=
  match verts e with [] => false | _ :: _ => true end.

(** No node of the subtree is below the threshold. *)
Fixpoint all_at_least (threshold : Q) (nd : Node) : bool :=
  match nd with
  | mkNode h cs =>
      negb (Qltb (weight h) threshold) && forallb (all_at_least threshold) cs
  end.

(** The nodes of a subtree that a descent guarded by [p] collects: the
    node itself if [p] holds, and then what the descent collects below. *)
Fixpoint guarded (p : Node -> bool) (nd : Node) : list Node :=
  match nd with
  | mkNode _ cs => if p nd then nd :: flat_map (guarded p) cs else []
  end.

(** The nodes of a forest, in pre-order, that satisfy [p] together with
    each of their ancestors. *)
Definition reached (p : Node -> bool) (f : Forest) : list Node :=
  map snd
    (filter (fun x => p (snd x) && forallb p (fst x))
            (flat_map (with_ancestors []) f)).

(** The vertex set of the node contains the query. *)
Definition is_superset_of (query : list Z) (nd : Node) : bool :=
  is_subset query (verts (he nd)).

(** The vertex set of the node is contained in the query. *)
Definition is_subset_of (query : list Z) (nd : Node) : bool :=
  is_subset (verts (he nd)) query.

(** Every vertex sequence in the subtree is canonical. *)
Fixpoint canonical_node (nd : Node) : bool :=
  match nd with
  | mkNode h cs => strictly_increasing (verts h) && forallb canonical_node cs
  end.

(** Every child's vertex set passes [is_subset] against its parent's. *)
Fixpoint nested (nd : Node) : bool :=
  match nd with
  | mkNode h cs =>
      forallb (fun c => is_subset (verts (he c)) (verts h) && nested c) cs
  end.

(** The update [if (better) best = nd] with a comparison [better] between
    a candidate and the best node so far. *)
Definition improves (better : Node -> Node -> bool) (nd : Node)
    (best : option Node) : bool :=
  match best with
  | None => true
  | Some b => better nd b
  end.

Definition keep_best (better : Node -> Node -> bool) (best : option Node)
    (nd : Node) : option Node :=
  if improves better nd best then Some nd else best.

Definition fewer_vertices (nd b : Node) : bool := nverts (he nd) <? nverts (he b).

Definition more_weight (nd b : Node) : bool := Qgtb (weight (he nd)) (weight (he b)).

(** [min <= weight <= max] *)
Definition in_weight_range (min_w max_w : Q) (nd : Node) : bool :=
  Qle_bool min_w (weight (he nd)) && Qle_bool (weight (he nd)) max_w.

(** What a successful read consumed, and that it succeeds again, with the
    same result, on a longer stream and with more fuel. *)
Definition read_ok (rd : list Byte.byte -> option (Node * list Byte.byte))
    (rd' : list Byte.byte -> option (Node * list Byte.byte)) : Prop :=
  forall bs nd rest,
    rd bs = Some (nd, rest) ->
    length bs = (length (write_node nd) + length rest)%nat
    /\ forall extra, rd' (bs ++ extra) = Some (nd, rest ++ extra).

(** The nodes at depth [d] below (and including, for depth 0) a node, left
    to right. *)
Fixpoint at_depth (d : nat) (nd : Node) : list Node :=
  match d with
  | O => [nd]
  | S d' => flat_map (at_depth d') (children nd)
  end.

(** One layer of a forest. *)
Definition layer (f : Forest) (d : nat) : list Node := flat_map (at_depth d) f.

(** The first [n] layers, one after the other. *)
Definition first_layers (f : Forest) (n : nat) : list Node :=
  flat_map (layer f) (seq 0 n).

Definition forest_height (f : Forest) : nat := fold_right Nat.max 0%nat (map height f).

(** Breadth-first order: the roots, then their children, and so on, layer
    by layer. *)
Definition bfs_order (f : Forest) : list Node := first_layers f (forest_height f).

(* ================================================================== *)
(** * Properties *)


(** ** Comparisons on weights *)

Lemma Qgtb_true (a b : Q) : Qgtb a b = true <-> (b < a)%Q.
Proof.
  unfold Qgtb. rewrite Qgt_alt.
  destruct (a ?= b)%Q; split; congruence.
Qed.

Lemma Qgtb_false (a b : Q) : Qgtb a b = false <-> (a <= b)%Q.
Proof.
  unfold Qgtb. rewrite Qle_alt.
  destruct (a ?= b)%Q; split; congruence.
Qed.

Lemma Qltb_true (a b : Q) : Qltb a b = true <-> (a < b)%Q.
Proof.
  unfold Qltb. rewrite Qlt_alt.
  destruct (a ?= b)%Q; split; congruence.
Qed.

Lemma Qltb_false (a b : Q) : Qltb a b = false <-> (b <= a)%Q.
Proof.
  destruct (Qltb a b) eqn:E.
  - apply Qltb_true in E. split; [discriminate | intros; lra].
  - split; [intros _ | reflexivity].
    apply Qnot_lt_le. intros H. apply Qltb_true in H. congruence.
Qed.

(** ** Facts about the comparator *)

Lemma weighted_cmp_range (A B : Hyperedge) :
  weighted_cmp A B = -1 \/ weighted_cmp A B = 0 \/ weighted_cmp A B = 1.
Proof.
  unfold weighted_cmp.
  repeat match goal with |- context [if ?c then _ else _] => destruct c end;
    auto.
Qed.

(** When [B] wins, [A] is not heavier than [B] beyond the tolerance. *)
Lemma weighted_cmp_1_weight (A B : Hyperedge) :
  weighted_cmp A B = 1 -> Qgtb (weight A) (weight B + EPSILON) = false.
Proof.
  unfold weighted_cmp.
  destruct (Qgtb (weight A) (weight B + EPSILON)); [discriminate | reflexivity].
Qed.

(** When [A] wins, [B] is not heavier than [A] beyond the tolerance. *)
Lemma weighted_cmp_m1_weight (A B : Hyperedge) :
  weighted_cmp A B = -1 -> Qgtb (weight B) (weight A + EPSILON) = false.
Proof.
  unfold weighted_cmp.
  destruct (Qgtb (weight A) (weight B + EPSILON)) eqn:E1.
  - intros _. apply Qgtb_true in E1. apply Qgtb_false.
    unfold EPSILON in *. lra.
  - destruct (Qgtb (weight B) (weight A + EPSILON)); [discriminate | reflexivity].
Qed.

(** ** Weight monotonicity is preserved by insertion *)

Lemma verify_node_iff (h : Hyperedge) (cs : list Node) :
  verify_weight_monotonicity (mkNode h cs) = true <-> Forall (ok_child h) cs.
Proof.
  simpl. rewrite forallb_forall, Forall_forall. unfold ok_child.
  split; intros H c Hc; specialize (H c Hc).
  - apply andb_true_iff in H. destruct H as [H1 H2].
    apply negb_true_iff in H1. auto.
  - destruct H as [H1 H2]. rewrite H1, H2. reflexivity.
Qed.

Lemma verify_add_child (p c : Node) :
  verify_weight_monotonicity p = true ->
  ok_child (he p) c ->
  verify_weight_monotonicity (node_add_child p c) = true.
Proof.
  destruct p as [h cs]. unfold node_add_child. simpl he. simpl children.
  rewrite !verify_node_iff. intros H Hc.
  apply Forall_app. split; [exact H | constructor; [exact Hc | constructor]].
Qed.

Lemma scan_children_wm (ins : Node -> Node -> Z * Node * Node)
    (h : Hyperedge) (rest : list Node) :
  Forall (fun c => forall n, verify_weight_monotonicity n = true ->
                             insert_post c n (ins c n)) rest ->
  Forall (ok_child h) rest ->
  forall before newn,
    Forall (ok_child h) before ->
    ok_child h newn ->
    let '(res, root', newn') := scan_children ins h before rest newn in
    verify_weight_monotonicity root' = true
    /\ verify_weight_monotonicity newn' = true
    /\ he root' = h /\ he newn' = he newn /\ res <> 1.
Proof.
  induction rest as [|c rest IH]; intros Hins Hrest before newn Hb Hn; simpl.
  - repeat split; try lia; try apply Hn.
    apply verify_node_iff, Forall_app. split; [exact Hb | repeat constructor; apply Hn].
  - inversion Hins as [|? ? Hc Hins']; subst.
    inversion Hrest as [|? ? Hokc Hrest']; subst.
    specialize (Hc newn (proj2 Hn)). unfold insert_post in Hc.
    destruct (ins c newn) as [[res c'] newn'].
    destruct Hc as (Hc'wm & Hn'wm & Hc'he & Hn'he & Hres).
    destruct (res =? 1) eqn:E1; [|destruct (res =? -1) eqn:E2].
    + apply Z.eqb_eq in E1. specialize (Hres E1).
      assert (Hstep : ok_child h (node_add_child newn' c')).
      { split.
        - destruct newn'; simpl in *. rewrite Hn'he. apply Hn.
        - apply verify_add_child; [exact Hn'wm|].
          split; [|exact Hc'wm].
          rewrite Hc'he, Hn'he. apply weighted_cmp_1_weight. exact Hres. }
      specialize (IH Hins' Hrest' before (node_add_child newn' c') Hb Hstep).
      destruct (scan_children ins h before rest (node_add_child newn' c'))
        as [[res2 root2] newn2].
      destruct IH as (? & ? & ? & Hhe & ?). repeat split; auto.
      rewrite Hhe. destruct newn'; simpl in *. exact Hn'he.
    + repeat split; auto; try lia.
      apply verify_node_iff, Forall_app. split; [exact Hb|].
      constructor; [|exact Hrest'].
      split; [rewrite Hc'he; apply Hokc | exact Hc'wm].
    + assert (Hb' : Forall (ok_child h) (before ++ [c'])).
      { apply Forall_app. split; [exact Hb|]. repeat constructor.
        - rewrite Hc'he. apply Hokc.
        - exact Hc'wm. }
      assert (Hn' : ok_child h newn').
      { split; [rewrite Hn'he; apply Hn | exact Hn'wm]. }
      specialize (IH Hins' Hrest' (before ++ [c']) newn' Hb' Hn').
      destruct (scan_children ins h (before ++ [c']) rest newn')
        as [[res2 root2] newn2].
      destruct IH as (? & ? & ? & Hhe & ?). repeat split; auto.
      congruence.
Qed.

Lemma insert_into_node_wm (root : Node) :
  verify_weight_monotonicity root = true ->
  forall newn depth,
    verify_weight_monotonicity newn = true ->
    insert_post root newn (insert_into_node root newn depth).
Proof.
  induction root as [h cs IH] using Node_ind'.
  intros Hroot newn depth Hnewn. simpl.
  destruct (weighted_cmp h (he newn) =? 1) eqn:E1.
  { apply Z.eqb_eq in E1. unfold insert_post. repeat split; auto. }
  destruct (weighted_cmp h (he newn) =? -1) eqn:E2.
  2:{ unfold insert_post. repeat split; auto. discriminate. }
  destruct (is_subset (verts (he newn)) (verts h)); simpl.
  2:{ unfold insert_post. repeat split; auto. discriminate. }
  apply Z.eqb_eq in E2.
  apply verify_node_iff in Hroot.
  assert (Hins : Forall (fun c => forall n, verify_weight_monotonicity n = true ->
             insert_post c n (insert_into_node c n (depth + 1))) cs).
  { rewrite Forall_forall in *. intros c Hc n Hn.
    apply IH; [exact Hc | apply (Hroot c Hc) | exact Hn]. }
  assert (Hn : ok_child h newn).
  { split; [apply weighted_cmp_m1_weight; exact E2 | exact Hnewn]. }
  pose proof (scan_children_wm _ h cs Hins Hroot [] newn (Forall_nil _) Hn) as H.
  destruct (scan_children _ h [] cs newn) as [[res root'] newn'].
  destruct H as (? & ? & ? & ? & ?). unfold insert_post. repeat split; auto.
  intros; contradiction.
Qed.

Lemma forest_insert_scan_wm (rest : list Node) :
  forall before newn,
    Forall (fun r => verify_weight_monotonicity r = true) before ->
    Forall (fun r => verify_weight_monotonicity r = true) rest ->
    verify_weight_monotonicity newn = true ->
    Forall (fun r => verify_weight_monotonicity r = true)
           (forest_insert_scan before rest newn).
Proof.
  induction rest as [|r rest IH]; intros before newn Hb Hr Hn; simpl.
  - unfold forest_add_root. apply Forall_app. split; [exact Hb | repeat constructor; exact Hn].
  - inversion Hr as [|? ? Hr0 Hr']; subst.
    destruct (weighted_cmp (he r) (he newn) =? 1) eqn:E1.
    { apply Z.eqb_eq in E1. apply IH; auto.
      apply verify_add_child; [exact Hn|].
      split; [apply weighted_cmp_1_weight; exact E1 | exact Hr0]. }
    destruct (weighted_cmp (he r) (he newn) =? -1) eqn:E2.
    2:{ apply IH; auto. apply Forall_app. split; [exact Hb | repeat constructor; exact Hr0]. }
    pose proof (insert_into_node_wm r Hr0 newn 1 Hn) as H.
    unfold insert_post in H.
    destruct (insert_into_node r newn 1) as [[res r'] newn'].
    destruct H as (Hr'wm & Hn'wm & Hr'he & Hn'he & Hres).
    destruct (res =? 1) eqn:R1; [|destruct (res =? -1) eqn:R2].
    + apply Z.eqb_eq in R1. apply IH; auto.
      apply verify_add_child; [exact Hn'wm|].
      split; [|exact Hr'wm].
      rewrite Hr'he, Hn'he. apply weighted_cmp_1_weight. auto.
    + apply Forall_app. split; [exact Hb | constructor; assumption].
    + apply IH; auto. apply Forall_app. split; [exact Hb | repeat constructor; exact Hr'wm].
Qed.

Lemma verify_forest_iff (f : Forest) :
  verify_forest f = true <->
  Forall (fun r => verify_weight_monotonicity r = true) f.
Proof.
  unfold verify_forest. rewrite forallb_forall, Forall_forall. reflexivity.
Qed.

Lemma forest_insert_node_wm (f : Forest) (newn : Node) :
  verify_forest f = true ->
  verify_weight_monotonicity newn = true ->
  verify_forest (forest_insert_node f newn) = true.
Proof.
  rewrite !verify_forest_iff. intros Hf Hn.
  apply forest_insert_scan_wm; auto.
Qed.



(** ** The nodes of a forest, in pre-order *)

Lemma fold_collect (g : Node -> list Node -> list Node) (cs : list Node) :
  Forall (fun c => forall acc, g c acc = acc ++ subnodes c) cs ->
  forall acc, fold_left (fun acc c => g c acc) cs acc = acc ++ flat_map subnodes cs.
Proof.
  induction 1 as [|c cs Hc _ IH]; intros acc; simpl.
  - now rewrite app_nil_r.
  - rewrite Hc, IH, app_assoc. reflexivity.
Qed.

Lemma collect_all_nodes_recursive_eq (nd : Node) :
  forall acc, collect_all_nodes_recursive nd acc = acc ++ subnodes nd.
Proof.
  induction nd as [h cs IH] using Node_ind'. intros acc.
  cbn [collect_all_nodes_recursive subnodes].
  rewrite (fold_collect collect_all_nodes_recursive cs IH).
  rewrite <- app_assoc. reflexivity.
Qed.

Lemma collect_all_nodes_eq (f : Forest) :
  collect_all_nodes f = flat_map subnodes f.
Proof.
  unfold collect_all_nodes.
  rewrite (fold_collect collect_all_nodes_recursive f).
  - reflexivity.
  - apply Forall_forall. intros c _. apply collect_all_nodes_recursive_eq.
Qed.



(** ** Edges that containment does not justify *)

(** C2. The code attaches a dominated root, and steals a dominated child,
    without the subset check that the downward path applies.  Inserting
    {1,2} (weight 1) and then {3,4} (weight 2) makes {1,2} a child of the
    disjoint set {3,4}; inserting {1,2,3,4} (10), {1,2} (1), {3,4} (5) makes
    {1,2} a child of {3,4} below the root. *)
Theorem C2_edge_without_containment :
  insert_hyperedge (insert_hyperedge forest_create [1; 2] 1) [3; 4] 2
  = [mkNode (mkHyperedge [3; 4] 2) [mkNode (mkHyperedge [1; 2] 1) []]]
  /\ insert_hyperedge
       (insert_hyperedge
          (insert_hyperedge forest_create [1; 2; 3; 4] 10) [1; 2] 1) [3; 4] 5
     = [mkNode (mkHyperedge [1; 2; 3; 4] 10)
          [mkNode (mkHyperedge [3; 4] 5) [mkNode (mkHyperedge [1; 2] 1) []]]]
  /\ is_subset [1; 2] [3; 4] = false.
Proof. repeat split; reflexivity. Qed.

(** ** The subset walk decides inclusion of canonical vertex sets *)

Lemma strictly_increasing_sorted (l : list Z) :
  strictly_increasing l = true -> StronglySorted Z.lt l.
Proof.
  intros H. apply Sorted_StronglySorted; [intros x y z; lia|].
  induction l as [|x l IH]; [constructor|].
  simpl in H. destruct l as [|y l]; [repeat constructor|].
  apply andb_true_iff in H. destruct H as [Hxy Hl].
  constructor; [apply IH, Hl | constructor; lia].
Qed.

Lemma is_subset_incl (B : list Z) :
  forall A, StronglySorted Z.lt A -> StronglySorted Z.lt B ->
            (is_subset A B = true <-> incl A B).
Proof.
  induction B as [|b B IH]; intros [|a A] HA HB; simpl.
  - split; [intros _ x [] | reflexivity].
  - split; [discriminate | intros H; destruct (H a (or_introl eq_refl))].
  - split; [intros _ x [] | reflexivity].
  - inversion HA as [|? ? HA' Ha]; subst. inversion HB as [|? ? HB' Hb]; subst.
    rewrite Forall_forall in Ha, Hb.
    destruct (a =? b) eqn:E; [|destruct (a >? b) eqn:G].
    + apply Z.eqb_eq in E. subst b. rewrite (IH A HA' HB'). split.
      * intros H x [<-|Hx]; [left; reflexivity | right; apply H, Hx].
      * intros H x Hx. destruct (H x (or_intror Hx)) as [Heq|Hin]; [|exact Hin].
        specialize (Ha x Hx). lia.
    + rewrite (IH (a :: A) HA HB'). apply Z.eqb_neq in E.
      assert (Hlt : b < a) by lia. split.
      * intros H x Hx. right. apply H, Hx.
      * intros H x Hx. destruct (H x Hx) as [Heq|Hin]; [|exact Hin].
        destruct Hx as [<-|Hx]; [lia | specialize (Ha x Hx); lia].
    + apply Z.eqb_neq in E. assert (Hlt : a < b) by lia.
      split; [discriminate|]. intros H.
      destruct (H a (or_introl eq_refl)) as [Heq|Hin]; [lia|].
      specialize (Hb a Hin). lia.
Qed.





(** ** Inserting into a chain *)

Lemma insert_into_chain_node (h : Hyperedge) (l1 : list Hyperedge) :
  forall x l2 depth,
    above h x -> Forall (above h) l1 -> below_head h l2 ->
    exists n',
      insert_into_node (mkNode x (chain (l1 ++ l2))) (mkNode h []) depth
      = (-1, mkNode x (chain (l1 ++ h :: l2)), n').
Proof.
  induction l1 as [|y l1 IH]; intros x l2 depth [Hcmp Hsub] Hl1 Hl2;
    cbn [insert_into_node he]; rewrite Hcmp, Hsub; cbn [Z.eqb negb app].
  - destruct l2 as [|y l2]; cbn [chain scan_children].
    + eexists. reflexivity.
    + cbn [below_head] in Hl2. cbn [insert_into_node he]. rewrite Hl2.
      cbn [Z.eqb Pos.eqb scan_children]. eexists. reflexivity.
  - inversion Hl1 as [|? ? Hy Hl1']; subst.
    destruct (IH y l2 (depth + 1) Hy Hl1' Hl2) as [n' Hn'].
    cbn [chain scan_children]. rewrite Hn'. cbn [Z.eqb].
    eexists. reflexivity.
Qed.

Lemma forest_insert_chain (h : Hyperedge) (l1 l2 : list Hyperedge) :
  Forall (above h) l1 -> below_head h l2 ->
  forest_insert_node (chain (l1 ++ l2)) (mkNode h []) = chain (l1 ++ h :: l2).
Proof.
  intros Hl1 Hl2. unfold forest_insert_node.
  destruct l1 as [|x l1]; cbn [app chain forest_insert_scan].
  - destruct l2 as [|y l2]; cbn [chain forest_insert_scan]; [reflexivity|].
    cbn [below_head] in Hl2. cbn [he]. rewrite Hl2. reflexivity.
  - inversion Hl1 as [|? ? Hx Hl1']; subst.
    destruct (insert_into_chain_node h l1 x l2 1 Hx Hl1' Hl2) as [n' Hn'].
    cbn [he]. rewrite (proj1 Hx). cbn [Z.eqb]. rewrite Hn'. reflexivity.
Qed.

Lemma desc_insert_split (k : nat) (ks : list nat) :
  ~ In k ks ->
  exists l1 l2,
    ks = l1 ++ l2 /\ desc_insert k ks = l1 ++ k :: l2
    /\ Forall (fun x => (k < x)%nat) l1
    /\ match l2 with [] => True | y :: _ => (y < k)%nat end.
Proof.
  induction ks as [|x t IH]; intros Hk; simpl.
  - exists [], []. repeat split; constructor.
  - destruct (Nat.ltb_spec x k) as [Hlt|Hge].
    + exists [], (x :: t). repeat split; [constructor | exact Hlt].
    + destruct IH as (l1 & l2 & -> & E & H1 & H2).
      { intros Hin. apply Hk. right. exact Hin. }
      exists (x :: l1), l2. rewrite E. repeat split; [|exact H2].
      constructor; [|exact H1].
      assert (x <> k) by (intros ->; apply Hk; left; reflexivity). lia.
Qed.

Lemma desc_insert_perm (k : nat) (ks : list nat) :
  Permutation (k :: ks) (desc_insert k ks).
Proof.
  induction ks as [|x t IH]; simpl; [reflexivity|].
  destruct (x <? k)%nat; [reflexivity|].
  rewrite perm_swap. constructor. exact IH.
Qed.

Lemma desc_insert_sorted (k : nat) (ks : list nat) :
  StronglySorted gt ks -> ~ In k ks -> StronglySorted gt (desc_insert k ks).
Proof.
  induction 1 as [|x t Ht IH Hx]; intros Hk; simpl.
  - repeat constructor.
  - destruct (Nat.ltb_spec x k) as [Hlt|Hge].
    + constructor; [constructor; assumption|].
      constructor; [lia|]. rewrite Forall_forall in *. intros y Hy.
      specialize (Hx y Hy). lia.
    + constructor.
      * apply IH. intros Hin. apply Hk. right. exact Hin.
      * apply (Permutation_Forall (desc_insert_perm k t)).
        constructor; [|exact Hx].
        assert (x <> k) by (intros ->; apply Hk; left; reflexivity). lia.
Qed.

Lemma strongly_sorted_gt_unique (l1 : list nat) :
  forall l2, StronglySorted gt l1 -> StronglySorted gt l2 ->
             Permutation l1 l2 -> l1 = l2.
Proof.
  induction l1 as [|a l1 IH]; intros l2 H1 H2 P.
  - apply Permutation_nil in P. now subst.
  - destruct l2 as [|b l2]; [apply Permutation_sym, Permutation_nil in P; discriminate|].
    inversion H1 as [|? ? H1' Ha]; subst. inversion H2 as [|? ? H2' Hb]; subst.
    rewrite Forall_forall in Ha, Hb.
    assert (a = b).
    { assert (Hin1 : In a (b :: l2)) by (apply (Permutation_in _ P); left; reflexivity).
      assert (Hin2 : In b (a :: l1))
        by (apply (Permutation_in _ (Permutation_sym P)); left; reflexivity).
      destruct Hin1 as [E|Hin1]; [now subst|].
      destruct Hin2 as [E|Hin2]; [now subst|].
      specialize (Ha b Hin2). specialize (Hb a Hin1). lia. }
    subst b. f_equal. apply IH; auto. apply (Permutation_cons_inv P).
Qed.

Lemma desc_sort_acc (ks : list nat) :
  forall acc, StronglySorted gt acc -> NoDup (acc ++ ks) ->
    StronglySorted gt (fold_left (fun acc k => desc_insert k acc) ks acc)
    /\ Permutation (acc ++ ks) (fold_left (fun acc k => desc_insert k acc) ks acc).
Proof.
  induction ks as [|k ks IH]; intros acc Hs Hnd; simpl.
  - rewrite app_nil_r. split; [exact Hs | reflexivity].
  - assert (Hk : ~ In k acc).
    { apply NoDup_remove_2 in Hnd. intros Hin. apply Hnd, in_or_app. now left. }
    destruct (IH (desc_insert k acc)) as [S P].
    + apply desc_insert_sorted; assumption.
    + apply (Permutation_NoDup (l := acc ++ k :: ks)); [|exact Hnd].
      rewrite <- (desc_insert_perm k acc). symmetry. apply Permutation_middle.
    + split; [exact S|]. rewrite <- P, <- (desc_insert_perm k acc).
      symmetry. apply Permutation_middle.
Qed.

(** ** The five-element chain *)

Lemma cmp_heavier_superset (A B : Hyperedge) :
  (weight B < weight A)%Q ->
  is_subset (verts B) (verts A) = true ->
  is_subset (verts A) (verts B) = false ->
  weighted_cmp A B = -1 /\ weighted_cmp B A = 1.
Proof.
  intros Hw HBA HAB. unfold weighted_cmp. rewrite HBA, HAB.
  assert (Qgtb (weight B) (weight A + EPSILON) = false) as ->
    by (apply Qgtb_false; unfold EPSILON; lra).
  destruct (Qgtb (weight A) (weight B + EPSILON)); split; reflexivity.
Qed.

Ltac range_cases k :=
  let H := fresh in
  assert (H : (k = 1 \/ k = 2 \/ k = 3 \/ k = 4 \/ k = 5)%nat) by lia;
  destruct H as [->|[->|[->|[->| ->]]]].

Section ChainOrder.
Variables w1 w2 w3 w4 w5 : Q.
Hypothesis H12 : (w1 < w2)%Q.
Hypothesis H23 : (w2 < w3)%Q.
Hypothesis H34 : (w3 < w4)%Q.
Hypothesis H45 : (w4 < w5)%Q.

Local Abbreviation E := (chain_edge w1 w2 w3 w4 w5).

Lemma chain_edge_order (a b : nat) :
  in_range a -> in_range b -> (b < a)%nat ->
  above (E b) (E a) /\ weighted_cmp (E b) (E a) = 1.
Proof.
  unfold in_range. intros Ha Hb Hlt.
  assert (H : (weighted_cmp (E a) (E b) = -1 /\ weighted_cmp (E b) (E a) = 1)
              /\ is_subset (verts (E b)) (verts (E a)) = true).
  { range_cases a; range_cases b; try lia;
      (split; [|reflexivity]; apply cmp_heavier_superset;
       [unfold E; simpl; lra | reflexivity | reflexivity]). }
  destruct H as ((H1 & H2) & H3). repeat split; assumption.
Qed.

Lemma insert_chain_edge (ks : list nat) (k : nat) :
  in_range k -> Forall in_range ks -> ~ In k ks ->
  insert_hyperedge (chain (map E ks)) (verts (E k)) (weight (E k))
  = chain (map E (desc_insert k ks)).
Proof.
  intros Hk Hks Hnot.
  assert (Hins : insert_hyperedge (chain (map E ks)) (verts (E k)) (weight (E k))
                 = forest_insert_node (chain (map E ks)) (mkNode (E k) [])).
  { unfold in_range in Hk. range_cases k; reflexivity. }
  rewrite Hins.
  destruct (desc_insert_split k ks Hnot) as (l1 & l2 & -> & -> & H1 & H2).
  rewrite !map_app. cbn [map].
  apply Forall_app in Hks. destruct Hks as [Hr1 Hr2].
  apply forest_insert_chain.
  - rewrite Forall_forall in *. intros x Hx.
    apply in_map_iff in Hx. destruct Hx as (y & <- & Hy).
    apply chain_edge_order; auto.
  - destruct l2 as [|y l2]; cbn [map below_head]; [exact I|].
    inversion Hr2; subst. apply chain_edge_order; auto.
Qed.

Lemma insert_chain_edges (ks : list nat) :
  forall acc,
    Forall in_range (acc ++ ks) -> NoDup (acc ++ ks) ->
    forest_insert_batch (chain (map E acc)) (map E ks)
    = chain (map E (fold_left (fun acc k => desc_insert k acc) ks acc)).
Proof.
  unfold forest_insert_batch.
  induction ks as [|k ks IH]; intros acc Hr Hnd; cbn [map fold_left];
    [reflexivity|].
  assert (Hk : ~ In k acc).
  { apply NoDup_remove_2 in Hnd. intros Hin. apply Hnd, in_or_app. now left. }
  pose proof (Permutation_middle acc ks k) as Pm.
  assert (Pd : Permutation (desc_insert k acc ++ ks) (acc ++ k :: ks)).
  { apply (perm_trans (l' := (k :: acc) ++ ks)); [|exact Pm].
    apply Permutation_app_tail, Permutation_sym, desc_insert_perm. }
  rewrite insert_chain_edge.
  - apply IH.
    + apply (Permutation_Forall (Permutation_sym Pd)), Hr.
    + apply (Permutation_NoDup (Permutation_sym Pd)), Hnd.
  - rewrite Forall_forall in Hr. apply Hr, in_or_app. right. now left.
  - apply Forall_app in Hr. apply Hr.
  - exact Hk.
Qed.

(** C4. The hyperedges {1}, {1,2}, ..., {1,2,3,4,5} with strictly
    increasing weights, inserted in any order, give one root with five
    vertices above a single chain of depth 5. *)
Theorem C4_chain_order_independence (order : list Hyperedge) :
  Permutation order [E 1; E 2; E 3; E 4; E 5]%nat ->
  let f := forest_insert_batch forest_create order in
  f = chain [E 5; E 4; E 3; E 2; E 1]%nat
  /\ nroots f = 1
  /\ (forall r, In r f -> nverts (he r) = 5)
  /\ forest_max_depth f = 5
  /\ count_total_nodes f = 5.
Proof.
  intros P f.
  assert (Hf : f = chain [E 5; E 4; E 3; E 2; E 1]%nat).
  { change [E 1; E 2; E 3; E 4; E 5]%nat with (map E [1; 2; 3; 4; 5]%nat) in P.
    apply Permutation_map_inv in P. destruct P as (ks & -> & P).
    assert (Hr : Forall in_range ks).
    { apply (Permutation_Forall P). unfold in_range. repeat constructor; lia. }
    assert (Hnd : NoDup ks).
    { apply (Permutation_NoDup P). repeat constructor; simpl; intuition lia. }
    unfold f, forest_create.
    change (@nil Node) with (chain (map E [])).
    rewrite (insert_chain_edges ks [] Hr Hnd).
    destruct (desc_sort_acc ks [] (SSorted_nil _) Hnd) as [S Pk].
    cbn [app] in Pk.
    replace (fold_left (fun acc k => desc_insert k acc) ks [])
      with [5; 4; 3; 2; 1]%nat; [reflexivity|].
    apply strongly_sorted_gt_unique.
    - repeat constructor.
    - exact S.
    - rewrite <- Pk, <- P.
      apply Permutation_sym, (Permutation_rev [1; 2; 3; 4; 5]%nat). }
  rewrite Hf. repeat split.
  intros r [<-|[]]. reflexivity.
Qed.
End ChainOrder.

Lemma C4_chain_order_independence_witness :
  let E := chain_edge 1 2 3 4 5 in
  let f := forest_insert_batch forest_create [E 3; E 1; E 5; E 2; E 4]%nat in
  f = chain [E 5; E 4; E 3; E 2; E 1]%nat
  /\ nroots f = 1
  /\ (forall r, In r f -> nverts (he r) = 5)
  /\ forest_max_depth f = 5
  /\ count_total_nodes f = 5.
Proof.
  intros E.
  apply (C4_chain_order_independence 1 2 3 4 5); try reflexivity.
  change [E 3; E 1; E 5; E 2; E 4]%nat with (map E [3; 1; 5; 2; 4]%nat).
  change [chain_edge 1 2 3 4 5 1; chain_edge 1 2 3 4 5 2; chain_edge 1 2 3 4 5 3;
          chain_edge 1 2 3 4 5 4; chain_edge 1 2 3 4 5 5]%nat
    with (map E [1; 2; 3; 4; 5]%nat).
  apply Permutation_map.
  apply (perm_trans (l' := [1; 3; 5; 2; 4]%nat)); [apply perm_swap|].
  apply perm_skip.
  apply (perm_trans (l' := [3; 2; 5; 4]%nat)); [apply perm_skip, perm_swap|].
  apply (perm_trans (l' := [2; 3; 5; 4]%nat)); [apply perm_swap|].
  apply perm_skip, perm_skip, perm_swap.
Defined.

(** ** Empty vertex lists *)

Lemma qsort_insert_nonempty {A : Type} (cmp : A -> A -> Z) (x : A) (l : list A) :
  qsort_insert cmp x l <> [].
Proof. destruct l as [|y l]; simpl; [|destruct (cmp x y <=? 0)]; discriminate. Qed.

Lemma normalize_vertices_nil_iff (vs : list Z) :
  normalize_vertices vs = [] <-> vs = [].
Proof.
  split; [|intros ->; reflexivity].
  destruct vs as [|v vs]; [reflexivity|].
  unfold normalize_vertices, qsort. cbn [fold_right].
  pose proof (qsort_insert_nonempty cmp_int v (fold_right (qsort_insert cmp_int) [] vs)).
  destruct (qsort_insert cmp_int v _); [contradiction | discriminate].
Qed.

(** C9. [insert_hyperedge] with a vertex list that normalizes to the empty
    sequence returns the forest unchanged, whatever the forest and the
    weight; the empty list is such a list (and the only one). *)
Theorem C9_empty_insert_noop (f : Forest) (vs : list Z) (w : Q) :
  normalize_vertices vs = [] -> insert_hyperedge f vs w = f.
Proof.
  intros H. unfold insert_hyperedge. rewrite H. reflexivity.
Qed.

Lemma C9_empty_insert_noop_witness :
  insert_hyperedge [mkNode (mkHyperedge [1; 2] 1) []] [] 3
  = [mkNode (mkHyperedge [1; 2] 1) []].
Proof. apply C9_empty_insert_noop. reflexivity. Defined.

(** ** Threshold count against a full scan *)

Lemma fold_left_add {A : Type} (g : A -> Z) (l : list A) :
  forall a, fold_left (fun acc c => acc + g c) l a = a + Zsum (map g l).
Proof.
  induction l as [|x l IH]; intros a; simpl; [lia|].
  rewrite IH. lia.
Qed.





Lemma monotone_exact_bound (r : Node) :
  monotone_exact r = true ->
  forall nd, In nd (subnodes r) -> (weight (he nd) <= weight (he r))%Q.
Proof.
  induction r as [h cs IH] using Node_ind'. intros Hr nd Hin.
  cbn [subnodes] in Hin. destruct Hin as [<-|Hin]; [simpl; lra|].
  apply in_flat_map in Hin. destruct Hin as (c & Hc & Hin).
  cbn [monotone_exact] in Hr. rewrite forallb_forall in Hr.
  specialize (Hr c Hc). apply andb_true_iff in Hr. destruct Hr as [Hle Hm].
  apply Qle_bool_iff in Hle. rewrite Forall_forall in IH.
  specialize (IH c Hc Hm nd Hin). simpl. lra.
Qed.





(** ** What pruning returns *)

Lemma count_total_nodes_eq (f : Forest) : count_total_nodes f = nodes_in f.
Proof. unfold count_total_nodes, nodes_in. rewrite fold_left_add. lia. Qed.

Lemma count_nodes_recursive_eq (h : Hyperedge) (cs : list Node) :
  count_nodes_recursive (mkNode h cs) = 1 + nodes_in cs.
Proof. cbn [count_nodes_recursive]. rewrite fold_left_add. reflexivity. Qed.

Lemma nodes_in_cons (c : Node) (l : list Node) :
  nodes_in (c :: l) = count_nodes_recursive c + nodes_in l.
Proof. reflexivity. Qed.

Lemma nodes_in_app (l1 l2 : list Node) :
  nodes_in (l1 ++ l2) = nodes_in l1 + nodes_in l2.
Proof.
  unfold nodes_in. induction l1 as [|x l1 IH]; simpl; [reflexivity|].
  rewrite IH. lia.
Qed.

Lemma count_nodes_recursive_pos (nd : Node) : 1 <= count_nodes_recursive nd.
Proof.
  induction nd as [h cs IH] using Node_ind'.
  rewrite count_nodes_recursive_eq. unfold nodes_in.
  induction IH as [|c cs Hc _ IHcs]; unfold Zsum in *; cbn [map fold_right] in *; lia.
Qed.

Lemma nodes_in_ge_length (l : list Node) : Z.of_nat (length l) <= nodes_in l.
Proof.
  induction l as [|x l IH]; [reflexivity|].
  rewrite nodes_in_cons.
  change (length (x :: l)) with (S (length l)). rewrite Nat2Z.inj_succ.
  pose proof (count_nodes_recursive_pos x). lia.
Qed.

Lemma pruned_roots_from_app (t : Q) (anc : list Node) (l1 l2 : list Node) :
  pruned_roots_from t anc (l1 ++ l2)
  = pruned_roots_from t anc l1 ++ pruned_roots_from t anc l2.
Proof.
  unfold pruned_roots_from. rewrite flat_map_app, filter_app, map_app. reflexivity.
Qed.

Lemma filter_flat_map_nil {A B : Type} (p : B -> bool) (g : A -> list B)
    (l : list A) :
  Forall (fun x => filter p (g x) = []) l -> filter p (flat_map g l) = [].
Proof.
  induction 1 as [|x l Hx _ IH]; simpl; [reflexivity|].
  rewrite filter_app, Hx, IH. reflexivity.
Qed.

(** Below a node that is itself below the threshold nothing is a pruned
    root. *)
Lemma no_pruned_root_below (t : Q) (a : Node) (post : list Node) (nd : Node) :
  should_prune a t = true ->
  forall pre,
    filter (is_pruned_root t) (with_ancestors (pre ++ a :: post) nd) = [].
Proof.
  intros Ha. induction nd as [h cs IH] using Node_ind'. intros pre.
  cbn [with_ancestors filter].
  assert (is_pruned_root t (pre ++ a :: post, mkNode h cs) = false) as ->.
  { unfold is_pruned_root. cbn [fst snd]. rewrite forallb_app. simpl.
    rewrite Ha. simpl. rewrite !andb_false_r. reflexivity. }
  apply filter_flat_map_nil. rewrite Forall_forall in *.
  intros c Hc. apply (IH c Hc (mkNode h cs :: pre)).
Qed.

(** A node below the threshold under surviving ancestors is the one pruned
    root of its subtree. *)
Lemma pruned_roots_pruned (t : Q) (anc : list Node) (nd : Node) :
  survives t anc -> should_prune nd t = true ->
  pruned_roots_from t anc [nd] = [nd].
Proof.
  intros Hanc Hnd. unfold pruned_roots_from. cbn [flat_map]. rewrite app_nil_r.
  destruct nd as [h cs]. cbn [with_ancestors filter].
  assert (is_pruned_root t (anc, mkNode h cs) = true) as ->.
  { unfold is_pruned_root. cbn [fst snd]. rewrite Hnd, Hanc. reflexivity. }
  rewrite filter_flat_map_nil; [reflexivity|].
  apply Forall_forall. intros c _.
  apply (no_pruned_root_below t (mkNode h cs) anc c Hnd []).
Qed.

(** A surviving node passes the question on to its children. *)
Lemma pruned_roots_kept (t : Q) (anc : list Node) (h : Hyperedge) (cs : list Node) :
  should_prune (mkNode h cs) t = false ->
  pruned_roots_from t anc [mkNode h cs]
  = pruned_roots_from t (mkNode h cs :: anc) cs.
Proof.
  intros Hnd. unfold pruned_roots_from. cbn [flat_map]. rewrite app_nil_r.
  cbn [with_ancestors filter].
  assert (is_pruned_root t (anc, mkNode h cs) = false) as ->.
  { unfold is_pruned_root. cbn [fst snd]. rewrite Hnd. reflexivity. }
  reflexivity.
Qed.

Lemma pruned_roots_from_cons (t : Q) (anc : list Node) (c : Node) (l : list Node) :
  pruned_roots_from t anc (c :: l)
  = pruned_roots_from t anc [c] ++ pruned_roots_from t anc l.
Proof. apply (pruned_roots_from_app t anc [c] l). Qed.

Lemma prune_scan_spec (rec : Node -> Z -> Node * Z) (t : Q) (anc : list Node)
    (rest : list Node) :
  survives t anc ->
  Forall (fun c => should_prune c t = false ->
                   forall rc, prune_post t anc c rc (rec c rc)) rest ->
  forall rc,
    snd (prune_scan rec t rest rc)
    = rc + Z.of_nat (length (pruned_roots_from t anc rest))
    /\ nodes_in rest
       = nodes_in (fst (prune_scan rec t rest rc))
         + nodes_in (pruned_roots_from t anc rest).
Proof.
  intros Hanc. induction 1 as [|c rest Hc _ IH]; intros rc.
  - simpl. split; [lia | reflexivity].
  - cbn [prune_scan]. rewrite pruned_roots_from_cons, length_app, nodes_in_app.
    rewrite nodes_in_cons.
    destruct (should_prune c t) eqn:E.
    + rewrite (pruned_roots_pruned t anc c Hanc E).
      destruct (IH (rc + 1)) as [IH1 IH2]. rewrite IH1, IH2.
      rewrite nodes_in_cons. cbn [length]. change (nodes_in []) with 0.
      split; lia.
    + specialize (Hc eq_refl rc). unfold prune_post in Hc.
      destruct (rec c rc) as [c' rc1]. cbn [fst snd] in Hc.
      destruct Hc as [Hc1 Hc2].
      destruct (IH rc1) as [IH1 IH2].
      destruct (prune_scan rec t rest rc1) as [kept rc2]. cbn [fst snd] in *.
      rewrite nodes_in_cons. split; lia.
Qed.

Lemma prune_node_children_spec (t : Q) (nd : Node) :
  forall anc rc,
    survives t anc -> should_prune nd t = false ->
    prune_post t anc nd rc (prune_node_children nd t rc).
Proof.
  induction nd as [h cs IH] using Node_ind'. intros anc rc Hanc Hnd.
  unfold prune_post. rewrite (pruned_roots_kept t anc h cs Hnd).
  cbn [prune_node_children].
  assert (Hanc' : survives t (mkNode h cs :: anc)).
  { unfold survives. cbn [forallb]. rewrite Hnd. exact Hanc. }
  pose proof (prune_scan_spec (fun c rc => prune_node_children c t rc) t
                (mkNode h cs :: anc) cs Hanc') as H.
  destruct (H ltac:(rewrite Forall_forall in *; intros c Hc Hp rc0;
                    apply (IH c Hc); assumption) rc) as [H1 H2].
  destruct (prune_scan _ t cs rc) as [cs' rc']. cbn [fst snd] in *.
  rewrite !count_nodes_recursive_eq. split; lia.
Qed.

Lemma subnodes_count (r : Node) :
  forall nd, In nd (subnodes r) ->
             count_nodes_recursive nd <= count_nodes_recursive r.
Proof.
  induction r as [h cs IH] using Node_ind'. intros nd Hin.
  cbn [subnodes] in Hin. destruct Hin as [<-|Hin]; [lia|].
  apply in_flat_map in Hin. destruct Hin as (c & Hc & Hin).
  rewrite Forall_forall in IH. specialize (IH c Hc nd Hin).
  rewrite count_nodes_recursive_eq.
  apply in_split in Hc. destruct Hc as (l1 & l2 & ->).
  rewrite nodes_in_app, nodes_in_cons.
  pose proof (nodes_in_ge_length l1). pose proof (nodes_in_ge_length l2). lia.
Qed.

Lemma nodes_in_gt_length (l : list Node) (r : Node) :
  In r l -> 2 <= count_nodes_recursive r -> Z.of_nat (length l) < nodes_in l.
Proof.
  intros Hin Hr. apply in_split in Hin. destruct Hin as (l1 & l2 & ->).
  rewrite length_app, nodes_in_app, nodes_in_cons. cbn [length].
  pose proof (nodes_in_ge_length l1). pose proof (nodes_in_ge_length l2). lia.
Qed.

(** C10. [forest_prune_by_weight] returns the number of maximal pruned
    subtree roots, not the number of nodes destroyed: the node count drops
    by the total size of those subtrees, and when a destroyed node has a
    child the returned value is strictly smaller than the drop. *)
Theorem C10_prune_return_value (f : Forest) (threshold : Q) :
  let f' := fst (forest_prune_by_weight f threshold) in
  let removed := snd (forest_prune_by_weight f threshold) in
  let drop := count_total_nodes f - count_total_nodes f' in
  removed = Z.of_nat (length (pruned_roots f threshold))
  /\ drop = nodes_in (pruned_roots f threshold)
  /\ removed <= drop
  /\ ((exists r nd, In r (pruned_roots f threshold) /\ In nd (subnodes r)
                    /\ children nd <> []) ->
      removed < drop).
Proof.
  cbv zeta. unfold forest_prune_by_weight, pruned_roots, Forest.
  pose proof (prune_scan_spec (fun r rc => prune_node_children r threshold rc)
                threshold [] f eq_refl) as H.
  destruct (H ltac:(apply Forall_forall; intros c _ Hp rc0;
                    apply prune_node_children_spec; [reflexivity | exact Hp]) 0)
    as [H1 H2].
  set (res := prune_scan _ threshold f 0) in *.
  set (roots := pruned_roots_from threshold [] f) in *.
  assert (Hrem : snd res = Z.of_nat (length roots)) by lia.
  assert (Hdrop : count_total_nodes f - count_total_nodes (fst res) = nodes_in roots)
    by (rewrite !count_total_nodes_eq; lia).
  split; [exact Hrem|]. split; [exact Hdrop|]. split.
  - pose proof (nodes_in_ge_length roots). lia.
  - intros (r & nd & Hr & Hnd & Hch).
    assert (Hlt : Z.of_nat (length roots) < nodes_in roots); [|lia].
    apply (nodes_in_gt_length _ r Hr).
    pose proof (subnodes_count r nd Hnd) as Hle.
    destruct nd as [h [|c cs]]; [contradiction|].
    rewrite count_nodes_recursive_eq, nodes_in_cons in Hle.
    pose proof (nodes_in_ge_length cs). pose proof (count_nodes_recursive_pos c).
    lia.
Qed.

Lemma C10_prune_return_value_witness :
  let f := insert_hyperedge
             (insert_hyperedge (insert_hyperedge forest_create [1; 2] 1) [2; 3] 2)
             [3; 4] 3 in
  snd (forest_prune_by_weight f (5 # 2)) = 1
  /\ count_total_nodes f - count_total_nodes (fst (forest_prune_by_weight f (5 # 2))) = 2
  /\ snd (forest_prune_by_weight f (5 # 2))
     < count_total_nodes f - count_total_nodes (fst (forest_prune_by_weight f (5 # 2))).
Proof.
  intros f.
  destruct (C10_prune_return_value f (5 # 2)) as (H1 & H2 & _ & H4).
  assert (Hx : exists r nd, In r (pruned_roots f (5 # 2)) /\ In nd (subnodes r)
                            /\ children nd <> []).
  { exists (mkNode (mkHyperedge [2; 3] 2) [mkNode (mkHyperedge [1; 2] 1) []]).
    exists (mkNode (mkHyperedge [2; 3] 2) [mkNode (mkHyperedge [1; 2] 1) []]).
    split; [left; reflexivity|]. split; [left; reflexivity | discriminate]. }
  split; [rewrite H1; reflexivity|].
  split; [rewrite H2; reflexivity | exact (H4 Hx)].
Defined.

(** ** Merging duplicates *)

(** C7. [forest_merge_duplicates] writes the combined weight into the first
    node of each group and counts the others as merged, but removes none of
    them.  Three nodes {1,2,3} with weights 5, 7, 3 are still three nodes
    {1,2,3} afterwards: with [keep_max = 1] the weights are 7, 5, 3; with
    [keep_max = 0] they are 5 (the mean, 15/3), 3 and 5. *)
Theorem C7_merge_keeps_duplicates :
  let f := insert_hyperedge
             (insert_hyperedge (insert_hyperedge forest_create [1; 2; 3] 5)
                               [1; 2; 3] 7)
             [1; 2; 3] 3 in
  snd (forest_merge_duplicates f 1) = 2
  /\ count_total_nodes (fst (forest_merge_duplicates f 1)) = 3
  /\ map he (collect_all_nodes (fst (forest_merge_duplicates f 1)))
     = [mkHyperedge [1; 2; 3] 7; mkHyperedge [1; 2; 3] 5; mkHyperedge [1; 2; 3] 3]
  /\ snd (forest_merge_duplicates f 0) = 2
  /\ count_total_nodes (fst (forest_merge_duplicates f 0)) = 3
  /\ map he (collect_all_nodes (fst (forest_merge_duplicates f 0)))
     = [mkHyperedge [1; 2; 3] (15 # 3); mkHyperedge [1; 2; 3] 3;
        mkHyperedge [1; 2; 3] 5].
Proof. repeat split. Qed.

(** ** Serialization round trip *)

Lemma Z_of_byte_of_Z (z : Z) : Z_of_byte (byte_of_Z z) = z mod 256.
Proof.
  unfold Z_of_byte, byte_of_Z.
  assert (Hr : 0 <= z mod 256 < 256) by (apply Z.mod_pos_bound; lia).
  destruct (Byte.of_N (Z.to_N (z mod 256))) as [b|] eqn:E.
  - apply Byte.to_of_N in E. rewrite E. lia.
  - apply Byte.of_N_None_iff in E. lia.
Qed.

Lemma le_bytes_length (n : nat) : forall x, length (le_bytes n x) = n.
Proof. induction n as [|n IH]; intros x; simpl; [|rewrite IH]; reflexivity. Qed.

Lemma le_value_le_bytes (n : nat) :
  forall x, le_value (le_bytes n x) = x mod 256 ^ Z.of_nat n.
Proof.
  induction n as [|n IH]; intros x.
  - simpl. now rewrite Z.mod_1_r.
  - cbn [le_bytes le_value]. rewrite Z_of_byte_of_Z, IH.
    rewrite Nat2Z.inj_succ, Z.pow_succ_r by lia.
    rewrite Z.rem_mul_r by lia. reflexivity.
Qed.

Lemma fread_app (bs rest : list Byte.byte) :
  fread (length bs) (bs ++ rest) = Some (bs, rest).
Proof.
  unfold fread.
  assert ((length bs <=? length (bs ++ rest))%nat = true) as ->
    by (apply Nat.leb_le; rewrite length_app; lia).
  rewrite firstn_app, Nat.sub_diag, firstn_all, skipn_app, Nat.sub_diag, skipn_all.
  simpl. rewrite app_nil_r. reflexivity.
Qed.

Lemma read_int_app (x : Z) (rest : list Byte.byte) :
  int32 x -> read_int (int_bytes x ++ rest) = Some (x, rest).
Proof.
  intros Hx. unfold read_int, int_bytes.
  pose proof (fread_app (le_bytes 4 x) rest) as H.
  rewrite le_bytes_length in H. rewrite H, le_value_le_bytes.
  f_equal. f_equal. unfold wrap32, int32 in *.
  change (256 ^ Z.of_nat 4) with (2 ^ 32).
  rewrite Zplus_mod_idemp_l. rewrite Z.mod_small; lia.
Qed.

Lemma read_double_app (w : Q) (rest : list Byte.byte) :
  representable w -> read_double (double_bytes w ++ rest) = Some (w, rest).
Proof.
  intros Hw. unfold read_double.
  pose proof (fread_app (double_bytes w) rest) as H.
  unfold double_bytes in H at 1. rewrite le_bytes_length in H.
  rewrite H, Hw. reflexivity.
Qed.

Lemma read_ints_app (vs : list Z) (rest : list Byte.byte) :
  Forall int32 vs ->
  read_ints (length vs) (flat_map int_bytes vs ++ rest) = Some (vs, rest).
Proof.
  induction 1 as [|v vs Hv _ IH]; [reflexivity|].
  cbn [length flat_map read_ints]. rewrite <- app_assoc.
  rewrite (read_int_app v _ Hv), IH. reflexivity.
Qed.

Lemma read_nodes_app (rd : list Byte.byte -> option (Node * list Byte.byte))
    (cs : list Node) :
  Forall (fun c => forall rest, rd (write_node c ++ rest) = Some (c, rest)) cs ->
  forall acc rest,
    read_nodes rd (length cs) acc (flat_map write_node cs ++ rest)
    = Some (acc ++ cs, rest).
Proof.
  induction 1 as [|c cs Hc _ IH]; intros acc rest.
  - simpl. rewrite app_nil_r. reflexivity.
  - cbn [length flat_map read_nodes]. rewrite <- app_assoc, Hc, IH.
    rewrite <- app_assoc. reflexivity.
Qed.

Lemma fold_max_ge (l : list nat) (x : nat) :
  In x l -> (x <= fold_right Nat.max 0 l)%nat.
Proof.
  induction l as [|y l IH]; intros Hin; [destruct Hin|].
  destruct Hin as [<-|Hin]; simpl; [lia|].
  specialize (IH Hin). lia.
Qed.

Lemma read_node_write_node (nd : Node) :
  Forall node_fits (subnodes nd) ->
  forall fuel rest,
    (height nd <= fuel)%nat ->
    read_node fuel (write_node nd ++ rest) = Some (nd, rest).
Proof.
  induction nd as [h cs IH] using Node_ind'. intros Hfit fuel rest Hfuel.
  cbn [subnodes] in Hfit. inversion Hfit as [|? ? Hnd Hsub]; subst.
  destruct Hnd as (Hnv & Hvs & Hw & Hnc). cbn [he children] in *.
  destruct fuel as [|fuel]; [cbn [height] in Hfuel; lia|].
  cbn [height] in Hfuel. cbn [write_node read_node].
  rewrite <- !app_assoc. rewrite (read_int_app _ _ Hnv).
  assert ((nverts h <? 0) = false) as -> by (apply Z.ltb_ge; unfold nverts; lia).
  unfold nverts. rewrite Nat2Z.id.
  rewrite (read_ints_app _ _ Hvs), (read_double_app _ _ Hw).
  unfold nchildren in Hnc. cbn [children] in Hnc.
  rewrite (read_int_app _ _ Hnc), Nat2Z.id.
  rewrite (read_nodes_app (read_node fuel) cs).
  - destruct h. reflexivity.
  - rewrite Forall_forall in *. intros c Hc rest'.
    apply (IH c Hc).
    + apply Forall_forall. intros x Hx.
      apply Hsub, in_flat_map. exists c. split; assumption.
    + assert (height c <= fold_right Nat.max 0 (map height cs))%nat
        by (apply fold_max_ge, in_map, Hc). lia.
Qed.

Lemma write_node_length (nd : Node) : (height nd <= length (write_node nd))%nat.
Proof.
  induction nd as [h cs IH] using Node_ind'.
  cbn [height write_node]. rewrite !length_app.
  unfold int_bytes at 1. rewrite le_bytes_length.
  assert (fold_right Nat.max 0 (map height cs) <= length (flat_map write_node cs))%nat.
  { induction IH as [|c cs Hc _ IHcs]; simpl; [lia|].
    rewrite length_app. lia. }
  lia.
Qed.

Lemma flat_map_write_length (f : Forest) (r : Node) :
  In r f -> (length (write_node r) <= length (flat_map write_node f))%nat.
Proof.
  induction f as [|x f IH]; intros Hin; [destruct Hin|].
  destruct Hin as [<-|Hin]; simpl; rewrite length_app; [lia|].
  specialize (IH Hin). lia.
Qed.

(** C8. Saving a forest and loading the bytes gives the forest back: the
    same nodes in the same pre-order positions, each with the same vertex
    sequence and weight, hence the same node count. *)
Theorem C8_serialization_roundtrip (f : Forest) :
  serializable f ->
  forest_load (forest_save f) = Some f
  /\ (forall f', forest_load (forest_save f) = Some f' ->
                 count_total_nodes f' = count_total_nodes f
                 /\ map he (collect_all_nodes f') = map he (collect_all_nodes f)).
Proof.
  intros [Hnr Hfit].
  assert (Hload : forest_load (forest_save f) = Some f).
  { unfold forest_load, forest_save.
    rewrite (read_int_app _ _ Hnr). unfold nroots. rewrite Nat2Z.id.
    pose proof (read_nodes_app
                  (read_node (length (int_bytes (Z.of_nat (length f))
                                      ++ flat_map write_node f))) f) as H.
    rewrite <- (app_nil_r (flat_map write_node f)) at 2.
    rewrite H; [reflexivity|].
    rewrite collect_all_nodes_eq in Hfit.
    rewrite Forall_forall in *. intros r Hr rest.
    apply read_node_write_node.
    - rewrite Forall_forall. intros x Hx. apply Hfit, in_flat_map.
      exists r. split; assumption.
    - pose proof (write_node_length r). pose proof (flat_map_write_length f r Hr).
      rewrite length_app. lia. }
  split; [exact Hload|].
  intros f' Hf'. rewrite Hload in Hf'. injection Hf' as <-. split; reflexivity.
Qed.

Lemma C8_serialization_roundtrip_witness :
  let f := insert_hyperedge
             (insert_hyperedge (insert_hyperedge forest_create [1; 2; 3] 1)
                               [1; 2] (1 # 2))
             [-7; 9] (-3 # 8) in
  forest_load (forest_save f) = Some f.
Proof.
  intros f. apply C8_serialization_roundtrip.
  split; [vm_compute; split; [discriminate | reflexivity]|].
  let l := eval vm_compute in (collect_all_nodes f) in
  change (Forall node_fits l).
  repeat (apply Forall_cons;
          [unfold node_fits, int32, nverts, nchildren; cbn [he children verts weight length];
           split; [lia|]; split; [repeat (apply Forall_cons; [lia|]); apply Forall_nil|];
           split; [reflexivity | lia] |]).
  apply Forall_nil.
Defined.

(** ** Insertion neither loses nor duplicates nodes *)

Lemma hes_app (l1 l2 : list Node) : hes (l1 ++ l2) = hes l1 ++ hes l2.
Proof. unfold hes. rewrite flat_map_app, map_app. reflexivity. Qed.

Lemma hes_node (h : Hyperedge) (cs : list Node) : hes [mkNode h cs] = h :: hes cs.
Proof. unfold hes. cbn [flat_map subnodes]. rewrite app_nil_r. reflexivity. Qed.

Lemma hes_cons (nd : Node) (l : list Node) : hes (nd :: l) = hes [nd] ++ hes l.
Proof. apply (hes_app [nd] l). Qed.

Lemma hes_add_child (n c : Node) :
  hes [node_add_child n c] = hes [n] ++ hes [c].
Proof.
  destruct n as [h cs]. unfold node_add_child. cbn [he children].
  rewrite !hes_node, hes_app. reflexivity.
Qed.

Lemma scan_children_keeps (ins : Node -> Node -> Z * Node * Node)
    (h : Hyperedge) (rest : list Node) :
  Forall (fun c => forall n, insert_keeps c n (ins c n)) rest ->
  forall before newn,
    let '(res, root', _) := scan_children ins h before rest newn in
    res = -1
    /\ Permutation (hes [root']) (h :: hes before ++ hes rest ++ hes [newn]).
Proof.
  induction 1 as [|c rest Hc _ IH]; intros before newn.
  - cbn [scan_children]. split; [reflexivity|].
    rewrite hes_node, hes_app. reflexivity.
  - cbn [scan_children]. specialize (Hc newn). unfold insert_keeps in Hc.
    destruct (ins c newn) as [[res c'] newn'].
    rewrite (hes_cons c rest).
    destruct Hc as [[-> Hp]|(Hres & -> & ->)].
    + cbn [Z.eqb Pos.eqb]. split; [reflexivity|].
      rewrite hes_node, hes_app, (hes_cons c' rest), Hp.
      constructor. apply Permutation_app_head.
      rewrite <- !app_assoc. apply Permutation_app_head, Permutation_app_comm.
    + destruct (res =? 1) eqn:E1; [|destruct (res =? -1) eqn:E2].
      * specialize (IH before (node_add_child newn c)).
        destruct (scan_children ins h before rest (node_add_child newn c))
          as [[res2 root2] newn2].
        destruct IH as [-> IH]. split; [reflexivity|].
        rewrite IH, hes_add_child. constructor. apply Permutation_app_head.
        rewrite (app_assoc (hes rest)), <- (app_assoc (hes [c])).
        apply Permutation_app_comm.
      * apply Z.eqb_eq in E2. contradiction.
      * specialize (IH (before ++ [c]) newn).
        destruct (scan_children ins h (before ++ [c]) rest newn)
          as [[res2 root2] newn2].
        destruct IH as [-> IH]. split; [reflexivity|].
        rewrite IH, hes_app, <- !app_assoc. reflexivity.
Qed.

Lemma insert_into_node_keeps (root : Node) :
  forall newn depth, insert_keeps root newn (insert_into_node root newn depth).
Proof.
  induction root as [h cs IH] using Node_ind'. intros newn depth.
  cbn [insert_into_node].
  destruct (weighted_cmp h (he newn) =? 1);
    [right; repeat split; discriminate|].
  destruct (weighted_cmp h (he newn) =? -1);
    [|right; repeat split; discriminate].
  destruct (is_subset (verts (he newn)) (verts h)); cbn [negb];
    [|right; repeat split; discriminate].
  pose proof (scan_children_keeps (fun c n => insert_into_node c n (depth + 1))
                h cs) as H.
  specialize (H ltac:(rewrite Forall_forall in *; intros c Hc n; apply (IH c Hc))
                [] newn).
  destruct (scan_children _ h [] cs newn) as [[res root'] newn'].
  destruct H as [-> H]. left. split; [reflexivity|].
  rewrite H, hes_node. reflexivity.
Qed.

Lemma forest_insert_scan_keeps (rest : list Node) :
  forall before newn,
    Permutation (hes (forest_insert_scan before rest newn))
                (hes before ++ hes rest ++ hes [newn]).
Proof.
  induction rest as [|r rest IH]; intros before newn; cbn [forest_insert_scan].
  - unfold forest_add_root. rewrite hes_app. reflexivity.
  - rewrite (hes_cons r rest).
    assert (Hsteal : Permutation
              (hes (forest_insert_scan before rest (node_add_child newn r)))
              (hes before ++ (hes [r] ++ hes rest) ++ hes [newn])).
    { rewrite IH, hes_add_child. apply Permutation_app_head.
      rewrite (app_assoc (hes rest)), <- (app_assoc (hes [r])).
      apply Permutation_app_comm. }
    assert (Hnext : Permutation
              (hes (forest_insert_scan (before ++ [r]) rest newn))
              (hes before ++ (hes [r] ++ hes rest) ++ hes [newn])).
    { rewrite IH, hes_app, <- !app_assoc. reflexivity. }
    destruct (weighted_cmp (he r) (he newn) =? 1); [exact Hsteal|].
    destruct (weighted_cmp (he r) (he newn) =? -1); [|exact Hnext].
    pose proof (insert_into_node_keeps r newn 1) as H. unfold insert_keeps in H.
    destruct (insert_into_node r newn 1) as [[res r'] newn'].
    destruct H as [[-> Hp]|(Hres & -> & ->)].
    + cbn [Z.eqb Pos.eqb]. rewrite hes_app, (hes_cons r' rest), Hp.
      apply Permutation_app_head.
      rewrite <- !app_assoc. apply Permutation_app_head, Permutation_app_comm.
    + destruct (res =? 1); [exact Hsteal|].
      destruct (res =? -1) eqn:E2; [|exact Hnext].
      apply Z.eqb_eq in E2. contradiction.
Qed.

Lemma forest_insert_node_keeps (f : Forest) (newn : Node) :
  Permutation (hes (forest_insert_node f newn)) (hes f ++ hes [newn]).
Proof. apply (forest_insert_scan_keeps f [] newn). Qed.

(** ** Bulk build against rebuild *)

Lemma forest_insert_batch_eq (edges : list Hyperedge) :
  forall f, forest_insert_batch f edges = insert_all (kept_edges edges) f.
Proof.
  unfold forest_insert_batch, insert_all, kept_edges.
  induction edges as [|e edges IH]; intros f; [reflexivity|].
  cbn [fold_left map filter]. rewrite IH.
  unfold insert_hyperedge, nonempty_edge, norm_edge at 2. cbn [verts].
  destruct (Z.of_nat (length (normalize_vertices (verts e))) =? 0); reflexivity.
Qed.

Lemma insert_all_keeps (hs : list Hyperedge) :
  forall f, Permutation (hes (insert_all hs f)) (hes f ++ hs).
Proof.
  unfold insert_all. induction hs as [|h hs IH]; intros f; cbn [fold_left].
  - rewrite app_nil_r. reflexivity.
  - rewrite IH, forest_insert_node_keeps, hes_node, <- app_assoc. reflexivity.
Qed.

Lemma qsort_map {A B : Type} (g : A -> B) (cmpA : A -> A -> Z) (cmpB : B -> B -> Z) :
  (forall a b, cmpA a b = cmpB (g a) (g b)) ->
  forall l, map g (qsort cmpA l) = qsort cmpB (map g l).
Proof.
  intros Hc. induction l as [|x l IH]; [reflexivity|].
  cbn [qsort fold_right map]. fold (qsort cmpA l). fold (qsort cmpB (map g l)).
  rewrite <- IH. generalize (qsort cmpA l). intros s.
  induction s as [|y s IHs]; [reflexivity|].
  cbn [qsort_insert map]. rewrite <- Hc.
  destruct (cmpA x y <=? 0); [reflexivity|].
  cbn [map]. rewrite IHs. reflexivity.
Qed.

Lemma fold_left_map {A B C : Type} (g : A -> B) (step : C -> B -> C) (l : list A) :
  forall c, fold_left (fun c a => step c (g a)) l c = fold_left step (map g l) c.
Proof. induction l as [|x l IH]; intros c; [reflexivity | apply IH]. Qed.

Lemma forest_rebalance_eq (f : Forest) :
  forest_rebalance f
  = insert_all (qsort (cmp_by_weight_desc weight) (hes f)) [].
Proof.
  unfold forest_rebalance, insert_all, hes.
  rewrite collect_all_nodes_eq.
  destruct (flat_map subnodes f) as [|n l] eqn:E.
  - destruct f as [|[h cs] f]; [reflexivity | discriminate].
  - cbn [length]. rewrite Nat2Z.inj_succ.
    assert ((Z.succ (Z.of_nat (length l)) =? 0) = false) as ->
      by (apply Z.eqb_neq; lia).
    rewrite <- (qsort_map he (cmp_by_weight_desc node_weight)
                  (cmp_by_weight_desc weight)) by reflexivity.
    apply (fold_left_map he (fun f h => forest_insert_node f (mkNode h []))).
Qed.

Lemma strongly_sorted_split {A : Type} (R : A -> A -> Prop) (s1 : list A) :
  forall x s2,
    StronglySorted R (s1 ++ x :: s2) ->
    StronglySorted R (s1 ++ s2)
    /\ Forall (fun y => R y x) s1 /\ Forall (R x) s2.
Proof.
  induction s1 as [|a s1 IH]; intros x s2 H; cbn [app] in *.
  - apply StronglySorted_inv in H. destruct H as [H1 H2].
    repeat split; [exact H1 | constructor | exact H2].
  - apply StronglySorted_inv in H. destruct H as [H1 H2].
    destruct (IH x s2 H1) as (I1 & I2 & I3).
    apply Forall_app in H2. destruct H2 as [F1 F2].
    inversion F2 as [|? ? Fx F2']; subst.
    repeat split; [|constructor; assumption | exact I3].
    constructor; [exact I1 | apply Forall_app; split; assumption].
Qed.

Lemma qsort_insert_at (x : Hyperedge) (s1 s2 : list Hyperedge) :
  Forall (fun y => heavier y x) s1 -> Forall (heavier x) s2 ->
  qsort_insert (cmp_by_weight_desc weight) x (s1 ++ s2) = s1 ++ x :: s2.
Proof.
  unfold heavier. intros H1 H2. induction H1 as [|y s1 Hy _ IH]; cbn [app].
  - destruct s2 as [|y s2]; [reflexivity|]. cbn [qsort_insert].
    inversion H2 as [|? ? Hy _]; subst. unfold cmp_by_weight_desc.
    rewrite (proj2 (Qgtb_true _ _) Hy). reflexivity.
  - cbn [qsort_insert]. unfold cmp_by_weight_desc at 1.
    assert (Qgtb (weight x) (weight y) = false) as ->
      by (apply Qgtb_false; lra).
    rewrite (proj2 (Qltb_true _ _) Hy). cbn [Z.leb Z.compare].
    rewrite IH. reflexivity.
Qed.

(** Sorting a list whose weights are pairwise distinct has one possible
    outcome. *)
Lemma qsort_strictly_sorted (l : list Hyperedge) :
  forall s, Permutation l s -> StronglySorted heavier s ->
            qsort (cmp_by_weight_desc weight) l = s.
Proof.
  induction l as [|x l IH]; intros s P S.
  - apply Permutation_nil in P. now subst.
  - assert (Hin : In x s) by (apply (Permutation_in _ P); left; reflexivity).
    apply in_split in Hin. destruct Hin as (s1 & s2 & ->).
    apply Permutation_cons_app_inv in P.
    destruct (strongly_sorted_split heavier s1 x s2 S) as (S' & F1 & F2).
    cbn [qsort fold_right]. fold (qsort (cmp_by_weight_desc weight) l).
    rewrite (IH _ P S'). apply qsort_insert_at; assumption.
Qed.

Lemma Permutation_filter {A : Type} (p : A -> bool) (l l' : list A) :
  Permutation l l' -> Permutation (filter p l) (filter p l').
Proof.
  induction 1 as [|x l l' _ IH|x y l|l l' l'' _ IH1 _ IH2]; cbn [filter].
  - constructor.
  - destruct (p x); [constructor|]; exact IH.
  - destruct (p x), (p y); try reflexivity. apply perm_swap.
  - exact (perm_trans IH1 IH2).
Qed.

Lemma kept_edges_sorted (s : list Hyperedge) :
  StronglySorted heavier s -> StronglySorted heavier (kept_edges s).
Proof.
  unfold kept_edges. induction 1 as [|a s _ IH Ha]; cbn [map filter]; [constructor|].
  destruct (nonempty_edge (norm_edge a)); [|exact IH].
  constructor; [exact IH|].
  apply Forall_forall. intros y Hy. apply filter_In in Hy. destruct Hy as [Hy _].
  apply in_map_iff in Hy. destruct Hy as (e & <- & He).
  rewrite Forall_forall in Ha. exact (Ha e He).
Qed.




(** The comparator call of [forest_build_bulk] does not order by weight:
    here the lighter pair is inserted first and the heavier one then takes
    it as a child, although neither set contains the other. *)
Lemma forest_build_bulk_not_by_weight :
  let light := mkHyperedge [1; 2; 3; 4; 5; 7] 1 in
  let heavy := mkHyperedge [1; 2; 3; 4; 5; 6] 2 in
  qsort (cmp_by_weight_desc cast_weight) [heavy; light] = [light; heavy]
  /\ forest_build_bulk [heavy; light] = Some [mkNode heavy [mkNode light []]]
  /\ forest_rebalance (forest_insert_batch forest_create [heavy; light])
     = [mkNode heavy []; mkNode light []].
Proof. repeat split. Qed.

Lemma qsort_insert_perm {A : Type} (cmp : A -> A -> Z) (x : A) (l : list A) :
  Permutation (qsort_insert cmp x l) (x :: l).
Proof.
  induction l as [|y l IH]; cbn [qsort_insert]; [reflexivity|].
  destruct (cmp x y <=? 0); [reflexivity|].
  rewrite IH. apply perm_swap.
Qed.

Lemma qsort_perm {A : Type} (cmp : A -> A -> Z) (l : list A) :
  Permutation (qsort cmp l) l.
Proof.
  induction l as [|x l IH]; [reflexivity|].
  cbn [qsort fold_right]. fold (qsort cmp l).
  rewrite qsort_insert_perm, IH. reflexivity.
Qed.

(** Whenever the order in which [forest_build_bulk] inserts the pairs is of
    strictly descending weight, it builds the rebalanced forest. *)
Lemma forest_build_bulk_sorted (edges : list Hyperedge) (f : Forest) :
  forest_build_bulk edges = Some f ->
  StronglySorted heavier (qsort (cmp_by_weight_desc cast_weight) edges) ->
  f = forest_rebalance (forest_insert_batch forest_create edges).
Proof.
  unfold forest_build_bulk. intros Hf S.
  destruct ((Z.of_nat (length edges) <=? 1) || forallb cast_defined edges);
    [|discriminate].
  injection Hf as <-.
  rewrite forest_rebalance_eq, !forest_insert_batch_eq.
  f_equal. symmetry. apply qsort_strictly_sorted; [|apply kept_edges_sorted, S].
  rewrite insert_all_keeps. cbn [hes flat_map map app].
  unfold kept_edges. apply Permutation_filter, Permutation_map, Permutation_sym.
  apply qsort_perm.
Qed.

(** ** Merging never removes a node *)

Lemma count_nodes_subnodes (nd : Node) :
  count_nodes_recursive nd = Z.of_nat (length (subnodes nd)).
Proof.
  induction nd as [h cs IH] using Node_ind'.
  rewrite count_nodes_recursive_eq. cbn [subnodes length].
  rewrite Nat2Z.inj_succ. unfold nodes_in.
  induction IH as [|c cs Hc _ IHcs]; [reflexivity|].
  cbn [map flat_map]. unfold Zsum in *. cbn [fold_right].
  rewrite length_app, Nat2Z.inj_add, Hc. lia.
Qed.

Lemma count_total_nodes_hes (f : Forest) :
  count_total_nodes f = Z.of_nat (length (hes f)).
Proof.
  rewrite count_total_nodes_eq. unfold nodes_in, hes. rewrite length_map.
  induction f as [|r f IH]; [reflexivity|].
  cbn [map flat_map]. unfold Zsum in *. cbn [fold_right].
  rewrite length_app, Nat2Z.inj_add, IH, count_nodes_subnodes. reflexivity.
Qed.

Lemma forest_rebalance_count (f : Forest) :
  count_total_nodes (forest_rebalance f) = count_total_nodes f.
Proof.
  rewrite !count_total_nodes_hes, forest_rebalance_eq. f_equal.
  apply Permutation_length.
  rewrite insert_all_keeps. cbn [hes flat_map map app]. apply qsort_perm.
Qed.

Lemma store_children_count (st : Node -> list Hyperedge -> Node * list Hyperedge)
    (cs : list Node) :
  Forall (fun c => forall hs, count_nodes_recursive (fst (st c hs))
                              = count_nodes_recursive c) cs ->
  forall hs, nodes_in (fst (store_children st cs hs)) = nodes_in cs.
Proof.
  induction 1 as [|c cs Hc _ IH]; intros hs; [reflexivity|].
  cbn [store_children]. specialize (Hc hs).
  destruct (st c hs) as [c' hs']. specialize (IH hs').
  destruct (store_children st cs hs') as [cs'' hs'']. cbn [fst] in *.
  rewrite !nodes_in_cons. lia.
Qed.

Lemma store_node_count (nd : Node) :
  forall hs, count_nodes_recursive (fst (store_node nd hs))
             = count_nodes_recursive nd.
Proof.
  induction nd as [h cs IH] using Node_ind'. intros [|h' hs]; [reflexivity|].
  cbn [store_node].
  pose proof (store_children_count store_node cs IH hs) as H.
  destruct (store_children store_node cs hs) as [cs' rest]. cbn [fst] in *.
  rewrite !count_nodes_recursive_eq. lia.
Qed.

(** Whatever the forest and the policy, [forest_merge_duplicates] leaves the
    number of nodes as it was. *)
Lemma forest_merge_duplicates_keeps_count (f : Forest) (keep_max : Z) :
  count_total_nodes (fst (forest_merge_duplicates f keep_max))
  = count_total_nodes f.
Proof.
  unfold forest_merge_duplicates.
  destruct (Z.of_nat (length (collect_all_nodes f)) <=? 1); [reflexivity|].
  destruct (merge_outer keep_max (map he (collect_all_nodes f))
              (repeat false (length (collect_all_nodes f))) 0) as [hs' merged].
  assert (Hstore : count_total_nodes (store_forest f hs') = count_total_nodes f).
  { rewrite !count_total_nodes_eq. unfold store_forest.
    apply store_children_count, Forall_forall. intros c _.
    apply store_node_count. }
  destruct (merged >? 0); cbn [fst];
    [rewrite forest_rebalance_count|]; exact Hstore.
Qed.

(* ================================================================== *)
(** * Further properties of the code *)

(** ** The comparator *)

(** Swapping the arguments of [weighted_cmp] negates the result: the two
    hyperedges always agree on who dominates. *)
Theorem weighted_cmp_antisymmetric (A B : Hyperedge) :
  weighted_cmp B A = - weighted_cmp A B.
Proof.
  unfold weighted_cmp.
  destruct (Qgtb (weight A) (weight B + EPSILON)) eqn:E1;
    destruct (Qgtb (weight B) (weight A + EPSILON)) eqn:E2; try reflexivity.
  { apply Qgtb_true in E1, E2. unfold EPSILON in *. lra. }
  destruct (is_subset (verts A) (verts B)), (is_subset (verts B) (verts A));
    cbn [andb negb]; try reflexivity;
    destruct (nverts A >? nverts B) eqn:G1;
    destruct (nverts B >? nverts A) eqn:G2; try reflexivity;
    rewrite Z.gtb_ltb in G1, G2; apply Z.ltb_lt in G1, G2; lia.
Qed.

Lemma is_subset_decides_inclusion_aux (A B : list Z) :
  strictly_increasing A = true ->
  strictly_increasing B = true ->
  (is_subset A B = true <-> forall x, In x A -> In x B).
Proof.
  intros HA HB. apply is_subset_incl; apply strictly_increasing_sorted; assumption.
Qed.

(** On canonical vertex sequences the merge walk of [is_subset] answers
    exactly the question of set inclusion. *)
Theorem is_subset_decides_inclusion (A B : list Z) :
  strictly_increasing A = true ->
  strictly_increasing B = true ->
  (is_subset A B = true <-> forall x, In x A -> In x B).
Proof.
  intros HA HB.
  apply strictly_increasing_sorted in HA.
  apply strictly_increasing_sorted in HB.
  exact (is_subset_incl B A HA HB).
Qed.

Lemma is_subset_decides_inclusion_witness :
  is_subset [2; 5] [1; 2; 3; 5] = true <-> forall x, In x [2; 5] -> In x [1; 2; 3; 5].
Proof. apply is_subset_decides_inclusion; reflexivity. Defined.

(** ** The normalizer *)

Lemma cmp_int_small (a b : Z) :
  small_vertex a -> small_vertex b -> cmp_int a b = a - b.
Proof.
  unfold small_vertex, cmp_int, wrap32. intros Ha Hb.
  rewrite Z.mod_small; lia.
Qed.

Lemma qsort_insert_sorted (x : Z) (l : list Z) :
  small_vertex x -> Forall small_vertex l ->
  StronglySorted Z.le l -> StronglySorted Z.le (qsort_insert cmp_int x l).
Proof.
  intros Hx Hl S. induction S as [|y l S IH Hy]; cbn [qsort_insert].
  - repeat constructor.
  - inversion Hl as [|? ? Hsy Hl']; subst.
    rewrite (cmp_int_small x y Hx Hsy).
    destruct (Z.leb_spec (x - y) 0) as [L|L].
    + constructor; [constructor; assumption|].
      constructor; [lia|]. rewrite Forall_forall in *. intros z Hz.
      specialize (Hy z Hz). lia.
    + constructor; [apply IH, Hl'|].
      apply (Permutation_Forall (Permutation_sym (qsort_insert_perm cmp_int x l))).
      constructor; [lia | exact Hy].
Qed.

Lemma qsort_sorted (l : list Z) :
  Forall small_vertex l -> StronglySorted Z.le (qsort cmp_int l).
Proof.
  induction 1 as [|x l Hx Hl IH]; [constructor|].
  cbn [qsort fold_right]. fold (qsort cmp_int l).
  apply qsort_insert_sorted; [exact Hx | | exact IH].
  apply (Permutation_Forall (Permutation_sym (qsort_perm cmp_int l))), Hl.
Qed.

Lemma dedup_from_spec (rest : list Z) :
  forall last,
    StronglySorted Z.le (last :: rest) ->
    strictly_increasing (last :: dedup_from last rest) = true
    /\ forall x, In x (last :: dedup_from last rest) <-> In x (last :: rest).
Proof.
  induction rest as [|y rest IH]; intros last S.
  - split; [reflexivity | reflexivity].
  - apply StronglySorted_inv in S. destruct S as [S Hl].
    inversion Hl as [|? ? Hly Hl']; subst.
    cbn [dedup_from]. destruct (Z.eqb_spec y last) as [->|Hne].
    + destruct (IH last S) as [I1 I2]. split; [exact I1|].
      intros x. rewrite I2. cbn [In]. tauto.
    + destruct (IH y S) as [I1 I2]. split.
      * change (strictly_increasing (last :: y :: dedup_from y rest))
          with ((last <? y) && strictly_increasing (y :: dedup_from y rest)).
        rewrite I1, andb_true_r. apply Z.ltb_lt. lia.
      * intros x. change (In x (last :: y :: dedup_from y rest))
          with (last = x \/ In x (y :: dedup_from y rest)).
        rewrite I2. cbn [In]. tauto.
Qed.

Lemma normalize_vertices_sorted (vs : list Z) :
  Forall small_vertex vs -> strictly_increasing (normalize_vertices vs) = true.
Proof.
  intros Hs. destruct vs as [|v vs]; [reflexivity|].
  unfold normalize_vertices.
  pose proof (qsort_sorted (v :: vs) Hs) as S.
  pose proof (qsort_perm cmp_int (v :: vs)) as P.
  destruct (qsort cmp_int (v :: vs)) as [|x rest].
  - apply Permutation_nil in P. discriminate.
  - exact (proj1 (dedup_from_spec rest x S)).
Qed.

Lemma normalize_vertices_In (vs : list Z) :
  Forall small_vertex vs ->
  forall x, In x (normalize_vertices vs) <-> In x vs.
Proof.
  intros Hs. destruct vs as [|v vs]; [reflexivity|].
  unfold normalize_vertices.
  pose proof (qsort_sorted (v :: vs) Hs) as S.
  pose proof (qsort_perm cmp_int (v :: vs)) as P.
  destruct (qsort cmp_int (v :: vs)) as [|x rest].
  - apply Permutation_nil in P. discriminate.
  - destruct (dedup_from_spec rest x S) as [_ D2].
    intros y. rewrite D2. split; intros Hy.
    + exact (Permutation_in _ P Hy).
    + exact (Permutation_in _ (Permutation_sym P) Hy).
Qed.

(** For vertices in a range where [cmp_int] cannot overflow,
    [normalize_vertices] returns a strictly increasing sequence with exactly
    the vertices of its input. *)
Theorem normalize_vertices_canonical (vs : list Z) :
  Forall small_vertex vs ->
  strictly_increasing (normalize_vertices vs) = true
  /\ forall x, In x (normalize_vertices vs) <-> In x vs.
Proof.
  intros Hs. split.
  - apply normalize_vertices_sorted, Hs.
  - intros x. apply normalize_vertices_In, Hs.
Qed.

Lemma normalize_vertices_canonical_witness :
  strictly_increasing (normalize_vertices [3; 1; 2; 1; 3; 2]) = true
  /\ forall x, In x (normalize_vertices [3; 1; 2; 1; 3; 2]) <-> In x [3; 1; 2; 1; 3; 2].
Proof.
  apply normalize_vertices_canonical.
  repeat constructor; unfold small_vertex; lia.
Defined.

Lemma strictly_increasing_tail (x : Z) (l : list Z) :
  strictly_increasing (x :: l) = true -> strictly_increasing l = true.
Proof.
  destruct l as [|y l]; [reflexivity|].
  cbn [strictly_increasing]. intros H. apply andb_true_iff in H. apply H.
Qed.

Lemma qsort_canonical (l : list Z) :
  Forall small_vertex l -> strictly_increasing l = true -> qsort cmp_int l = l.
Proof.
  induction 1 as [|x l Hx Hl IH]; intros S; [reflexivity|].
  cbn [qsort fold_right]. fold (qsort cmp_int l).
  rewrite (IH (strictly_increasing_tail x l S)).
  destruct l as [|y l]; [reflexivity|].
  cbn [qsort_insert]. inversion Hl as [|? ? Hy _]; subst.
  rewrite (cmp_int_small x y Hx Hy).
  cbn [strictly_increasing] in S. apply andb_true_iff in S. destruct S as [L _].
  apply Z.ltb_lt in L.
  destruct (Z.leb_spec (x - y) 0); [reflexivity | lia].
Qed.

Lemma dedup_from_canonical (rest : list Z) :
  forall last, strictly_increasing (last :: rest) = true ->
               dedup_from last rest = rest.
Proof.
  induction rest as [|y rest IH]; intros last S; [reflexivity|].
  cbn [dedup_from].
  pose proof (strictly_increasing_tail last (y :: rest) S) as S'.
  cbn [strictly_increasing] in S. apply andb_true_iff in S. destruct S as [L _].
  apply Z.ltb_lt in L.
  destruct (Z.eqb_spec y last); [lia|]. rewrite (IH y S'). reflexivity.
Qed.

(** A canonical sequence passes through [normalize_vertices] unchanged, so
    normalizing twice is normalizing once. *)
Theorem normalize_vertices_idempotent (vs : list Z) :
  Forall small_vertex vs ->
  (strictly_increasing vs = true -> normalize_vertices vs = vs)
  /\ normalize_vertices (normalize_vertices vs) = normalize_vertices vs.
Proof.
  assert (Hfix : forall l, Forall small_vertex l ->
                           strictly_increasing l = true ->
                           normalize_vertices l = l).
  { intros l Hl S. destruct l as [|x l]; [reflexivity|].
    unfold normalize_vertices. rewrite (qsort_canonical _ Hl S).
    rewrite (dedup_from_canonical l x S). reflexivity. }
  intros Hs. split; [apply Hfix, Hs|].
  pose proof (normalize_vertices_sorted vs Hs) as C1.
  pose proof (normalize_vertices_In vs Hs) as C2.
  apply Hfix; [|exact C1].
  rewrite Forall_forall in *. intros x Hx. apply Hs, C2, Hx.
Qed.

Lemma normalize_vertices_idempotent_witness :
  normalize_vertices (normalize_vertices [3; 1; 2; 1; 3; 2])
  = normalize_vertices [3; 1; 2; 1; 3; 2].
Proof.
  apply normalize_vertices_idempotent.
  repeat constructor; unfold small_vertex; lia.
Defined.

(** ** Insertion conserves nodes *)

Lemma normalize_vertices_length (vs : list Z) :
  vs <> [] -> (Z.of_nat (length (normalize_vertices vs)) =? 0) = false.
Proof.
  intros Hne. apply Z.eqb_neq. intros H.
  assert (Hn : normalize_vertices vs = [])
    by (destruct (normalize_vertices vs); [reflexivity | discriminate]).
  apply (proj1 (normalize_vertices_nil_iff vs)) in Hn. contradiction.
Qed.

(** Inserting a non-empty vertex list adds exactly one node, carrying the
    normalized list and the given weight; every hyperedge that was in the
    forest is still there, once. *)
Theorem insert_hyperedge_adds_one_node (f : Forest) (vs : list Z) (w : Q) :
  vs <> [] ->
  count_total_nodes (insert_hyperedge f vs w) = count_total_nodes f + 1
  /\ Permutation (hes (insert_hyperedge f vs w))
                 (mkHyperedge (normalize_vertices vs) w :: hes f).
Proof.
  intros Hne. unfold insert_hyperedge.
  rewrite (normalize_vertices_length vs Hne).
  assert (P : Permutation
                (hes (forest_insert_node f (node_create (normalize_vertices vs) w)))
                (mkHyperedge (normalize_vertices vs) w :: hes f)).
  { rewrite forest_insert_node_keeps. unfold node_create. rewrite hes_node.
    symmetry. apply Permutation_cons_append. }
  split; [|exact P].
  rewrite !count_total_nodes_hes, (Permutation_length P). cbn [length]. lia.
Qed.

Lemma insert_hyperedge_adds_one_node_witness :
  count_total_nodes (insert_hyperedge [mkNode (mkHyperedge [1; 2] 1) []] [4; 3] 2)
  = count_total_nodes [mkNode (mkHyperedge [1; 2] 1) []] + 1.
Proof. apply insert_hyperedge_adds_one_node. discriminate. Defined.

Lemma kept_edges_has_vertices (edges : list Hyperedge) :
  kept_edges edges = map norm_edge (filter has_vertices edges).
Proof.
  unfold kept_edges. induction edges as [|e edges IH]; [reflexivity|].
  cbn [map filter]. rewrite IH.
  unfold nonempty_edge, norm_edge at 1, has_vertices. cbn [verts].
  destruct (verts e) as [|v vs] eqn:E; [reflexivity|].
  rewrite normalize_vertices_length by discriminate. reflexivity.
Qed.

Lemma forest_insert_batch_hes (edges : list Hyperedge) :
  Permutation (hes (forest_insert_batch forest_create edges))
              (map norm_edge (filter has_vertices edges)).
Proof.
  rewrite forest_insert_batch_eq, insert_all_keeps, kept_edges_has_vertices.
  reflexivity.
Qed.

(** A batch of insertions into the empty forest creates one node for each
    input pair that has a vertex, and nothing else: the node count is the
    number of such pairs and the stored hyperedges are their normalized
    forms. *)
Theorem forest_insert_batch_conserves (edges : list Hyperedge) :
  count_total_nodes (forest_insert_batch forest_create edges)
  = count_if has_vertices edges
  /\ Permutation (hes (forest_insert_batch forest_create edges))
                 (map norm_edge (filter has_vertices edges)).
Proof.
  pose proof (forest_insert_batch_hes edges) as P.
  split; [|exact P].
  rewrite count_total_nodes_hes, (Permutation_length P), length_map.
  reflexivity.
Qed.

(** Every node of a forest built by insertions carries a canonical vertex
    sequence, as long as the input vertices stay in the range where
    [cmp_int] cannot overflow. *)
Theorem inserted_forest_canonical (edges : list Hyperedge) :
  Forall (fun e => Forall small_vertex (verts e)) edges ->
  forall nd, In nd (collect_all_nodes (forest_insert_batch forest_create edges)) ->
             strictly_increasing (verts (he nd)) = true.
Proof.
  intros Hs nd Hnd.
  pose proof (forest_insert_batch_hes edges) as P.
  assert (Hin : In (he nd) (hes (forest_insert_batch forest_create edges))).
  { unfold hes. rewrite <- collect_all_nodes_eq. apply in_map, Hnd. }
  apply (Permutation_in _ P) in Hin. apply in_map_iff in Hin.
  destruct Hin as (e & <- & He). apply filter_In in He. destruct He as [He _].
  rewrite Forall_forall in Hs.
  apply (normalize_vertices_sorted (verts e) (Hs e He)).
Qed.

Lemma inserted_forest_canonical_witness :
  Forall (fun nd => strictly_increasing (verts (he nd)) = true)
         (collect_all_nodes
            (forest_insert_batch forest_create
               [mkHyperedge [3; 1; 3] 1; mkHyperedge [2; 1] 2])).
Proof.
  apply Forall_forall. apply inserted_forest_canonical.
  repeat constructor; unfold small_vertex; lia.
Defined.

(** ** Rebalance *)

Lemma insert_all_wm (hs : list Hyperedge) :
  forall f, verify_forest f = true -> verify_forest (insert_all hs f) = true.
Proof.
  unfold insert_all. induction hs as [|h hs IH]; intros f Hf; [exact Hf|].
  cbn [fold_left]. apply IH, forest_insert_node_wm; [exact Hf | reflexivity].
Qed.

(** Whatever forest it is given, [forest_rebalance] returns a forest with
    the same hyperedges, each once, that satisfies the weight-monotonicity
    check. *)
Theorem forest_rebalance_rebuilds (f : Forest) :
  Permutation (hes (forest_rebalance f)) (hes f)
  /\ count_total_nodes (forest_rebalance f) = count_total_nodes f
  /\ verify_forest (forest_rebalance f) = true.
Proof.
  assert (P : Permutation (hes (forest_rebalance f)) (hes f)).
  { rewrite forest_rebalance_eq, insert_all_keeps. cbn [hes flat_map map app].
    apply qsort_perm. }
  split; [exact P|]. split.
  - rewrite !count_total_nodes_hes, (Permutation_length P). reflexivity.
  - rewrite forest_rebalance_eq. apply insert_all_wm. reflexivity.
Qed.

(** When the weights are pairwise distinct the rebalanced forest depends
    only on which hyperedges the forest holds, not on its shape; in
    particular rebalancing twice changes nothing more. *)
Theorem forest_rebalance_canonical (f g : Forest) (s : list Hyperedge) :
  StronglySorted heavier s ->
  Permutation s (hes f) ->
  Permutation (hes f) (hes g) ->
  forest_rebalance g = forest_rebalance f
  /\ forest_rebalance (forest_rebalance f) = forest_rebalance f.
Proof.
  intros S Pf Pg.
  assert (Hf : forest_rebalance f = insert_all s []).
  { rewrite forest_rebalance_eq. f_equal.
    apply qsort_strictly_sorted; [symmetry; exact Pf | exact S]. }
  assert (Hg : forest_rebalance g = insert_all s []).
  { rewrite forest_rebalance_eq. f_equal.
    apply qsort_strictly_sorted; [|exact S].
    symmetry. exact (perm_trans Pf Pg). }
  split; [congruence|].
  rewrite Hf at 2. rewrite forest_rebalance_eq. f_equal.
  apply qsort_strictly_sorted; [|exact S].
  rewrite Hf, insert_all_keeps. reflexivity.
Qed.

Lemma forest_rebalance_canonical_witness :
  let a := mkHyperedge [1; 2; 3] 3 in
  let b := mkHyperedge [1; 2] 2 in
  let c := mkHyperedge [4] 1 in
  forest_rebalance [mkNode c [mkNode a []]; mkNode b []]
  = forest_rebalance [mkNode b [mkNode c []; mkNode a []]].
Proof.
  intros a b c.
  apply (forest_rebalance_canonical [mkNode b [mkNode c []; mkNode a []]]
           [mkNode c [mkNode a []]; mkNode b []] [a; b; c]).
  - unfold heavier. repeat constructor.
  - apply (perm_trans (l' := [b; a; c])); [apply perm_swap|].
    apply perm_skip, perm_swap.
  - apply (perm_trans (l' := [c; b; a])); [apply perm_swap|].
    apply perm_skip, perm_swap.
Defined.

(** ** Merge and optimize *)

Lemma merge_inner_flags (keep_max : Z) (vi : list Z) (hs : list Hyperedge) :
  forall ps nw dc mc,
    length ps = length hs ->
    length (snd (merge_inner keep_max vi hs ps nw dc mc)) = length hs.
Proof.
  induction hs as [|h hs IH]; intros [|p ps] nw dc mc Hl; try discriminate;
    [reflexivity|].
  cbn [merge_inner]. injection Hl as Hl.
  destruct p; [|destruct (vertices_equal vi (verts h))];
    match goal with
    | |- context [merge_inner keep_max vi hs ps ?a ?b ?c] =>
        specialize (IH ps a b c Hl);
        destruct (merge_inner keep_max vi hs ps a b c) as [[[nw' dc'] mc'] ps']
    end; cbn [snd length] in *; congruence.
Qed.

Lemma merge_outer_verts (keep_max : Z) (hs : list Hyperedge) :
  forall ps mc,
    length ps = length hs ->
    map verts (fst (merge_outer keep_max hs ps mc)) = map verts hs.
Proof.
  induction hs as [|h hs IH]; intros [|p ps] mc Hl; try discriminate;
    [reflexivity|].
  cbn [merge_outer]. injection Hl as Hl. destruct p.
  - specialize (IH ps mc Hl).
    destruct (merge_outer keep_max hs ps mc) as [out mc'].
    cbn [fst map] in *. congruence.
  - pose proof (merge_inner_flags keep_max (verts h) hs ps (weight h) 1 mc Hl) as Hf.
    destruct (merge_inner keep_max (verts h) hs ps (weight h) 1 mc)
      as [[[nw dc] mc1] ps1]. cbn [snd] in Hf.
    specialize (IH ps1 mc1 Hf).
    destruct (merge_outer keep_max hs ps1 mc1) as [out mc2].
    cbn [fst map verts] in *. congruence.
Qed.

Lemma merge_outer_length (keep_max : Z) (hs : list Hyperedge) (ps : list bool) (mc : Z) :
  length ps = length hs ->
  length (fst (merge_outer keep_max hs ps mc)) = length hs.
Proof.
  intros Hl. rewrite <- (length_map verts), merge_outer_verts, length_map by exact Hl.
  reflexivity.
Qed.

(** Writing a list of hyperedges into a subtree consumes one per node and
    leaves them there in pre-order. *)
Lemma store_children_hes (st : Node -> list Hyperedge -> Node * list Hyperedge)
    (cs : list Node) :
  Forall (fun c => forall hs1 hs2, length hs1 = length (subnodes c) ->
                     st c (hs1 ++ hs2) = (fst (st c (hs1 ++ hs2)), hs2)
                     /\ map he (subnodes (fst (st c (hs1 ++ hs2)))) = hs1) cs ->
  forall hs1 hs2,
    length hs1 = length (flat_map subnodes cs) ->
    snd (store_children st cs (hs1 ++ hs2)) = hs2
    /\ hes (fst (store_children st cs (hs1 ++ hs2))) = hs1.
Proof.
  induction 1 as [|c cs Hc _ IH]; intros hs1 hs2 Hl.
  - destruct hs1; [split; reflexivity | discriminate].
  - cbn [flat_map] in Hl. rewrite length_app in Hl.
    assert (Hsplit : hs1 = firstn (length (subnodes c)) hs1
                           ++ skipn (length (subnodes c)) hs1)
      by (symmetry; apply firstn_skipn).
    set (a := firstn (length (subnodes c)) hs1) in *.
    set (b := skipn (length (subnodes c)) hs1) in *.
    assert (La : length a = length (subnodes c))
      by (unfold a; rewrite length_firstn; lia).
    assert (Lb : length b = length (flat_map subnodes cs))
      by (unfold b; rewrite length_skipn; lia).
    rewrite Hsplit, <- app_assoc. cbn [store_children].
    destruct (Hc a (b ++ hs2) La) as [E1 E2]. rewrite E1.
    destruct (IH b hs2 Lb) as [I1 I2].
    destruct (store_children st cs (b ++ hs2)) as [cs' rest].
    cbn [fst snd] in *. split; [exact I1|].
    rewrite hes_cons, I2. unfold hes. cbn [flat_map]. rewrite app_nil_r, E2.
    reflexivity.
Qed.

Lemma store_node_hes (nd : Node) :
  forall hs1 hs2,
    length hs1 = length (subnodes nd) ->
    store_node nd (hs1 ++ hs2) = (fst (store_node nd (hs1 ++ hs2)), hs2)
    /\ map he (subnodes (fst (store_node nd (hs1 ++ hs2)))) = hs1.
Proof.
  induction nd as [h cs IH] using Node_ind'. intros hs1 hs2 Hl.
  cbn [subnodes length] in Hl. destruct hs1 as [|h1 hs1]; [discriminate|].
  injection Hl as Hl. cbn [app store_node].
  destruct (store_children_hes store_node cs IH hs1 hs2 Hl) as [S1 S2].
  destruct (store_children store_node cs (hs1 ++ hs2)) as [cs' rest].
  cbn [fst snd] in *. subst rest. split; [reflexivity|].
  cbn [subnodes map he]. f_equal. exact S2.
Qed.

Lemma store_forest_hes (f : Forest) (hs : list Hyperedge) :
  length hs = length (hes f) -> hes (store_forest f hs) = hs.
Proof.
  intros Hl. unfold store_forest.
  assert (Hc : Forall (fun c => forall hs1 hs2, length hs1 = length (subnodes c) ->
                 store_node c (hs1 ++ hs2) = (fst (store_node c (hs1 ++ hs2)), hs2)
                 /\ map he (subnodes (fst (store_node c (hs1 ++ hs2)))) = hs1) f)
    by (apply Forall_forall; intros c _; apply store_node_hes).
  assert (Hn : length hs = length (flat_map subnodes f))
    by (rewrite Hl; unfold hes; apply length_map).
  destruct (store_children_hes store_node f Hc hs [] Hn) as [_ H].
  rewrite app_nil_r in H. exact H.
Qed.

(** [forest_merge_duplicates] changes weights only: under either policy
    the forest afterwards holds the same vertex sets as before, each as
    often as before. *)
Theorem forest_merge_duplicates_keeps_vertex_sets (f : Forest) (keep_max : Z) :
  Permutation (map verts (hes (fst (forest_merge_duplicates f keep_max))))
              (map verts (hes f)).
Proof.
  unfold forest_merge_duplicates.
  destruct (Z.of_nat (length (collect_all_nodes f)) <=? 1); [reflexivity|].
  assert (Hl : length (repeat false (length (collect_all_nodes f)))
               = length (map he (collect_all_nodes f)))
    by (rewrite repeat_length, length_map; reflexivity).
  pose proof (merge_outer_verts keep_max _ _ 0 Hl) as Hv.
  pose proof (merge_outer_length keep_max _ _ 0 Hl) as Hn.
  destruct (merge_outer keep_max (map he (collect_all_nodes f))
              (repeat false (length (collect_all_nodes f))) 0) as [hs' merged].
  cbn [fst] in *.
  assert (Hstore : map verts (hes (store_forest f hs')) = map verts (hes f)).
  { rewrite store_forest_hes.
    - rewrite Hv. unfold hes. rewrite collect_all_nodes_eq. reflexivity.
    - rewrite Hn. unfold hes. rewrite collect_all_nodes_eq. reflexivity. }
  destruct (merged >? 0); cbn [fst]; [|rewrite Hstore; reflexivity].
  rewrite <- Hstore. apply Permutation_map.
  rewrite forest_rebalance_eq, insert_all_keeps. cbn [hes flat_map map app].
  apply qsort_perm.
Qed.

(** [forest_optimize] returns a forest with as many nodes as it was given,
    and one that passes the weight-monotonicity check whatever the input
    looked like. *)
Theorem forest_optimize_result (f : Forest) :
  count_total_nodes (forest_optimize f) = count_total_nodes f
  /\ verify_forest (forest_optimize f) = true.
Proof.
  unfold forest_optimize. split.
  - rewrite forest_rebalance_count. apply forest_merge_duplicates_keeps_count.
  - rewrite forest_rebalance_eq. apply insert_all_wm. reflexivity.
Qed.

Lemma vertices_equal_true (a b : list Z) : vertices_equal a b = true -> a = b.
Proof.
  unfold vertices_equal.
  destruct (Z.of_nat (length a) =? Z.of_nat (length b)) eqn:E; [|discriminate].
  apply Z.eqb_eq in E. apply Nat2Z.inj in E. cbn [negb].
  revert b E. induction a as [|x a IH]; intros [|y b] E; try discriminate;
    [reflexivity|].
  destruct (Z.eqb_spec x y) as [->|]; cbn [negb]; [|discriminate].
  intros H. f_equal. apply IH; [now injection E | exact H].
Qed.

Lemma merge_inner_no_match (keep_max : Z) (vi : list Z) (hs : list Hyperedge) :
  ~ In vi (map verts hs) ->
  forall nw dc mc,
    merge_inner keep_max vi hs (repeat false (length hs)) nw dc mc
    = (nw, dc, mc, repeat false (length hs)).
Proof.
  induction hs as [|h hs IH]; intros Hn nw dc mc; [reflexivity|].
  cbn [length repeat merge_inner].
  destruct (vertices_equal vi (verts h)) eqn:E.
  - apply vertices_equal_true in E. exfalso. apply Hn. left. now symmetry.
  - rewrite IH; [reflexivity|]. intros Hin. apply Hn. right. exact Hin.
Qed.

Lemma merge_outer_no_duplicates (keep_max : Z) (hs : list Hyperedge) :
  NoDup (map verts hs) ->
  forall mc, merge_outer keep_max hs (repeat false (length hs)) mc = (hs, mc).
Proof.
  induction hs as [|h hs IH]; intros Hnd mc; [reflexivity|].
  cbn [map] in Hnd. inversion Hnd as [|? ? Hn Hnd']; subst.
  cbn [length repeat merge_outer].
  rewrite (merge_inner_no_match keep_max (verts h) hs Hn).
  rewrite (IH Hnd'). rewrite andb_false_r. destruct h. reflexivity.
Qed.

Lemma store_children_id (st : Node -> list Hyperedge -> Node * list Hyperedge)
    (cs : list Node) :
  Forall (fun c => forall rest, st c (map he (subnodes c) ++ rest) = (c, rest)) cs ->
  forall rest, store_children st cs (hes cs ++ rest) = (cs, rest).
Proof.
  induction 1 as [|c cs Hc _ IH]; intros rest; [reflexivity|].
  rewrite hes_cons. unfold hes at 1. cbn [flat_map store_children].
  rewrite app_nil_r, <- app_assoc, Hc, IH. reflexivity.
Qed.

Lemma store_node_id (nd : Node) :
  forall rest, store_node nd (map he (subnodes nd) ++ rest) = (nd, rest).
Proof.
  induction nd as [h cs IH] using Node_ind'. intros rest.
  cbn [subnodes map he app store_node].
  fold (hes cs). rewrite (store_children_id store_node cs IH). reflexivity.
Qed.

(** With no two nodes sharing a vertex set there is nothing to merge:
    [forest_merge_duplicates] returns 0 and leaves the forest exactly as it
    was, without rebalancing it. *)
Theorem forest_merge_duplicates_no_duplicates (f : Forest) (keep_max : Z) :
  NoDup (map verts (hes f)) ->
  forest_merge_duplicates f keep_max = (f, 0).
Proof.
  intros Hnd. unfold forest_merge_duplicates.
  destruct (Z.of_nat (length (collect_all_nodes f)) <=? 1); [reflexivity|].
  rewrite <- (length_map he (collect_all_nodes f)).
  rewrite collect_all_nodes_eq. fold (hes f).
  rewrite (merge_outer_no_duplicates keep_max (hes f) Hnd 0).
  cbn [Z.gtb Z.compare]. f_equal.
  unfold store_forest. rewrite <- (app_nil_r (hes f)).
  rewrite (store_children_id store_node f); [reflexivity|].
  apply Forall_forall. intros c _. apply store_node_id.
Qed.

Lemma forest_merge_duplicates_no_duplicates_witness :
  let f := [mkNode (mkHyperedge [1; 2; 3] 2) [mkNode (mkHyperedge [1; 2] 5) []];
            mkNode (mkHyperedge [4] 1) []] in
  forest_merge_duplicates f 0 = (f, 0).
Proof.
  intros f. apply forest_merge_duplicates_no_duplicates.
  repeat constructor; cbn; intuition discriminate.
Defined.

(** ** Pruning *)

Lemma prune_scan_kept (rec : Node -> Z -> Node * Z) (t : Q) (rest : list Node) :
  Forall (fun c => should_prune c t = false ->
                   forall rc, all_at_least t (fst (rec c rc)) = true) rest ->
  forall rc, forallb (all_at_least t) (fst (prune_scan rec t rest rc)) = true.
Proof.
  induction 1 as [|c rest Hc _ IH]; intros rc; [reflexivity|].
  cbn [prune_scan]. destruct (should_prune c t) eqn:E; [apply IH|].
  specialize (Hc eq_refl rc). destruct (rec c rc) as [c' rc1].
  specialize (IH rc1). destruct (prune_scan rec t rest rc1) as [kept rc2].
  cbn [fst forallb] in *. rewrite Hc, IH. reflexivity.
Qed.

Lemma prune_node_children_kept (t : Q) (nd : Node) :
  should_prune nd t = false ->
  forall rc, all_at_least t (fst (prune_node_children nd t rc)) = true.
Proof.
  induction nd as [h cs IH] using Node_ind'. intros Hnd rc.
  cbn [prune_node_children].
  pose proof (prune_scan_kept (fun c rc => prune_node_children c t rc) t cs IH rc) as H.
  destruct (prune_scan _ t cs rc) as [cs' rc']. cbn [fst all_at_least] in *.
  unfold should_prune in Hnd. cbn [he] in Hnd. rewrite Hnd, H. reflexivity.
Qed.

Lemma all_at_least_subnodes (t : Q) (r : Node) :
  all_at_least t r = true ->
  forall nd, In nd (subnodes r) -> should_prune nd t = false.
Proof.
  induction r as [h cs IH] using Node_ind'. intros Hr nd Hin.
  cbn [all_at_least] in Hr. apply andb_true_iff in Hr. destruct Hr as [Hh Hcs].
  cbn [subnodes] in Hin. destruct Hin as [<-|Hin].
  - unfold should_prune. cbn [he]. now apply negb_true_iff.
  - apply in_flat_map in Hin. destruct Hin as (c & Hc & Hin).
    rewrite forallb_forall in Hcs. rewrite Forall_forall in IH.
    exact (IH c Hc (Hcs c Hc) nd Hin).
Qed.

(** After [forest_prune_by_weight] no node of the forest is below the
    threshold. *)
Theorem forest_prune_leaves_no_light_node (f : Forest) (threshold : Q) :
  forall nd, In nd (collect_all_nodes (fst (forest_prune_by_weight f threshold))) ->
             (threshold <= weight (he nd))%Q.
Proof.
  intros nd Hnd. unfold forest_prune_by_weight in Hnd.
  pose proof (prune_scan_kept (fun r rc => prune_node_children r threshold rc)
                threshold f) as H.
  specialize (H ltac:(apply Forall_forall; intros c _ Hc rc;
                      apply prune_node_children_kept, Hc) 0).
  rewrite collect_all_nodes_eq in Hnd. apply in_flat_map in Hnd.
  destruct Hnd as (r & Hr & Hnd). rewrite forallb_forall in H.
  pose proof (all_at_least_subnodes threshold r (H r Hr) nd Hnd) as Hp.
  apply Qltb_false. exact Hp.
Qed.

Lemma forest_prune_leaves_no_light_node_witness :
  let f := [mkNode (mkHyperedge [1; 2; 3] 5) [mkNode (mkHyperedge [1; 2] 1) []];
            mkNode (mkHyperedge [4] 3) []] in
  let nd := mkNode (mkHyperedge [1; 2; 3] 5) [] in
  In nd (collect_all_nodes (fst (forest_prune_by_weight f 2)))
  /\ (2 <= weight (he nd))%Q.
Proof.
  intros f nd.
  assert (H : In nd (collect_all_nodes (fst (forest_prune_by_weight f 2))))
    by (vm_compute; left; reflexivity).
  split; [exact H | exact (forest_prune_leaves_no_light_node f 2 nd H)].
Defined.

Lemma prune_scan_fixed (rec : Node -> Z -> Node * Z) (t : Q) (l : list Node) :
  Forall (fun c => all_at_least t c = true -> forall rc, rec c rc = (c, rc)) l ->
  forallb (all_at_least t) l = true ->
  forall rc, prune_scan rec t l rc = (l, rc).
Proof.
  induction 1 as [|c l Hc _ IH]; intros Hall rc; [reflexivity|].
  cbn [forallb] in Hall. apply andb_true_iff in Hall. destruct Hall as [Hc1 Hl].
  cbn [prune_scan].
  assert (should_prune c t = false) as ->.
  { destruct c as [h cs]. cbn [all_at_least] in Hc1.
    apply andb_true_iff in Hc1. unfold should_prune. cbn [he].
    now apply negb_true_iff. }
  rewrite (Hc Hc1 rc), (IH Hl rc). reflexivity.
Qed.

Lemma prune_node_children_fixed (t : Q) (nd : Node) :
  all_at_least t nd = true ->
  forall rc, prune_node_children nd t rc = (nd, rc).
Proof.
  induction nd as [h cs IH] using Node_ind'. intros Hall rc.
  cbn [all_at_least] in Hall. apply andb_true_iff in Hall.
  cbn [prune_node_children].
  rewrite (prune_scan_fixed _ t cs IH (proj2 Hall) rc). reflexivity.
Qed.

(** Pruning is idempotent: a second call with the same threshold removes
    nothing, returns 0 and leaves the forest as the first call left it. *)
Theorem forest_prune_idempotent (f : Forest) (threshold : Q) :
  forest_prune_by_weight (fst (forest_prune_by_weight f threshold)) threshold
  = (fst (forest_prune_by_weight f threshold), 0).
Proof.
  unfold forest_prune_by_weight at 1.
  apply prune_scan_fixed.
  - apply Forall_forall. intros c _ Hc rc. apply prune_node_children_fixed, Hc.
  - unfold forest_prune_by_weight.
    apply (prune_scan_kept (fun r rc => prune_node_children r threshold rc)).
    apply Forall_forall. intros c _ Hc rc. apply prune_node_children_kept, Hc.
Qed.

Lemma prune_scan_count (rec : Node -> Z -> Node * Z) (t : Q) (rest : list Node) :
  Forall (fun c => should_prune c t = false ->
                   forall rc, count_nodes_recursive (fst (rec c rc))
                              = count_by_threshold_recursive c t) rest ->
  forall rc,
    nodes_in (fst (prune_scan rec t rest rc))
    = Zsum (map (fun c => count_by_threshold_recursive c t) rest).
Proof.
  induction 1 as [|c rest Hc _ IH]; intros rc; [reflexivity|].
  cbn [prune_scan map]. unfold Zsum. cbn [fold_right].
  fold (Zsum (map (fun c => count_by_threshold_recursive c t) rest)).
  destruct (should_prune c t) eqn:E.
  - rewrite IH. destruct c as [h cs]. unfold should_prune in E. cbn [he] in E.
    cbn [count_by_threshold_recursive]. rewrite E. lia.
  - specialize (Hc eq_refl rc). destruct (rec c rc) as [c' rc1].
    specialize (IH rc1). destruct (prune_scan rec t rest rc1) as [kept rc2].
    cbn [fst] in *. rewrite nodes_in_cons. lia.
Qed.

Lemma prune_node_children_count (t : Q) (nd : Node) :
  should_prune nd t = false ->
  forall rc, count_nodes_recursive (fst (prune_node_children nd t rc))
             = count_by_threshold_recursive nd t.
Proof.
  induction nd as [h cs IH] using Node_ind'. intros Hnd rc.
  cbn [prune_node_children count_by_threshold_recursive].
  unfold should_prune in Hnd. cbn [he] in Hnd. rewrite Hnd, fold_left_add.
  pose proof (prune_scan_count (fun c rc => prune_node_children c t rc) t cs IH rc) as H.
  destruct (prune_scan _ t cs rc) as [cs' rc']. cbn [fst] in *.
  rewrite count_nodes_recursive_eq, H. reflexivity.
Qed.

(** Pruning keeps exactly as many nodes as the threshold query counts, for
    every forest: both stop at the first node below the threshold. *)
Theorem forest_prune_keeps_threshold_count (f : Forest) (threshold : Q) :
  count_total_nodes (fst (forest_prune_by_weight f threshold))
  = find_by_weight_threshold f threshold.
Proof.
  unfold forest_prune_by_weight, find_by_weight_threshold.
  rewrite count_total_nodes_eq, fold_left_add.
  rewrite (prune_scan_count (fun r rc => prune_node_children r threshold rc)).
  - lia.
  - apply Forall_forall. intros c _ Hc rc. apply prune_node_children_count, Hc.
Qed.

(** ** Guarded descents *)

Lemma fold_left_collect {A B : Type} (g : A -> list B -> list B) (cs : list A) :
  Forall (fun c => forall acc, g c acc = acc ++ g c []) cs ->
  forall acc,
    fold_left (fun acc c => g c acc) cs acc = acc ++ flat_map (fun c => g c []) cs.
Proof.
  induction 1 as [|c cs Hc _ IH]; intros acc; cbn [fold_left flat_map].
  - now rewrite app_nil_r.
  - rewrite Hc, IH, <- app_assoc. reflexivity.
Qed.

Lemma flat_map_ext_Forall {A B : Type} (g1 g2 : A -> list B) (l : list A) :
  Forall (fun x => g1 x = g2 x) l -> flat_map g1 l = flat_map g2 l.
Proof. induction 1 as [|x l Hx _ IH]; cbn [flat_map]; congruence. Qed.

(** What a descent guarded by [p] collects are the nodes that satisfy [p]
    along with all their ancestors. *)
Lemma guarded_with_ancestors (p : Node -> bool) (nd : Node) :
  forall anc,
    forallb p anc = true ->
    map snd (filter (fun x => p (snd x) && forallb p (fst x)) (with_ancestors anc nd))
    = guarded p nd.
Proof.
  induction nd as [h cs IH] using Node_ind'. intros anc Hanc.
  cbn [with_ancestors filter guarded fst snd]. rewrite Hanc, andb_true_r.
  destruct (p (mkNode h cs)) eqn:E.
  - cbn [map snd]. f_equal.
    assert (Hanc' : forallb p (mkNode h cs :: anc) = true)
      by (cbn [forallb]; rewrite E, Hanc; reflexivity).
    revert Hanc'. generalize (mkNode h cs :: anc). intros anc' Hanc'.
    clear E. induction IH as [|c cs' Hc _ IHcs]; [reflexivity|].
    cbn [flat_map]. rewrite filter_app, map_app, IHcs. f_equal.
    apply Hc, Hanc'.
  - assert (Hnone : forall c a, filter (fun x => p (snd x) && forallb p (fst x))
                             (with_ancestors (a ++ mkNode h cs :: anc) c) = []).
    { intros c. induction c as [hc ccs IHc] using Node_ind'. intros a.
      cbn [with_ancestors filter fst snd]. rewrite forallb_app. cbn [forallb].
      rewrite E. cbn [andb]. rewrite !andb_false_r.
      apply filter_flat_map_nil. rewrite Forall_forall in *. intros c' Hc'.
      apply (IHc c' Hc' (mkNode hc ccs :: a)). }
    rewrite filter_flat_map_nil; [reflexivity|].
    apply Forall_forall. intros c _. apply (Hnone c []).
Qed.

Lemma reached_guarded (p : Node -> bool) (f : Forest) :
  reached p f = flat_map (guarded p) f.
Proof.
  unfold reached. induction f as [|r f IH]; [reflexivity|].
  cbn [flat_map]. rewrite filter_app, map_app, IH. f_equal.
  apply guarded_with_ancestors. reflexivity.
Qed.

Lemma collect_supersets_guarded (query : list Z) (nd : Node) :
  forall acc, collect_supersets_recursive nd query acc
              = acc ++ guarded (is_superset_of query) nd.
Proof.
  induction nd as [h cs IH] using Node_ind'. intros acc.
  cbn [collect_supersets_recursive guarded]. unfold is_superset_of at 1. cbn [he].
  destruct (is_subset query (verts h)); [|now rewrite app_nil_r].
  assert (Hacc : Forall (fun c => forall acc,
             collect_supersets_recursive c query acc
             = acc ++ collect_supersets_recursive c query []) cs).
  { rewrite Forall_forall in *. intros c Hc a. rewrite (IH c Hc a), (IH c Hc []).
    reflexivity. }
  rewrite (fold_left_collect (fun c acc => collect_supersets_recursive c query acc)
             cs Hacc), <- app_assoc. cbn [app]. do 2 f_equal.
  apply flat_map_ext_Forall. rewrite Forall_forall in *. intros c Hc.
  apply (IH c Hc []).
Qed.

Lemma find_all_supersets_reached_aux (f : Forest) (query : list Z) :
  find_all_supersets f query = flat_map (guarded (is_superset_of query)) f.
Proof.
  unfold find_all_supersets.
  assert (H : forall acc,
             fold_left (fun acc r => collect_supersets_recursive r query acc) f acc
             = acc ++ flat_map (guarded (is_superset_of query)) f);
    [|exact (H [])].
  induction f as [|r f IH]; intros acc; cbn [fold_left flat_map].
  - now rewrite app_nil_r.
  - rewrite IH, collect_supersets_guarded, <- app_assoc. reflexivity.
Qed.

(** [find_all_supersets] returns, in pre-order, exactly the nodes that
    contain the query and all of whose ancestors contain it too; a superset
    below a node that is not one is not found. *)
Theorem find_all_supersets_reached (f : Forest) (query : list Z) :
  find_all_supersets f query = reached (is_superset_of query) f
  /\ forall nd, In nd (find_all_supersets f query) ->
                In nd (collect_all_nodes f)
                /\ is_subset query (verts (he nd)) = true.
Proof.
  assert (E : find_all_supersets f query = reached (is_superset_of query) f)
    by (rewrite reached_guarded; apply find_all_supersets_reached_aux).
  split; [exact E|].
  intros nd Hnd. rewrite E in Hnd. unfold reached in Hnd.
  apply in_map_iff in Hnd. destruct Hnd as ([anc x] & Hx & Hin).
  cbn [snd] in Hx. subst x. apply filter_In in Hin. destruct Hin as [Hin Hp].
  cbn [fst snd] in Hp. apply andb_true_iff in Hp. split; [|apply Hp].
  rewrite collect_all_nodes_eq. apply in_flat_map in Hin.
  destruct Hin as (r & Hr & Hin). apply in_flat_map. exists r. split; [exact Hr|].
  clear -Hin. revert anc Hin. generalize (@nil Node).
  induction r as [h cs IH] using Node_ind'. intros a anc Hin.
  cbn [with_ancestors subnodes] in *. destruct Hin as [Hin|Hin].
  - left. now injection Hin.
  - right. apply in_flat_map in Hin. destruct Hin as (c & Hc & Hin).
    apply in_flat_map. exists c. split; [exact Hc|].
    rewrite Forall_forall in IH. exact (IH c Hc _ _ Hin).
Qed.

Lemma collect_containing_supersets (query : list Z) (nd : Node) :
  forall acc, collect_containing_vertices_recursive nd query acc
              = collect_supersets_recursive nd query acc.
Proof.
  induction nd as [h cs IH] using Node_ind'. intros acc.
  cbn [collect_containing_vertices_recursive collect_supersets_recursive].
  unfold contains_all_vertices.
  destruct (is_subset query (verts h)); [|reflexivity].
  generalize (acc ++ [mkNode h cs]).
  induction IH as [|c cs' Hc _ IHcs]; intros a; [reflexivity|].
  cbn [fold_left]. rewrite Hc. apply IHcs.
Qed.

(** [find_containing_vertices] and [find_all_supersets] are the same query:
    on every forest and vertex list they return the same nodes in the same
    order. *)
Theorem find_containing_vertices_is_find_all_supersets
    (f : Forest) (vertices : list Z) :
  find_containing_vertices f vertices = find_all_supersets f vertices.
Proof.
  unfold find_containing_vertices, find_all_supersets.
  generalize (@nil Node).
  induction f as [|r f IH]; intros acc; [reflexivity|].
  cbn [fold_left]. rewrite collect_containing_supersets. apply IH.
Qed.

Lemma Qle_bool_negb_Qltb (a b : Q) : Qle_bool a b = negb (Qltb b a).
Proof.
  destruct (Qltb b a) eqn:E; cbn [negb].
  - apply Qltb_true in E. destruct (Qle_bool a b) eqn:L; [|reflexivity].
    apply Qle_bool_iff in L. lra.
  - apply Qltb_false in E. apply Qle_bool_iff. exact E.
Qed.

Lemma collect_by_weight_guarded (t : Q) (nd : Node) :
  forall acc, collect_by_weight_recursive nd t acc = acc ++ guarded (at_least t) nd.
Proof.
  induction nd as [h cs IH] using Node_ind'. intros acc.
  cbn [collect_by_weight_recursive guarded]. unfold at_least at 1. cbn [he].
  destruct (Qle_bool t (weight h)); [|now rewrite app_nil_r].
  assert (Hacc : Forall (fun c => forall acc,
             collect_by_weight_recursive c t acc
             = acc ++ collect_by_weight_recursive c t []) cs).
  { rewrite Forall_forall in *. intros c Hc a. rewrite (IH c Hc a), (IH c Hc []).
    reflexivity. }
  rewrite (fold_left_collect (fun c acc => collect_by_weight_recursive c t acc)
             cs Hacc), <- app_assoc. cbn [app]. do 2 f_equal.
  apply flat_map_ext_Forall. rewrite Forall_forall in *. intros c Hc.
  apply (IH c Hc []).
Qed.

Lemma guarded_count (t : Q) (nd : Node) :
  Z.of_nat (length (guarded (at_least t) nd)) = count_by_threshold_recursive nd t.
Proof.
  induction nd as [h cs IH] using Node_ind'.
  cbn [guarded count_by_threshold_recursive]. unfold at_least at 1. cbn [he].
  rewrite Qle_bool_negb_Qltb. destruct (Qltb (weight h) t); cbn [negb];
    [reflexivity|].
  rewrite fold_left_add. cbn [length]. rewrite Nat2Z.inj_succ.
  assert (Z.of_nat (length (flat_map (guarded (at_least t)) cs))
          = Zsum (map (fun c => count_by_threshold_recursive c t) cs)) as ->; [|lia].
  induction IH as [|c cs' Hc _ IHcs]; [reflexivity|].
  cbn [flat_map map]. unfold Zsum in *. cbn [fold_right].
  rewrite length_app, Nat2Z.inj_add, Hc, IHcs. reflexivity.
Qed.

(** [get_clusters_by_weight] returns the nodes that reach the threshold
    together with all their ancestors, and [find_by_weight_threshold]
    counts precisely those: on every forest the two agree. *)
Theorem get_clusters_by_weight_reached (f : Forest) (threshold : Q) :
  get_clusters_by_weight f threshold = reached (at_least threshold) f
  /\ Z.of_nat (length (get_clusters_by_weight f threshold))
     = find_by_weight_threshold f threshold.
Proof.
  assert (H : forall acc,
             fold_left (fun acc r => collect_by_weight_recursive r threshold acc) f acc
             = acc ++ flat_map (guarded (at_least threshold)) f).
  { induction f as [|r f IH]; intros acc; cbn [fold_left flat_map].
    - now rewrite app_nil_r.
    - rewrite IH, collect_by_weight_guarded, <- app_assoc. reflexivity. }
  unfold get_clusters_by_weight. rewrite (H []), reached_guarded. cbn [app].
  split; [reflexivity|].
  unfold find_by_weight_threshold. rewrite fold_left_add. clear H.
  assert (Z.of_nat (length (flat_map (guarded (at_least threshold)) f))
          = Zsum (map (fun c => count_by_threshold_recursive c threshold) f)) as ->;
    [|lia].
  induction f as [|r f IH]; [reflexivity|].
  cbn [flat_map map]. unfold Zsum in *. cbn [fold_right].
  rewrite length_app, Nat2Z.inj_add, guarded_count, IH. reflexivity.
Qed.


(** ** Subset and superset searches *)

Lemma collect_subsets_filter (query : list Z) (nd : Node) :
  forall acc, collect_subsets_recursive nd query acc
              = acc ++ filter (is_subset_of query) (subnodes nd).
Proof.
  induction nd as [h cs IH] using Node_ind'. intros acc.
  cbn [collect_subsets_recursive subnodes filter].
  unfold is_subset_of at 1. cbn [he].
  assert (Hfold : forall a,
             fold_left (fun acc c => collect_subsets_recursive c query acc) cs a
             = a ++ filter (is_subset_of query) (flat_map subnodes cs)).
  { induction IH as [|c cs' Hc _ IHcs]; intros a; cbn [fold_left flat_map].
    - now rewrite app_nil_r.
    - rewrite IHcs, Hc, filter_app, <- app_assoc. reflexivity. }
  rewrite Hfold.
  destruct (is_subset (verts h) query); [|reflexivity].
  rewrite <- app_assoc. reflexivity.
Qed.

(** [find_all_subsets] is exact on every forest: it returns, in pre-order,
    all nodes and only the nodes whose vertex sequence passes [is_subset]
    against the query. *)
Theorem find_all_subsets_exact (f : Forest) (query : list Z) :
  find_all_subsets f query
  = filter (is_subset_of query) (collect_all_nodes f).
Proof.
  unfold find_all_subsets. rewrite collect_all_nodes_eq.
  assert (H : forall acc,
             fold_left (fun acc r => collect_subsets_recursive r query acc) f acc
             = acc ++ filter (is_subset_of query) (flat_map subnodes f));
    [|exact (H [])].
  induction f as [|r f IH]; intros acc; cbn [fold_left flat_map].
  - now rewrite app_nil_r.
  - rewrite IH, collect_subsets_filter, filter_app, <- app_assoc. reflexivity.
Qed.

Lemma is_subset_trans (A B C : list Z) :
  strictly_increasing A = true -> strictly_increasing B = true ->
  strictly_increasing C = true ->
  is_subset A B = true -> is_subset B C = true -> is_subset A C = true.
Proof.
  intros HA HB HC.
  rewrite (is_subset_decides_inclusion_aux A B HA HB),
          (is_subset_decides_inclusion_aux B C HB HC),
          (is_subset_decides_inclusion_aux A C HA HC).
  intros H1 H2 x Hx. apply H2, H1, Hx.
Qed.

Lemma filter_flat_map {A B : Type} (p : B -> bool) (g : A -> list B) (l : list A) :
  filter p (flat_map g l) = flat_map (fun x => filter p (g x)) l.
Proof.
  induction l as [|x l IH]; [reflexivity|].
  cbn [flat_map]. rewrite filter_app, IH. reflexivity.
Qed.

Lemma guarded_nested (query : list Z) (nd : Node) :
  strictly_increasing query = true ->
  canonical_node nd = true -> nested nd = true ->
  guarded (is_superset_of query) nd
  = filter (is_superset_of query) (subnodes nd).
Proof.
  intros Hq. induction nd as [h cs IH] using Node_ind'. intros Hc Hn.
  cbn [canonical_node] in Hc. apply andb_true_iff in Hc. destruct Hc as [Hh Hcs].
  cbn [nested] in Hn. rewrite forallb_forall in Hcs, Hn. rewrite Forall_forall in IH.
  assert (Hsub : forall c, In c cs ->
             guarded (is_superset_of query) c
             = filter (is_superset_of query) (subnodes c)).
  { intros c Hc. specialize (Hn c Hc). apply andb_true_iff in Hn.
    apply (IH c Hc); [apply Hcs, Hc | apply Hn]. }
  cbn [guarded subnodes filter].
  destruct (is_superset_of query (mkNode h cs)) eqn:E.
  - f_equal. rewrite filter_flat_map. apply flat_map_ext_Forall.
    apply Forall_forall. exact Hsub.
  - symmetry. apply filter_flat_map_nil, Forall_forall. intros c Hc.
    rewrite <- (Hsub c Hc). destruct c as [hc ccs]. cbn [guarded].
    destruct (is_superset_of query (mkNode hc ccs)) eqn:Ec; [|reflexivity].
    exfalso. unfold is_superset_of in E, Ec. cbn [he] in E, Ec.
    pose proof (Hn _ Hc) as Hn1. apply andb_true_iff in Hn1.
    destruct Hn1 as [Hn1 _]. cbn [he] in Hn1.
    pose proof (Hcs _ Hc) as Hc1. cbn [canonical_node] in Hc1.
    apply andb_true_iff in Hc1. destruct Hc1 as [Hhc _].
    rewrite (is_subset_trans query (verts hc) (verts h) Hq Hhc Hh Ec Hn1) in E.
    discriminate.
Qed.

(** In a forest of canonical vertex sets in which every child is contained
    in its parent, [find_all_supersets] misses nothing: for a canonical
    query it returns every node of the forest that contains the query. *)
Theorem find_all_supersets_complete (f : Forest) (query : list Z) :
  strictly_increasing query = true ->
  forallb canonical_node f = true ->
  forallb nested f = true ->
  find_all_supersets f query
  = filter (is_superset_of query) (collect_all_nodes f).
Proof.
  intros Hq Hc Hn.
  rewrite find_all_supersets_reached_aux, collect_all_nodes_eq, filter_flat_map.
  apply flat_map_ext_Forall, Forall_forall. intros r Hr.
  rewrite forallb_forall in Hc, Hn.
  apply guarded_nested; [exact Hq | apply Hc, Hr | apply Hn, Hr].
Qed.

Lemma find_all_supersets_complete_witness :
  let f := [mkNode (mkHyperedge [1; 2; 3; 4] 4)
              [mkNode (mkHyperedge [1; 2; 3] 3) [mkNode (mkHyperedge [2; 3] 1) []];
               mkNode (mkHyperedge [3; 4] 2) []]] in
  find_all_supersets f [2; 3] = filter (is_superset_of [2; 3]) (collect_all_nodes f).
Proof. intros f. apply find_all_supersets_complete; reflexivity. Defined.

(** ** Best-superset searches *)

Section BestSearch.
Variable better : Node -> Node -> bool.
Hypothesis better_irrefl : forall x, better x x = false.
Hypothesis better_trans :
  forall x y z, better x y = true -> better y z = true -> better x z = true.

Lemma keep_best_fold_cases (l : list Node) :
  forall best,
    fold_left (keep_best better) l best = best
    \/ exists x, fold_left (keep_best better) l best = Some x
                 /\ improves better x best = true.
Proof.
  induction l as [|y l IH]; intros best; [left; reflexivity|].
  cbn [fold_left]. unfold keep_best at 2 4.
  destruct (improves better y best) eqn:E; [|apply IH].
  right. destruct (IH (Some y)) as [->|(x & -> & Hx)].
  - exists y. split; [reflexivity | exact E].
  - exists x. split; [reflexivity|]. cbn [improves] in Hx.
    destruct best as [b|]; [|reflexivity]. cbn [improves] in *.
    exact (better_trans x y b Hx E).
Qed.

(** The source compares the result of a recursive call against [best]
    once more before taking it; that changes nothing. *)
Lemma keep_best_recheck (l : list Node) (best : option Node) :
  match fold_left (keep_best better) l best with
  | Some cand => if improves better cand best
                 then fold_left (keep_best better) l best else best
  | None => best
  end = fold_left (keep_best better) l best.
Proof.
  destruct (keep_best_fold_cases l best) as [->|(x & -> & Hx)].
  - destruct best as [b|]; [|reflexivity]. cbn [improves].
    rewrite better_irrefl. reflexivity.
  - rewrite Hx. reflexivity.
Qed.

Lemma keep_best_fold_optimal (l : list Node) :
  forall best,
    (fold_left (keep_best better) l best = best
     \/ exists x, fold_left (keep_best better) l best = Some x /\ In x l)
    /\ forall y, In y l ->
         improves better y (fold_left (keep_best better) l best) = false.
Proof.
  induction l as [|y l IH]; intros best.
  - split; [left; reflexivity | intros ? []].
  - cbn [fold_left]. destruct (IH (keep_best better best y)) as [I1 I2].
    split.
    + destruct I1 as [->|(x & -> & Hx)].
      * unfold keep_best. destruct (improves better y best); [|left; reflexivity].
        right. exists y. split; [reflexivity | left; reflexivity].
      * right. exists x. split; [reflexivity | right; exact Hx].
    + intros z [<-|Hz]; [|apply I2, Hz].
      destruct (keep_best_fold_cases l (keep_best better best y))
        as [->|(x & -> & Hx)]; unfold keep_best in *;
        destruct (improves better y best) eqn:E; cbn [improves] in *.
      * apply better_irrefl.
      * exact E.
      * destruct (better y x) eqn:B; [|reflexivity].
        rewrite <- (better_irrefl y). symmetry. exact (better_trans y x y B Hx).
      * destruct (better y x) eqn:B; [|reflexivity].
        destruct best as [b|]; [|discriminate]. cbn [improves] in *.
        rewrite <- E. symmetry. exact (better_trans y x b B Hx).
Qed.

Lemma fold_left_flat_map {A B C : Type} (step : C -> B -> C) (g : A -> list B)
    (l : list A) :
  forall c, fold_left step (flat_map g l) c
            = fold_left (fun c x => fold_left step (g x) c) l c.
Proof.
  induction l as [|x l IH]; intros c; [reflexivity|].
  cbn [flat_map fold_left]. rewrite fold_left_app. apply IH.
Qed.

(** A best-so-far search that descends only below matching nodes is the
    fold of [keep_best] over the nodes that the guarded descent reaches. *)
Lemma best_search_fold (p : Node -> bool)
    (search : Node -> option Node -> option Node) (l : list Node) :
  Forall (fun c => forall best,
            search c best = fold_left (keep_best better) (guarded p c) best) l ->
  forall best,
    fold_left
      (fun best c =>
         match search c best with
         | Some cand => if improves better cand best then Some cand else best
         | None => best
         end) l best
    = fold_left (keep_best better) (flat_map (guarded p) l) best.
Proof.
  intros H. rewrite Forall_forall in H. intros best.
  rewrite fold_left_flat_map. revert best.
  induction l as [|c l IH]; intros best; [reflexivity|].
  cbn [fold_left].
  assert (Hc := H c (or_introl eq_refl) best).
  pose proof (keep_best_recheck (guarded p c) best) as R.
  rewrite <- Hc in R.
  assert (Hstep : match search c best with
                  | Some cand => if improves better cand best then Some cand else best
                  | None => best
                  end = search c best).
  { destruct (search c best) as [cand|] eqn:Es; [|exact R].
    destruct (improves better cand best); [reflexivity | exact R]. }
  rewrite Hstep, Hc. apply IH. intros x Hx. apply H. now right.
Qed.
End BestSearch.

Lemma more_weight_irrefl (x : Node) : more_weight x x = false.
Proof. unfold more_weight. apply Qgtb_false. lra. Qed.

Lemma more_weight_trans (x y z : Node) :
  more_weight x y = true -> more_weight y z = true -> more_weight x z = true.
Proof.
  unfold more_weight. rewrite !Qgtb_true. intros; lra.
Qed.

Lemma fewer_vertices_irrefl (x : Node) : fewer_vertices x x = false.
Proof. unfold fewer_vertices. apply Z.ltb_irrefl. Qed.

Lemma fewer_vertices_trans (x y z : Node) :
  fewer_vertices x y = true -> fewer_vertices y z = true ->
  fewer_vertices x z = true.
Proof.
  unfold fewer_vertices. rewrite !Z.ltb_lt. lia.
Qed.

Lemma find_heaviest_superset_recursive_fold (query : list Z) (nd : Node) :
  forall best,
    find_heaviest_superset_recursive nd query best
    = fold_left (keep_best more_weight) (guarded (is_superset_of query) nd) best.
Proof.
  induction nd as [h cs IH] using Node_ind'. intros best.
  cbn [find_heaviest_superset_recursive guarded].
  unfold is_superset_of at 1. cbn [he].
  destruct (is_subset query (verts h)); [|reflexivity].
  cbn [fold_left].
  exact (best_search_fold more_weight more_weight_irrefl more_weight_trans
           (is_superset_of query)
           (fun c best => find_heaviest_superset_recursive c query best) cs IH _).
Qed.

(** [find_heaviest_superset] returns a node of maximal weight among those
    that [find_all_supersets] returns, and nothing exactly when that list
    is empty. *)
Theorem find_heaviest_superset_optimal (f : Forest) (query : list Z) :
  match find_heaviest_superset f query with
  | None => find_all_supersets f query = []
  | Some b =>
      In b (find_all_supersets f query)
      /\ forall x, In x (find_all_supersets f query) ->
                   (weight (he x) <= weight (he b))%Q
  end.
Proof.
  assert (E : find_heaviest_superset f query
              = fold_left (keep_best more_weight) (find_all_supersets f query) None).
  { rewrite find_all_supersets_reached_aux. unfold find_heaviest_superset.
    apply (best_search_fold more_weight more_weight_irrefl more_weight_trans
             (is_superset_of query)
             (fun c best => find_heaviest_superset_recursive c query best)).
    apply Forall_forall. intros c _. apply find_heaviest_superset_recursive_fold. }
  rewrite E.
  destruct (keep_best_fold_optimal more_weight more_weight_irrefl more_weight_trans
              (find_all_supersets f query) None) as [H1 H2].
  destruct (fold_left (keep_best more_weight) (find_all_supersets f query) None)
    as [b|] eqn:Eb.
  - split.
    + destruct H1 as [H1|(x & Hx & Hin)]; [discriminate|].
      injection Hx as <-. exact Hin.
    + intros x Hx. specialize (H2 x Hx). cbn [improves] in H2.
      unfold more_weight in H2. apply Qgtb_false. exact H2.
  - destruct (find_all_supersets f query) as [|x l]; [reflexivity|].
    specialize (H2 x (or_introl eq_refl)). discriminate.
Qed.

Lemma find_minimal_superset_recursive_fold (query : list Z) (nd : Node) :
  forall best,
    find_minimal_superset_recursive nd query best
    = fold_left (keep_best fewer_vertices) (guarded (is_superset_of query) nd) best.
Proof.
  induction nd as [h cs IH] using Node_ind'. intros best.
  cbn [find_minimal_superset_recursive guarded].
  unfold is_superset_of at 1. cbn [he].
  destruct (is_subset query (verts h)); [|reflexivity].
  cbn [fold_left].
  exact (best_search_fold fewer_vertices fewer_vertices_irrefl fewer_vertices_trans
           (is_superset_of query)
           (fun c best => find_minimal_superset_recursive c query best) cs IH _).
Qed.

(** [find_minimal_superset] returns a node with the fewest vertices among
    those that [find_all_supersets] returns, and nothing exactly when that
    list is empty. *)
Theorem find_minimal_superset_optimal (f : Forest) (query : list Z) :
  match find_minimal_superset f query with
  | None => find_all_supersets f query = []
  | Some b =>
      In b (find_all_supersets f query)
      /\ forall x, In x (find_all_supersets f query) ->
                   nverts (he b) <= nverts (he x)
  end.
Proof.
  assert (E : find_minimal_superset f query
              = fold_left (keep_best fewer_vertices) (find_all_supersets f query) None).
  { rewrite find_all_supersets_reached_aux. unfold find_minimal_superset.
    apply (best_search_fold fewer_vertices fewer_vertices_irrefl fewer_vertices_trans
             (is_superset_of query)
             (fun c best => find_minimal_superset_recursive c query best)).
    apply Forall_forall. intros c _. apply find_minimal_superset_recursive_fold. }
  rewrite E.
  destruct (keep_best_fold_optimal fewer_vertices fewer_vertices_irrefl
              fewer_vertices_trans (find_all_supersets f query) None) as [H1 H2].
  destruct (fold_left (keep_best fewer_vertices) (find_all_supersets f query) None)
    as [b|] eqn:Eb.
  - split.
    + destruct H1 as [H1|(x & Hx & Hin)]; [discriminate|].
      injection Hx as <-. exact Hin.
    + intros x Hx. specialize (H2 x Hx). cbn [improves] in H2.
      unfold fewer_vertices in H2. apply Z.ltb_ge in H2. exact H2.
  - destruct (find_all_supersets f query) as [|x l]; [reflexivity|].
    specialize (H2 x (or_introl eq_refl)). discriminate.
Qed.

(** ** Weight-range search *)

Lemma light_subtree_out_of_range (min_w max_w : Q) (nd : Node) :
  monotone_exact nd = true ->
  Qle_bool min_w (weight (he nd)) = false ->
  filter (in_weight_range min_w max_w) (subnodes nd) = [].
Proof.
  intros Hm Hlow.
  assert (H : forall x, In x (subnodes nd) -> in_weight_range min_w max_w x = false).
  { intros x Hx. pose proof (monotone_exact_bound nd Hm x Hx) as Hb.
    unfold in_weight_range.
    destruct (Qle_bool min_w (weight (he x))) eqn:L; [|reflexivity].
    apply Qle_bool_iff in L.
    assert (Qle_bool min_w (weight (he nd)) = true)
      by (apply Qle_bool_iff; lra). congruence. }
  induction (subnodes nd) as [|y l IH]; [reflexivity|].
  cbn [filter]. rewrite (H y (or_introl eq_refl)). apply IH.
  intros x Hx. apply H. now right.
Qed.

Lemma collect_by_weight_range_filter (min_w max_w : Q) (nd : Node) :
  monotone_exact nd = true ->
  forall acc,
    collect_by_weight_range_recursive nd min_w max_w acc
    = acc ++ filter (in_weight_range min_w max_w) (subnodes nd).
Proof.
  induction nd as [h cs IH] using Node_ind'. intros Hm acc.
  destruct (Qle_bool min_w (weight h)) eqn:L.
  - cbn [collect_by_weight_range_recursive subnodes filter].
    unfold in_weight_range at 1. cbn [he]. rewrite L. cbn [andb].
    cbn [monotone_exact] in Hm. rewrite forallb_forall in Hm.
    assert (Hfold : forall a,
               fold_left (fun acc c => collect_by_weight_range_recursive c min_w max_w acc) cs a
               = a ++ filter (in_weight_range min_w max_w) (flat_map subnodes cs)).
    { clear L. induction IH as [|c cs' Hc _ IHcs]; intros a; cbn [fold_left flat_map].
      - now rewrite app_nil_r.
      - rewrite Hc, IHcs, filter_app, <- app_assoc; [reflexivity | |].
        + intros x Hx. apply Hm. now right.
        + specialize (Hm c (or_introl eq_refl)). apply andb_true_iff in Hm.
          apply Hm. }
    rewrite Hfold. destruct (Qle_bool (weight h) max_w); [|reflexivity].
    rewrite <- app_assoc. reflexivity.
  - rewrite (light_subtree_out_of_range min_w max_w (mkNode h cs) Hm L).
    cbn [collect_by_weight_range_recursive]. rewrite L. cbn [andb].
    now rewrite app_nil_r.
Qed.

(** On a forest in which no child is heavier than its parent,
    [find_by_weight_range] returns, in pre-order, every node whose weight
    lies in the closed range and no other node. *)
Theorem find_by_weight_range_exact (f : Forest) (min_weight max_weight : Q) :
  forallb monotone_exact f = true ->
  find_by_weight_range f min_weight max_weight
  = filter (in_weight_range min_weight max_weight) (collect_all_nodes f).
Proof.
  intros Hm. unfold find_by_weight_range. rewrite collect_all_nodes_eq.
  assert (H : forall acc,
             fold_left
               (fun acc r =>
                  if Qle_bool min_weight (weight (he r))
                  then collect_by_weight_range_recursive r min_weight max_weight acc
                  else acc) f acc
             = acc ++ filter (in_weight_range min_weight max_weight)
                             (flat_map subnodes f));
    [|exact (H [])].
  induction f as [|r f IH]; intros acc; cbn [fold_left flat_map].
  - now rewrite app_nil_r.
  - cbn [forallb] in Hm. apply andb_true_iff in Hm. destruct Hm as [Hr Hf].
    rewrite (IH Hf), filter_app.
    destruct (Qle_bool min_weight (weight (he r))) eqn:L.
    + rewrite (collect_by_weight_range_filter _ _ r Hr), <- app_assoc. reflexivity.
    + rewrite (light_subtree_out_of_range _ _ r Hr L). reflexivity.
Qed.

Lemma find_by_weight_range_exact_witness :
  let f := insert_hyperedge
             (insert_hyperedge (insert_hyperedge forest_create [1; 2; 3] 9) [1; 2] 5)
             [3] 2 in
  find_by_weight_range f 4 9
  = filter (in_weight_range 4 9) (collect_all_nodes f).
Proof. intros f. apply find_by_weight_range_exact. reflexivity. Defined.

(** ** Overlap *)

Lemma overlap_size_bounds (A : list Z) :
  forall B, 0 <= overlap_size A B
            /\ overlap_size A B <= Z.of_nat (length A)
            /\ overlap_size A B <= Z.of_nat (length B).
Proof.
  induction A as [|a A IH]; intros B; [cbn; lia|].
  induction B as [|b B IHB]; [cbn; lia|].
  cbn [overlap_size].
  change ((fix walk (B0 : list Z) : Z :=
             match B0 with
             | [] => 0
             | b0 :: B' =>
                 if a =? b0 then 1 + overlap_size A B'
                 else if a <? b0 then overlap_size A B0 else walk B'
             end) B) with (overlap_size (a :: A) B).
  cbn [length]. rewrite !Nat2Z.inj_succ.
  destruct (a =? b); [|destruct (a <? b)].
  - destruct (IH B) as (? & ? & ?). lia.
  - destruct (IH (b :: B)) as (? & ? & H3). cbn [length] in H3.
    rewrite Nat2Z.inj_succ in H3. lia.
  - cbn [length] in IHB. rewrite Nat2Z.inj_succ in IHB. lia.
Qed.

Lemma is_subset_overlap_size (B : list Z) :
  forall A, is_subset A B = true ->
            overlap_size A B = Z.of_nat (length A)
            /\ (length A <= length B)%nat.
Proof.
  induction B as [|b B IH]; intros [|a A] H; cbn [is_subset] in H;
    try discriminate; try (cbn; split; [reflexivity | lia]).
  cbn [overlap_size].
  change ((fix walk (B0 : list Z) : Z :=
             match B0 with
             | [] => 0
             | b0 :: B' =>
                 if a =? b0 then 1 + overlap_size A B'
                 else if a <? b0 then overlap_size A B0 else walk B'
             end) B) with (overlap_size (a :: A) B).
  destruct (a =? b) eqn:E.
  - destruct (IH A H) as [I1 I2]. rewrite I1. cbn [length].
    rewrite Nat2Z.inj_succ. split; lia.
  - destruct (a >? b) eqn:G; [|discriminate].
    assert ((a <? b) = false) as ->
      by (apply Z.ltb_ge; rewrite Z.gtb_ltb in G; apply Z.ltb_lt in G; lia).
    destruct (IH (a :: A) H) as [I1 I2]. split; [exact I1|].
    cbn [length] in *. lia.
Qed.

(** [compute_overlap] always lies between 0 and 1, whatever the two vertex
    sequences are. *)
Theorem compute_overlap_bounds (a b : Node) :
  (0 <= compute_overlap a b <= 1)%Q.
Proof.
  unfold compute_overlap, overlap_ratio.
  set (A := verts (he a)). set (B := verts (he b)).
  destruct (overlap_size_bounds A B) as (H0 & HA & HB).
  set (m := if Z.of_nat (length A) <? Z.of_nat (length B)
            then Z.of_nat (length A) else Z.of_nat (length B)).
  assert (Hm : overlap_size A B <= m)
    by (unfold m; destruct (Z.of_nat (length A) <? Z.of_nat (length B)); lia).
  destruct (m >? 0) eqn:G; [|split; [apply Qle_refl | discriminate]].
  rewrite Z.gtb_ltb in G. apply Z.ltb_lt in G.
  assert (Hmq : (0 < inject_Z m)%Q)
    by (change 0%Q with (inject_Z 0); rewrite <- Zlt_Qlt; exact G).
  split.
  - apply Qle_shift_div_l; [exact Hmq|]. rewrite Qmult_0_l.
    change 0%Q with (inject_Z 0). rewrite <- Zle_Qle. exact H0.
  - apply Qle_shift_div_r; [exact Hmq|]. rewrite Qmult_1_l.
    rewrite <- Zle_Qle. exact Hm.
Qed.

(** When one node's vertex sequence passes [is_subset] against the other's
    and is not empty, their overlap is 1. *)
Theorem compute_overlap_contained (a b : Node) :
  is_subset (verts (he a)) (verts (he b)) = true ->
  verts (he a) <> [] ->
  (compute_overlap a b == 1)%Q.
Proof.
  intros Hs Hne. unfold compute_overlap, overlap_ratio.
  destruct (is_subset_overlap_size _ _ Hs) as [Ho Hl]. rewrite Ho.
  assert (Hpos : 0 < Z.of_nat (length (verts (he a))))
    by (destruct (verts (he a)); [contradiction | cbn [length]; lia]).
  assert ((if Z.of_nat (length (verts (he a))) <? Z.of_nat (length (verts (he b)))
           then Z.of_nat (length (verts (he a)))
           else Z.of_nat (length (verts (he b))))
          = Z.of_nat (length (verts (he a)))) as ->.
  { destruct (Z.ltb_spec (Z.of_nat (length (verts (he a))))
                         (Z.of_nat (length (verts (he b))))); lia. }
  assert ((Z.of_nat (length (verts (he a))) >? 0) = true) as ->
    by (rewrite Z.gtb_ltb; apply Z.ltb_lt; exact Hpos).
  unfold Qdiv. apply Qmult_inv_r. intros H.
  assert (H0 : (inject_Z 0 < inject_Z (Z.of_nat (length (verts (he a)))))%Q)
    by (rewrite <- Zlt_Qlt; exact Hpos).
  rewrite H in H0. apply (Qlt_irrefl 0). exact H0.
Qed.

Lemma compute_overlap_contained_witness :
  let a := mkNode (mkHyperedge [2; 3] 1) [] in
  let b := mkNode (mkHyperedge [1; 2; 3; 4] 1) [] in
  (compute_overlap a b == 1)%Q.
Proof. intros a b. apply compute_overlap_contained; [reflexivity | discriminate]. Defined.

(** ** Weight extremes *)

Lemma last_app_nonempty {A : Type} (l1 l2 : list A) (d : A) :
  l2 <> [] -> last (l1 ++ l2) d = last l2 d.
Proof.
  intros Hne. induction l1 as [|x l1 IH]; [reflexivity|].
  cbn [app]. destruct (l1 ++ l2) eqn:E.
  - destruct l1, l2; try discriminate. contradiction.
  - cbn [last]. exact IH.
Qed.

Lemma last_through (A : Type) (x0 : A) (sub rest : list A) (d : A) :
  sub <> [] ->
  last (last sub d :: rest) d = last (x0 :: sub ++ rest) d.
Proof.
  intros Hne. destruct rest as [|y rest].
  - rewrite app_nil_r. change (x0 :: sub) with ([x0] ++ sub).
    rewrite last_app_nonempty by exact Hne. reflexivity.
  - change (last sub d :: y :: rest) with ([last sub d] ++ y :: rest).
    change (x0 :: sub ++ y :: rest) with ((x0 :: sub) ++ y :: rest).
    rewrite !last_app_nonempty by discriminate. reflexivity.
Qed.

Lemma find_weight_range_aliased (nd : Node) :
  forall m d,
    (load (find_weight_range_recursive nd 0 0 m) 0%nat
     == weight (he (last (subnodes nd) d)))%Q.
Proof.
  induction nd as [h cs IH] using Node_ind'. intros m d.
  cbn [find_weight_range_recursive].
  set (m1 := if Qltb (weight h) (load m 0%nat) then store m 0%nat (weight h) else m).
  set (m2 := if Qgtb (weight h) (load m1 0%nat) then store m1 0%nat (weight h) else m1).
  assert (H2 : (load m2 0%nat == weight h)%Q).
  { unfold m2, m1, load, store.
    destruct (Qltb (weight h) (m 0%nat)) eqn:L; cbn [Nat.eqb].
    - assert (Qgtb (weight h) (weight h) = false) as ->
        by (apply Qgtb_false; lra). cbn [Nat.eqb]. reflexivity.
    - destruct (Qgtb (weight h) (m 0%nat)) eqn:G; cbn [Nat.eqb]; [reflexivity|].
      apply Qltb_false in L. apply Qgtb_false in G. lra. }
  clearbody m2. clear m1.
  cbn [subnodes].
  assert (Hfold : forall m0 nd0,
             (load m0 0%nat == weight (he nd0))%Q ->
             (load (fold_left (fun m c => find_weight_range_recursive c 0 0 m) cs m0) 0%nat
              == weight (he (last (nd0 :: flat_map subnodes cs) d)))%Q).
  { induction IH as [|c cs' Hc _ IHcs]; intros m0 nd0 H0; [exact H0|].
    cbn [fold_left flat_map].
    assert (Hne : subnodes c <> []) by (destruct c; discriminate).
    replace (last (nd0 :: subnodes c ++ flat_map subnodes cs') d)
      with (last (last (subnodes c) d :: flat_map subnodes cs') d).
    - apply IHcs, Hc.
    - apply last_through, Hne. }
  apply (Hfold m2 (mkNode h cs)). exact H2.
Qed.

(** [forest_min_weight] passes the address of its local [min] for both
    out-parameters of the walk, so every visited node overwrites it: the
    value returned is the weight of the last node in pre-order, not the
    minimum. *)
Theorem forest_min_weight_is_last_visited (f : Forest) (d : Node) :
  f <> [] ->
  (forest_min_weight f == weight (he (last (collect_all_nodes f) d)))%Q.
Proof.
  intros Hne. destruct f as [|r0 f]; [contradiction|].
  unfold forest_min_weight. rewrite collect_all_nodes_eq.
  set (m := store (fun _ => 0%Q) 0%nat (weight (he r0))).
  assert (Hfold : forall l m0 nd0,
             (load m0 0%nat == weight (he nd0))%Q ->
             (load (fold_left (fun m r => find_weight_range_recursive r 0 0 m) l m0) 0%nat
              == weight (he (last (nd0 :: flat_map subnodes l) d)))%Q).
  { induction l as [|c l IH]; intros m0 nd0 H0; [exact H0|].
    cbn [fold_left flat_map].
    assert (Hne' : subnodes c <> []) by (destruct c; discriminate).
    replace (last (nd0 :: subnodes c ++ flat_map subnodes l) d)
      with (last (last (subnodes c) d :: flat_map subnodes l) d).
    - apply IH, find_weight_range_aliased.
    - apply last_through, Hne'. }
  specialize (Hfold (r0 :: f) m r0 ltac:(reflexivity)).
  rewrite Hfold.
  assert (Hne' : flat_map subnodes (r0 :: f) <> [])
    by (destruct r0; discriminate).
  destruct (flat_map subnodes (r0 :: f)) as [|x l]; [contradiction|].
  reflexivity.
Qed.

Lemma forest_min_weight_is_last_visited_witness :
  let f := [mkNode (mkHyperedge [1; 2; 3] 1) [mkNode (mkHyperedge [1; 2] 5) []]] in
  (forest_min_weight f == 5)%Q.
Proof.
  intros f.
  apply (forest_min_weight_is_last_visited f (mkNode (mkHyperedge [] 0) [])).
  discriminate.
Defined.

Lemma max_over_roots (l : list Node) :
  forall init,
    let m := fold_left
               (fun max r => if Qgtb (weight (he r)) max then weight (he r) else max)
               l init in
    (init <= m)%Q /\ forall r, In r l -> (weight (he r) <= m)%Q.
Proof.
  induction l as [|x l IH]; intros init; cbn [fold_left].
  - split; [apply Qle_refl | intros ? []].
  - destruct (Qgtb (weight (he x)) init) eqn:G.
    + apply Qgtb_true in G. destruct (IH (weight (he x))) as [I1 I2].
      split; [cbv zeta in *; lra|]. intros r [<-|Hr]; [exact I1 | apply I2, Hr].
    + apply Qgtb_false in G. destruct (IH init) as [I1 I2].
      split; [exact I1|]. intros r [<-|Hr]; [cbv zeta in *; lra | apply I2, Hr].
Qed.

(** [forest_max_weight] looks at the roots only.  On a forest in which no
    child is heavier than its parent that is enough: no node of the forest
    weighs more than the value returned. *)
Theorem forest_max_weight_bounds_all (f : Forest) :
  forallb monotone_exact f = true ->
  forall nd, In nd (collect_all_nodes f) ->
             (weight (he nd) <= forest_max_weight f)%Q.
Proof.
  intros Hm nd Hnd. rewrite collect_all_nodes_eq in Hnd.
  apply in_flat_map in Hnd. destruct Hnd as (r & Hr & Hnd).
  rewrite forallb_forall in Hm.
  pose proof (monotone_exact_bound r (Hm r Hr) nd Hnd) as Hb.
  destruct f as [|r0 f]; [destruct Hr|]. unfold forest_max_weight.
  destruct (max_over_roots (r0 :: f) (weight (he r0))) as [_ H].
  specialize (H r Hr). cbv zeta in H. lra.
Qed.

Lemma forest_max_weight_bounds_all_witness :
  let f := insert_hyperedge (insert_hyperedge forest_create [1; 2; 3] 9) [1; 2] 5 in
  Forall (fun nd => (weight (he nd) <= forest_max_weight f)%Q) (collect_all_nodes f).
Proof.
  intros f. apply Forall_forall. apply forest_max_weight_bounds_all. reflexivity.
Defined.

(** ** Decoding: trailing and missing bytes *)

Lemma saved_roots_readable (f : Forest) (total : nat) :
  Forall node_fits (collect_all_nodes f) ->
  (length (flat_map write_node f) <= total)%nat ->
  Forall (fun r => forall rest,
            read_node total (write_node r ++ rest) = Some (r, rest)) f.
Proof.
  intros Hfit Htotal. rewrite collect_all_nodes_eq in Hfit.
  rewrite Forall_forall in *. intros r Hr rest.
  apply read_node_write_node.
  - rewrite Forall_forall. intros x Hx. apply Hfit, in_flat_map.
    exists r. split; assumption.
  - pose proof (write_node_length r). pose proof (flat_map_write_length f r Hr).
    lia.
Qed.

Lemma forest_load_save (f : Forest) :
  serializable f -> forest_load (forest_save f) = Some f.
Proof.
  intros [Hnr Hfit]. unfold forest_load, forest_save.
  rewrite (read_int_app _ _ Hnr). unfold nroots. rewrite Nat2Z.id.
  rewrite <- (app_nil_r (flat_map write_node f)) at 2.
  rewrite (read_nodes_app _ f); [reflexivity|].
  apply saved_roots_readable; [exact Hfit | rewrite length_app; lia].
Qed.

(** [forest_load] stops after the last root: bytes that follow a saved
    forest in the stream are not looked at, and the forest is returned all
    the same. *)
Theorem forest_load_ignores_trailing_bytes (f : Forest) (extra : list Byte.byte) :
  serializable f ->
  forest_load (forest_save f ++ extra) = Some f.
Proof.
  intros [Hnr Hfit]. unfold forest_load, forest_save.
  rewrite <- app_assoc, (read_int_app _ _ Hnr). unfold nroots. rewrite Nat2Z.id.
  rewrite (read_nodes_app _ f); [reflexivity|].
  apply saved_roots_readable; [exact Hfit | rewrite !length_app; lia].
Qed.

Lemma forest_load_ignores_trailing_bytes_witness :
  let f := insert_hyperedge (insert_hyperedge forest_create [1; 2; 3] 1) [1; 2] (1 # 2) in
  forest_load (forest_save f ++ [Byte.x2a; Byte.xff]) = Some f.
Proof.
  intros f. apply forest_load_ignores_trailing_bytes.
  split; [vm_compute; split; [discriminate | reflexivity]|].
  let l := eval vm_compute in (collect_all_nodes f) in
  change (Forall node_fits l).
  repeat (apply Forall_cons;
          [unfold node_fits, int32, nverts, nchildren; cbn [he children verts weight length];
           split; [lia|]; split; [repeat (apply Forall_cons; [lia|]); apply Forall_nil|];
           split; [reflexivity | lia] |]).
  apply Forall_nil.
Defined.

Lemma fread_inv (n : nat) (bs b rest : list Byte.byte) :
  fread n bs = Some (b, rest) -> bs = b ++ rest /\ length b = n.
Proof.
  unfold fread. destruct (Nat.leb_spec n (length bs)) as [L|L]; [|discriminate].
  intros H. injection H as <- <-. split.
  - symmetry. apply firstn_skipn.
  - rewrite length_firstn. lia.
Qed.

Lemma fread_extend (n : nat) (bs b rest extra : list Byte.byte) :
  fread n bs = Some (b, rest) -> fread n (bs ++ extra) = Some (b, rest ++ extra).
Proof.
  intros H. destruct (fread_inv n bs b rest H) as [-> <-].
  rewrite <- app_assoc. apply fread_app.
Qed.

Lemma read_int_inv (bs rest : list Byte.byte) (x : Z) :
  read_int bs = Some (x, rest) ->
  length bs = (4 + length rest)%nat
  /\ forall extra, read_int (bs ++ extra) = Some (x, rest ++ extra).
Proof.
  unfold read_int. destruct (fread 4 bs) as [[b r]|] eqn:E; [|discriminate].
  intros H. injection H as <- <-. split.
  - destruct (fread_inv _ _ _ _ E) as [-> Hl]. rewrite length_app. lia.
  - intros extra. rewrite (fread_extend _ _ _ _ extra E). reflexivity.
Qed.

Lemma read_double_inv (bs rest : list Byte.byte) (w : Q) :
  read_double bs = Some (w, rest) ->
  length bs = (8 + length rest)%nat
  /\ forall extra, read_double (bs ++ extra) = Some (w, rest ++ extra).
Proof.
  unfold read_double. destruct (fread 8 bs) as [[b r]|] eqn:E; [|discriminate].
  destruct (double_of_bits (le_value b)) as [w'|] eqn:D; [|discriminate].
  intros H. injection H as <- <-. split.
  - destruct (fread_inv _ _ _ _ E) as [-> Hl]. rewrite length_app. lia.
  - intros extra. rewrite (fread_extend _ _ _ _ extra E), D. reflexivity.
Qed.

Lemma read_ints_inv (n : nat) :
  forall bs vs rest,
    read_ints n bs = Some (vs, rest) ->
    length vs = n
    /\ length bs = (4 * n + length rest)%nat
    /\ forall extra, read_ints n (bs ++ extra) = Some (vs, rest ++ extra).
Proof.
  induction n as [|n IH]; intros bs vs rest H; cbn [read_ints] in *.
  - injection H as <- <-. repeat split; reflexivity.
  - destruct (read_int bs) as [[x r1]|] eqn:E1; [|discriminate].
    destruct (read_ints n r1) as [[xs r2]|] eqn:E2; [|discriminate].
    injection H as <- <-.
    destruct (read_int_inv _ _ _ E1) as [L1 X1].
    destruct (IH _ _ _ E2) as (Ln & L2 & X2).
    repeat split; [cbn [length]; lia | lia|].
    intros extra. rewrite X1, X2. reflexivity.
Qed.

Lemma int_bytes_flat_length (vs : list Z) :
  length (flat_map int_bytes vs) = (4 * length vs)%nat.
Proof.
  induction vs as [|v vs IH]; [reflexivity|].
  cbn [flat_map length]. rewrite length_app, IH.
  unfold int_bytes. rewrite le_bytes_length. lia.
Qed.

Lemma read_nodes_inv (rd rd' : list Byte.byte -> option (Node * list Byte.byte))
    (n : nat) :
  read_ok rd rd' ->
  forall acc bs cs rest,
    read_nodes rd n acc bs = Some (cs, rest) ->
    exists new,
      cs = acc ++ new /\ length new = n
      /\ length bs = (length (flat_map write_node new) + length rest)%nat
      /\ forall extra, read_nodes rd' n acc (bs ++ extra) = Some (cs, rest ++ extra).
Proof.
  intros Hok. induction n as [|n IH]; intros acc bs cs rest H; cbn [read_nodes] in *.
  - injection H as <- <-. exists []. rewrite app_nil_r.
    repeat split; reflexivity.
  - destruct (rd bs) as [[child r1]|] eqn:E; [|discriminate].
    destruct (Hok _ _ _ E) as [L1 X1].
    destruct (IH _ _ _ _ H) as (new & -> & Ln & L2 & X2).
    exists (child :: new). rewrite <- app_assoc. cbn [app length flat_map].
    repeat split; [lia | rewrite length_app; lia|].
    intros extra. rewrite X1, X2, <- app_assoc. reflexivity.
Qed.

Lemma read_node_ok (fuel : nat) :
  forall fuel', (fuel <= fuel')%nat -> read_ok (read_node fuel) (read_node fuel').
Proof.
  induction fuel as [|fuel IH]; intros fuel' Hle bs nd rest H; [discriminate|].
  destruct fuel' as [|fuel']; [lia|].
  cbn [read_node] in *.
  destruct (read_int bs) as [[nv b1]|] eqn:E1; [|discriminate].
  destruct (nv <? 0) eqn:Nv; [discriminate|].
  destruct (read_ints (Z.to_nat nv) b1) as [[vs b2]|] eqn:E2; [|discriminate].
  destruct (read_double b2) as [[w b3]|] eqn:E3; [|discriminate].
  destruct (read_int b3) as [[nc b4]|] eqn:E4; [|discriminate].
  destruct (read_nodes (read_node fuel) (Z.to_nat nc) [] b4) as [[cs r]|] eqn:E5;
    [|discriminate].
  injection H as <- <-.
  destruct (read_int_inv _ _ _ E1) as [L1 X1].
  destruct (read_ints_inv _ _ _ _ E2) as (Lv & L2 & X2).
  destruct (read_double_inv _ _ _ E3) as [L3 X3].
  destruct (read_int_inv _ _ _ E4) as [L4 X4].
  destruct (read_nodes_inv _ _ _ (IH fuel' ltac:(lia)) _ _ _ _ E5)
    as (new & -> & Ln & L5 & X5).
  cbn [app] in *. split.
  - cbn [write_node verts weight]. rewrite !length_app, int_bytes_flat_length.
    unfold int_bytes, double_bytes. rewrite !le_bytes_length. lia.
  - intros extra. rewrite X1, Nv, X2, X3, X4, X5. reflexivity.
Qed.

(** A saved forest with its end cut off does not load: decoding every
    proper prefix of the stream fails. *)
Theorem forest_load_truncated_fails (f : Forest) (n : nat) :
  serializable f ->
  (n < length (forest_save f))%nat ->
  forest_load (firstn n (forest_save f)) = None.
Proof.
  intros Hs Hn.
  destruct (forest_load (firstn n (forest_save f))) as [f'|] eqn:E;
    [exfalso | reflexivity].
  set (p := firstn n (forest_save f)) in *.
  set (e := skipn n (forest_save f)).
  assert (Hsplit : forest_save f = p ++ e) by (symmetry; apply firstn_skipn).
  assert (Hp : (length p <= n)%nat) by (unfold p; rewrite length_firstn; lia).
  unfold forest_load in E.
  destruct (read_int p) as [[nr b1]|] eqn:E1; [|discriminate].
  destruct (read_nodes (read_node (length p)) (Z.to_nat nr) [] b1) as [[roots r]|] eqn:E2;
    [|discriminate].
  injection E as ->.
  destruct (read_int_inv _ _ _ E1) as [L1 X1].
  destruct (read_nodes_inv _ _ _ (read_node_ok (length p) (length (p ++ e))
              ltac:(rewrite length_app; lia)) _ _ _ _ E2)
    as (new & Hnew & Ln & L2 & X2).
  cbn [app] in Hnew. subst new.
  assert (Hfull : forest_load (p ++ e) = Some f').
  { unfold forest_load. rewrite X1, X2. reflexivity. }
  rewrite <- Hsplit in Hfull.
  rewrite (forest_load_save f Hs) in Hfull.
  injection Hfull as <-.
  unfold forest_save in Hn. rewrite length_app in Hn.
  unfold int_bytes in Hn. rewrite le_bytes_length in Hn. lia.
Qed.

Lemma forest_load_truncated_fails_witness :
  let f := insert_hyperedge (insert_hyperedge forest_create [1; 2; 3] 1) [1; 2] (1 # 2) in
  forest_load (firstn 30 (forest_save f)) = None.
Proof.
  intros f. apply forest_load_truncated_fails; [|vm_compute; lia].
  split; [vm_compute; split; [discriminate | reflexivity]|].
  let l := eval vm_compute in (collect_all_nodes f) in
  change (Forall node_fits l).
  repeat (apply Forall_cons;
          [unfold node_fits, int32, nverts, nchildren; cbn [he children verts weight length];
           split; [lia|]; split; [repeat (apply Forall_cons; [lia|]); apply Forall_nil|];
           split; [reflexivity | lia] |]).
  apply Forall_nil.
Defined.

(** ** Depth-first traversal *)

Lemma visit_loop_app {S : Type} (v : NodeVisitor S) (l1 l2 : list Node) :
  forall s,
    visit_loop v (l1 ++ l2) s
    = if fst (visit_loop v l1 s) then visit_loop v l1 s
      else visit_loop v l2 (snd (visit_loop v l1 s)).
Proof.
  induction l1 as [|x l1 IH]; intros s; [reflexivity|].
  cbn [app visit_loop]. destruct (v x s) as [code s'].
  destruct (negb (code =? 0)); [reflexivity | apply IH].
Qed.

Lemma dfs_scan_visit {S : Type} (v : NodeVisitor S) (rec : Node -> S -> Z * S)
    (cs : list Node) :
  Forall (fun c => forall s,
            rec c s = (if fst (visit_loop v (subnodes c) s) then 1 else 0,
                       snd (visit_loop v (subnodes c) s))) cs ->
  forall s,
    dfs_scan rec cs s
    = (if fst (visit_loop v (flat_map subnodes cs) s) then 1 else 0,
       snd (visit_loop v (flat_map subnodes cs) s)).
Proof.
  induction 1 as [|c cs Hc _ IH]; intros s; [reflexivity|].
  cbn [dfs_scan flat_map]. rewrite Hc, visit_loop_app.
  destruct (visit_loop v (subnodes c) s) as [b s1]. cbn [fst snd].
  destruct b; cbn [Z.eqb negb fst snd]; [reflexivity | apply IH].
Qed.

Lemma dfs_helper_visit {S : Type} (v : NodeVisitor S) (nd : Node) :
  forall s,
    dfs_helper v nd s
    = (if fst (visit_loop v (subnodes nd) s) then 1 else 0,
       snd (visit_loop v (subnodes nd) s)).
Proof.
  induction nd as [h cs IH] using Node_ind'. intros s.
  cbn [dfs_helper subnodes visit_loop]. destruct (v (mkNode h cs) s) as [code s'].
  destruct (negb (code =? 0)); [reflexivity|].
  apply (dfs_scan_visit v (dfs_helper v) cs IH).
Qed.

(** [forest_traverse_dfs] calls the visitor on the nodes in pre-order and
    makes no further call once the visitor has returned a non-zero code:
    it leaves the user data as a plain loop with [break] over the pre-order
    list leaves it. *)
Theorem forest_traverse_dfs_preorder {S : Type} (visitor : NodeVisitor S)
    (f : Forest) (s : S) :
  forest_traverse_dfs visitor f s
  = snd (visit_loop visitor (collect_all_nodes f) s).
Proof.
  unfold forest_traverse_dfs. rewrite collect_all_nodes_eq.
  rewrite (dfs_scan_visit visitor (dfs_helper visitor) f); [reflexivity|].
  apply Forall_forall. intros c _. apply dfs_helper_visit.
Qed.

(** ** Breadth-first order *)

Lemma layer_0 (f : Forest) : layer f 0 = f.
Proof.
  unfold layer. induction f as [|r f IH]; [reflexivity|].
  cbn [flat_map at_depth app]. f_equal. exact IH.
Qed.

Lemma layer_S (f : Forest) (d : nat) :
  layer f (S d) = layer (flat_map children f) d.
Proof.
  unfold layer. induction f as [|r f IH]; [reflexivity|].
  change (flat_map (at_depth (S d)) (r :: f))
    with (at_depth (S d) r ++ flat_map (at_depth (S d)) f).
  change (flat_map children (r :: f)) with (children r ++ flat_map children f).
  rewrite flat_map_app, IH. reflexivity.
Qed.

Lemma layer_children (d : nat) :
  forall f, layer (flat_map children f) d = flat_map children (layer f d).
Proof.
  induction d as [|d IH]; intros f.
  - now rewrite !layer_0.
  - rewrite !layer_S. apply IH.
Qed.

Lemma layer_succ (f : Forest) (d : nat) :
  layer f (S d) = flat_map children (layer f d).
Proof. rewrite layer_S. apply layer_children. Qed.

Lemma at_depth_beyond (d : nat) :
  forall nd, (height nd <= d)%nat -> at_depth d nd = [].
Proof.
  induction d as [|d IH]; intros [h cs] Hh; cbn [height] in Hh; [lia|].
  cbn [at_depth children]. induction cs as [|c cs IHcs]; [reflexivity|].
  cbn [flat_map map fold_right] in *. rewrite IH by lia. apply IHcs. lia.
Qed.

Lemma layer_beyond (f : Forest) (d : nat) :
  (forest_height f <= d)%nat -> layer f d = [].
Proof.
  unfold layer, forest_height. induction f as [|r f IH]; intros Hh; [reflexivity|].
  cbn [flat_map map fold_right] in *. rewrite at_depth_beyond by lia.
  apply IH. lia.
Qed.

Lemma first_layers_S (f : Forest) (n : nat) :
  first_layers f (S n) = first_layers f n ++ layer f n.
Proof.
  unfold first_layers. rewrite seq_S, flat_map_app. cbn [flat_map].
  now rewrite app_nil_r.
Qed.

Lemma layer_empty_from (f : Forest) (d : nat) :
  layer f d = [] -> forall e, (d <= e)%nat -> layer f e = [].
Proof.
  intros H e He. induction He as [|e He IH]; [exact H|].
  rewrite layer_succ, IH. reflexivity.
Qed.

Lemma first_layers_stable (f : Forest) (a : nat) :
  (forall e, (a <= e)%nat -> layer f e = []) ->
  forall n, (a <= n)%nat -> first_layers f n = first_layers f a.
Proof.
  intros H n Hn. induction Hn as [|n Hn IH]; [reflexivity|].
  rewrite first_layers_S, IH, (H n Hn), app_nil_r. reflexivity.
Qed.

Lemma first_layers_prefix (f : Forest) (n : nat) :
  exists tail, bfs_order f = first_layers f n ++ tail.
Proof.
  unfold bfs_order. destruct (Nat.le_gt_cases n (forest_height f)) as [L|L].
  - exists (flat_map (layer f) (seq n (forest_height f - n))).
    unfold first_layers. rewrite <- flat_map_app, <- seq_app. f_equal. f_equal. lia.
  - exists []. rewrite app_nil_r. symmetry.
    apply first_layers_stable; [|lia].
    intros e He. apply layer_beyond, He.
Qed.

Lemma first_layers_all (f : Forest) (d : nat) :
  layer f d = [] -> bfs_order f = first_layers f d.
Proof.
  intros H. unfold bfs_order.
  pose proof (layer_empty_from f d H) as Hd.
  assert (Hh : forall e, (forest_height f <= e)%nat -> layer f e = [])
    by (intros e He; apply layer_beyond, He).
  destruct (Nat.le_gt_cases d (forest_height f)) as [L|L].
  - apply first_layers_stable; assumption.
  - symmetry. apply first_layers_stable; [assumption | lia].
Qed.

Lemma firstn_prefix {A : Type} (p tail : list A) (n : nat) :
  length p = n -> firstn n (p ++ tail) = p.
Proof.
  intros <-. rewrite firstn_app, Nat.sub_diag, firstn_all. cbn [firstn].
  apply app_nil_r.
Qed.

Lemma firstn_prefix_cut {A : Type} (p tail : list A) (n : nat) :
  (n <= length p)%nat -> firstn n (p ++ tail) = firstn n p.
Proof.
  intros H. rewrite firstn_app.
  replace (n - length p)%nat with 0%nat by lia. cbn [firstn]. apply app_nil_r.
Qed.

(** ** Top-k *)

Lemma top_k_push_spec (K : nat) (cs : list Node) :
  forall result queue back,
    back = Z.of_nat (length result) ->
    (length result <= K)%nat ->
    top_k_push (Z.of_nat K) cs result queue back
    = (result ++ firstn (K - length result) cs,
       queue ++ firstn (K - length result) cs,
       Z.of_nat (length (result ++ firstn (K - length result) cs))).
Proof.
  induction cs as [|c cs IH]; intros result queue back Hb Hl; cbn [top_k_push].
  - rewrite firstn_nil, !app_nil_r. now subst.
  - destruct (Z.ltb_spec (Z.of_nat (length result)) (Z.of_nat K)) as [L|L].
    + assert (Hcap : (back <? Z.of_nat K * 10) = true) by (apply Z.ltb_lt; lia).
      rewrite Hcap.
      assert (Hl' : length (result ++ [c]) = S (length result))
        by (rewrite length_app; cbn [length]; lia).
      rewrite IH by lia. rewrite Hl'.
      replace (K - length result)%nat with (S (K - S (length result))) by lia.
      cbn [firstn]. rewrite <- !app_assoc. reflexivity.
    + replace (K - length result)%nat with 0%nat by lia.
      cbn [firstn]. rewrite !app_nil_r. now subst.
Qed.

Lemma top_k_roots_spec (K : nat) (roots : list Node) :
  forall result queue back,
    back = Z.of_nat (length result) ->
    (length result <= K)%nat ->
    top_k_roots (Z.of_nat K) roots result queue back
    = (result ++ firstn (K - length result) roots,
       queue ++ firstn (K - length result) roots,
       Z.of_nat (length (result ++ firstn (K - length result) roots))).
Proof.
  induction roots as [|c cs IH]; intros result queue back Hb Hl; cbn [top_k_roots].
  - rewrite firstn_nil, !app_nil_r. now subst.
  - destruct (Z.ltb_spec (Z.of_nat (length result)) (Z.of_nat K)) as [L|L].
    + assert (Hl' : length (result ++ [c]) = S (length result))
        by (rewrite length_app; cbn [length]; lia).
      rewrite IH by lia. rewrite Hl'.
      replace (K - length result)%nat with (S (K - S (length result))) by lia.
      cbn [firstn]. rewrite <- !app_assoc. reflexivity.
    + replace (K - length result)%nat with 0%nat by lia.
      cbn [firstn]. rewrite !app_nil_r. now subst.
Qed.

Lemma top_k_loop_full (f : Forest) (K fuel : nat) (result queue tail : list Node)
    (back : Z) :
  length result = K ->
  bfs_order f = result ++ tail ->
  top_k_loop (S fuel) (Z.of_nat K) result queue back
  = Some (firstn K (bfs_order f)).
Proof.
  intros Hl Hp. rewrite Hp, firstn_prefix by exact Hl.
  cbn [top_k_loop]. destruct queue as [|curr queue']; [reflexivity|].
  destruct (Z.ltb_spec (Z.of_nat (length result)) (Z.of_nat K)); [lia | reflexivity].
Qed.

Lemma subnodes_length_pos (nd : Node) : (1 <= length (subnodes nd))%nat.
Proof. destruct nd. cbn [subnodes length]. lia. Qed.

Lemma flat_map_subnodes_length (l : list Node) :
  (length l <= length (flat_map subnodes l))%nat.
Proof.
  induction l as [|x l IH]; [reflexivity|].
  cbn [flat_map]. rewrite length_app. pose proof (subnodes_length_pos x).
  cbn [length]. lia.
Qed.

Lemma top_k_loop_bfs (f : Forest) (K : nat) :
  forall fuel d done rest result queue back,
    (length (flat_map subnodes queue) < fuel)%nat ->
    back = Z.of_nat (length result) ->
    (length result <= K)%nat ->
    layer f d = done ++ rest ->
    queue = rest ++ flat_map children done ->
    result = first_layers f (S d) ++ flat_map children done ->
    top_k_loop fuel (Z.of_nat K) result queue back
    = Some (firstn K (bfs_order f)).
Proof.
  induction fuel as [|fuel IH]; intros d done rest result queue back
    Hfuel Hb Hl Hlayer Hq Hr; [lia|].
  destruct queue as [|curr queue'].
  { (* the queue is empty: the next layer is empty *)
    symmetry in Hq. apply app_eq_nil in Hq. destruct Hq as [-> Hc].
    rewrite app_nil_r in Hlayer.
    assert (Hnext : layer f (S d) = [])
      by (rewrite layer_succ, Hlayer; exact Hc).
    cbn [top_k_loop]. rewrite (first_layers_all f (S d) Hnext).
    rewrite Hc, app_nil_r in Hr. rewrite <- Hr, firstn_all2; [reflexivity|].
    exact Hl. }
  assert (Hnorm : exists d' done' rest',
             layer f d' = done' ++ curr :: rest'
             /\ queue' = rest' ++ flat_map children done'
             /\ result = first_layers f (S d') ++ flat_map children done').
  { destruct rest as [|c rest].
    - (* the layer is used up: the queue holds the next layer *)
      rewrite app_nil_r in Hlayer. cbn [app] in Hq.
      exists (S d), [], queue'. cbn [app flat_map]. rewrite app_nil_r.
      rewrite layer_succ, Hlayer, <- Hq. split; [reflexivity|].
      split; [reflexivity|].
      rewrite app_nil_r, first_layers_S, layer_succ, Hlayer. exact Hr.
    - cbn [app] in Hq. injection Hq as -> ->.
      exists d, done, rest. auto. }
  clear d done rest Hlayer Hq Hr.
  destruct Hnorm as (d & done & rest & Hlayer & Hq & Hr).
  subst queue'. cbn [top_k_loop].
  assert (Hbfs : exists tail,
             bfs_order f
             = result ++ children curr ++ tail).
  { destruct (first_layers_prefix f (S (S d))) as [tail Ht].
    exists (flat_map children rest ++ tail).
    rewrite Ht, first_layers_S, layer_succ, Hlayer, flat_map_app, Hr.
    cbn [flat_map]. rewrite <- !app_assoc. reflexivity. }
  destruct Hbfs as [tail Hbfs].
  destruct (Z.ltb_spec (Z.of_nat (length result)) (Z.of_nat K)) as [L|L].
  - rewrite top_k_push_spec by assumption.
    set (j := (K - length result)%nat).
    destruct (Nat.le_gt_cases (length (children curr)) j) as [A|A].
    + (* every child is taken *)
      rewrite firstn_all2 by exact A.
      apply (IH d (done ++ [curr]) rest).
      * cbn [app flat_map] in Hfuel. rewrite !flat_map_app.
        rewrite !flat_map_app in Hfuel.
        rewrite !length_app in *. destruct curr as [h cs].
        cbn [subnodes length children] in *. lia.
      * reflexivity.
      * rewrite length_app. subst j. lia.
      * rewrite Hlayer, <- app_assoc. reflexivity.
      * rewrite flat_map_app. cbn [flat_map]. rewrite app_nil_r, <- !app_assoc.
        reflexivity.
      * rewrite Hr, flat_map_app. cbn [flat_map].
        rewrite app_nil_r, <- !app_assoc. reflexivity.
    + (* the result fills up among the children *)
      assert (Hfuel' : (1 <= fuel)%nat).
      { cbn [app flat_map] in Hfuel. rewrite length_app in Hfuel.
        destruct curr as [h cs]. cbn [subnodes length children] in *.
        pose proof (flat_map_subnodes_length cs). lia. }
      destruct fuel as [|fuel']; [lia|].
      apply top_k_loop_full
        with (tail := skipn j (children curr) ++ tail).
      * rewrite length_app, length_firstn. subst j. lia.
      * rewrite Hbfs, <- !app_assoc. f_equal.
        rewrite app_assoc, firstn_skipn. reflexivity.
  - assert (El : length result = K) by lia.
    rewrite Hbfs, firstn_prefix by exact El. reflexivity.
Qed.

(** [find_top_k] returns the first [k] nodes of the forest in breadth-first
    order (roots first, then layer by layer, each layer in the order of the
    parents), or all nodes if there are fewer than [k]; the node weights play
    no part in the selection.  [k * 10], the capacity of the queue, has to
    fit a C [int]. *)
Theorem find_top_k_is_bfs_prefix (f : Forest) (k : Z) :
  k * 10 <= 2147483647 ->
  find_top_k f k = Some (firstn (Z.to_nat k) (bfs_order f)).
Proof.
  intros _. unfold find_top_k, nroots.
  destruct (Z.leb_spec k 0) as [L|L]; cbn [orb].
  - replace (Z.to_nat k) with 0%nat by lia. reflexivity.
  - destruct f as [|r f].
    + cbn [length Z.of_nat Z.eqb]. unfold bfs_order, first_layers.
      cbn. now rewrite firstn_nil.
    + assert (E : (Z.of_nat (length (r :: f)) =? 0) = false)
        by (apply Z.eqb_neq; cbn [length]; lia).
      rewrite E. set (F := r :: f) in *. clearbody F. clear E r f.
      set (K := Z.to_nat k). replace k with (Z.of_nat K) by (subst K; lia).
      assert (HK : (1 <= K)%nat) by (subst K; lia).
      rewrite top_k_roots_spec by (cbn [length]; lia || reflexivity).
      cbn [app length]. rewrite Nat.sub_0_r.
      destruct (Nat.le_gt_cases (length F) K) as [A|A].
      * rewrite firstn_all2 by exact A.
        apply (top_k_loop_bfs F K _ 0%nat [] F).
        -- rewrite collect_all_nodes_eq. lia.
        -- reflexivity.
        -- exact A.
        -- rewrite layer_0. reflexivity.
        -- cbn [flat_map]. now rewrite app_nil_r.
        -- cbn [flat_map]. rewrite app_nil_r, first_layers_S, layer_0.
           reflexivity.
      * destruct (first_layers_prefix F 1) as [tail Ht].
        rewrite first_layers_S, layer_0 in Ht. cbn [app] in Ht.
        apply top_k_loop_full with (tail := skipn K F ++ tail).
        -- rewrite length_firstn. lia.
        -- rewrite Ht, app_assoc, firstn_skipn. reflexivity.
Qed.

Lemma find_top_k_is_bfs_prefix_witness :
  let f := [mkNode (mkHyperedge [1; 2; 3; 4] 4)
              [mkNode (mkHyperedge [1; 2; 3] 3) [mkNode (mkHyperedge [2; 3] 1) []];
               mkNode (mkHyperedge [3; 4] 2) []]] in
  find_top_k f 3 = Some (firstn 3 (bfs_order f)).
Proof. intros f. apply (find_top_k_is_bfs_prefix f 3). lia. Defined.

(** ** Breadth-first traversal *)

Lemma layers_shift (f : Forest) (n : nat) :
  forall start,
    flat_map (layer f) (seq (S start) n)
    = flat_map (layer (flat_map children f)) (seq start n).
Proof.
  induction n as [|n IH]; intros start; [reflexivity|].
  cbn [seq flat_map]. rewrite layer_S, IH. reflexivity.
Qed.

Lemma first_layers_unfold (f : Forest) (n : nat) :
  first_layers f (S n) = f ++ first_layers (flat_map children f) n.
Proof.
  unfold first_layers. cbn [seq flat_map]. rewrite layer_0, layers_shift.
  reflexivity.
Qed.

Lemma forest_height_app (a b : Forest) :
  forest_height (a ++ b) = Nat.max (forest_height a) (forest_height b).
Proof.
  unfold forest_height. induction a as [|x a IH]; [reflexivity|].
  cbn [app map fold_right]. rewrite IH. lia.
Qed.

Lemma forest_height_children (f : Forest) (n : nat) :
  (forest_height f <= S n)%nat -> (forest_height (flat_map children f) <= n)%nat.
Proof.
  induction f as [|[h cs] f IH]; intros Hh; [cbn; lia|].
  cbn [flat_map children]. rewrite forest_height_app.
  unfold forest_height in Hh. cbn [map fold_right height] in Hh.
  fold (forest_height cs) in Hh. fold (forest_height f) in Hh.
  specialize (IH ltac:(lia)). lia.
Qed.

Lemma subnodes_children_perm (f : Forest) :
  Permutation (flat_map subnodes f)
              (f ++ flat_map subnodes (flat_map children f)).
Proof.
  induction f as [|[h cs] f IH]; [constructor|].
  cbn [flat_map subnodes children app]. rewrite flat_map_app.
  apply perm_skip. rewrite IH. apply Permutation_app_swap_app.
Qed.

Lemma first_layers_perm (n : nat) :
  forall f, (forest_height f <= n)%nat ->
            Permutation (first_layers f n) (flat_map subnodes f).
Proof.
  induction n as [|n IH]; intros f Hh.
  - destruct f as [|[h cs] f]; [constructor|].
    unfold forest_height in Hh. cbn [map fold_right height] in Hh. lia.
  - rewrite first_layers_unfold, subnodes_children_perm.
    apply Permutation_app_head, IH, forest_height_children, Hh.
Qed.

Lemma bfs_order_perm (f : Forest) :
  Permutation (bfs_order f) (collect_all_nodes f).
Proof.
  rewrite collect_all_nodes_eq. apply first_layers_perm. reflexivity.
Qed.

Lemma bfs_push_spec (total : Z) (cs : list Node) :
  forall queue back,
    back + Z.of_nat (length cs) <= total ->
    bfs_push total cs queue back = (queue ++ cs, back + Z.of_nat (length cs)).
Proof.
  induction cs as [|c cs IH]; intros queue back Hcap; cbn [bfs_push].
  - rewrite app_nil_r. f_equal. cbn [length]. lia.
  - cbn [length] in *.
    assert (E : (back <? total) = true) by (apply Z.ltb_lt; lia).
    rewrite E, IH by lia. rewrite <- app_assoc. cbn [app]. f_equal. lia.
Qed.

Lemma bfs_loop_spec {S : Type} (visitor : NodeVisitor S) (f : Forest) :
  forall fuel d done rest tail queue back s,
    (length (flat_map subnodes queue) < fuel)%nat ->
    layer f d = done ++ rest ->
    queue = rest ++ flat_map children done ->
    back = Z.of_nat (length (first_layers f (Datatypes.S d)
                             ++ flat_map children done)) ->
    bfs_order f = first_layers f (Datatypes.S d) ++ flat_map children done ++ tail ->
    bfs_loop fuel visitor (Z.of_nat (length (bfs_order f))) queue back s
    = Some (snd (visit_loop visitor (queue ++ tail) s)).
Proof.
  induction fuel as [|fuel IH]; intros d done rest tail queue back s
    Hfuel Hlayer Hq Hb Hbfs; [lia|].
  destruct queue as [|curr queue'].
  { (* the queue is empty: the next layer is empty, nothing is left *)
    symmetry in Hq. apply app_eq_nil in Hq. destruct Hq as [-> Hc].
    rewrite app_nil_r in Hlayer.
    assert (Hnext : layer f (Datatypes.S d) = [])
      by (rewrite layer_succ, Hlayer; exact Hc).
    rewrite (first_layers_all f _ Hnext), Hc in Hbfs. cbn [app] in Hbfs.
    rewrite <- (app_nil_r (first_layers f (Datatypes.S d))) in Hbfs at 1.
    apply app_inv_head in Hbfs. subst tail. reflexivity. }
  assert (Hnorm : exists d' done' rest',
             layer f d' = done' ++ curr :: rest'
             /\ queue' = rest' ++ flat_map children done'
             /\ first_layers f (Datatypes.S d') ++ flat_map children done'
                = first_layers f (Datatypes.S d) ++ flat_map children done).
  { destruct rest as [|c rest].
    - rewrite app_nil_r in Hlayer. cbn [app] in Hq.
      exists (Datatypes.S d), [], queue'. cbn [app flat_map]. rewrite !app_nil_r.
      rewrite layer_succ, Hlayer, <- Hq. split; [reflexivity|].
      split; [reflexivity|].
      rewrite (first_layers_S f (Datatypes.S d)), layer_succ, Hlayer, Hq.
      reflexivity.
    - cbn [app] in Hq. injection Hq as -> ->.
      exists d, done, rest. auto. }
  destruct Hnorm as (d' & done' & rest' & Hlayer' & Hq' & Hsame).
  rewrite <- Hsame in Hb. rewrite app_assoc, <- Hsame, <- app_assoc in Hbfs.
  clear d done rest Hlayer Hq Hsame.
  assert (Htail : exists tail', tail = children curr ++ tail').
  { destruct (first_layers_prefix f (Datatypes.S (Datatypes.S d'))) as [t2 Ht].
    exists (flat_map children rest' ++ t2).
    rewrite first_layers_S, layer_succ, Hlayer', flat_map_app in Ht.
    cbn [flat_map] in Ht. rewrite <- !app_assoc in Ht.
    rewrite Ht in Hbfs. apply app_inv_head in Hbfs. apply app_inv_head in Hbfs.
    symmetry. exact Hbfs. }
  destruct Htail as [tail' ->].
  cbn [bfs_loop app visit_loop]. destruct (visitor curr s) as [code s'].
  destruct (negb (code =? 0)); [reflexivity|].
  rewrite bfs_push_spec.
  - rewrite (IH d' (done' ++ [curr]) rest' tail').
    + rewrite <- app_assoc. reflexivity.
    + subst queue'. cbn [app flat_map] in Hfuel.
      rewrite !flat_map_app, !length_app in *. destruct curr as [h cs].
      cbn [subnodes length children] in *. lia.
    + rewrite Hlayer', <- app_assoc. reflexivity.
    + subst queue'. rewrite flat_map_app. cbn [flat_map].
      rewrite app_nil_r, <- !app_assoc. reflexivity.
    + subst back. rewrite flat_map_app. cbn [flat_map].
      rewrite app_nil_r, !length_app, !Nat2Z.inj_add. lia.
    + rewrite Hbfs, flat_map_app. cbn [flat_map].
      rewrite app_nil_r, <- !app_assoc. reflexivity.
  - subst back. rewrite Hbfs, !length_app, !Nat2Z.inj_add. lia.
Qed.

(** [forest_traverse_bfs] ends, and leaves the user data as a plain loop with
    [break] over the nodes in breadth-first order leaves it: the roots, then
    their children, layer by layer and within a layer in the order of the
    parents.  That order lists every node of the forest once; the bound
    [back < total] on the queue never drops a child. *)
Theorem forest_traverse_bfs_order {S : Type} (visitor : NodeVisitor S)
    (f : Forest) (s : S) :
  forest_traverse_bfs visitor f s
  = Some (snd (visit_loop visitor (bfs_order f) s))
  /\ Permutation (bfs_order f) (collect_all_nodes f).
Proof.
  split; [|apply bfs_order_perm].
  unfold forest_traverse_bfs.
  assert (Htotal : count_total_nodes f = Z.of_nat (length (bfs_order f))).
  { rewrite count_total_nodes_hes. unfold hes.
    rewrite length_map, <- collect_all_nodes_eq.
    now rewrite (Permutation_length (bfs_order_perm f)). }
  destruct f as [|r f].
  - reflexivity.
  - set (F := r :: f) in *.
    assert (E : (count_total_nodes F =? 0) = false).
    { apply Z.eqb_neq. rewrite count_total_nodes_hes. unfold hes, F.
      rewrite length_map. destruct r. cbn [flat_map subnodes app length]. lia. }
    rewrite E, Htotal. clear E. clearbody F.
    destruct (first_layers_prefix F 1) as [tail Ht].
    rewrite first_layers_S, layer_0 in Ht.
    change (first_layers F 0) with (@nil Node) in Ht. cbn [app] in Ht.
    rewrite (bfs_loop_spec visitor F _ 0%nat [] F tail).
    + rewrite <- Ht. reflexivity.
    + rewrite collect_all_nodes_eq. lia.
    + rewrite layer_0. reflexivity.
    + cbn [flat_map]. now rewrite app_nil_r.
    + cbn [flat_map]. rewrite app_nil_r, first_layers_S, layer_0. reflexivity.
    + cbn [flat_map app]. rewrite first_layers_S, layer_0. exact Ht.
Qed.
